(** * three-interact: the event registry and the interaction coordinator

    A shallow embedding of [src/events/EventTypes.ts],
    [src/events/InteractEvent.ts], [src/Interactable.ts],
    [src/InteractManager.ts] and [src/index.ts].

    JavaScript objects that the code shares by reference are kept in an
    explicit store: handler arrays and [Interactable] wrappers live at
    addresses, so that a handler which unregisters something while a
    dispatch is running acts on the very array that [forEach] walks.
    Handlers are user callbacks; they are references (compared by identity)
    whose bodies are sequences of calls into the public API of the library.

    The ray caster is outside the library: what it answers to each query
    made for a sample is an input.  Device coordinates and distances are
    JavaScript numbers; they are whole numbers here and are only subtracted
    and carried along. *)

From stdpp Require Import gmap list strings.
From Stdlib Require Import ZArith Lia.

Open Scope Z_scope.
Open Scope nat_scope.

(** ** Identities *)

(** Scene objects, handler functions, [Interactable] instances and handler
    arrays are all compared by reference in the source. *)
Abbreviation Object3D := nat (only parsing).
Abbreviation InteractEventHandler := nat (only parsing).
Abbreviation InteractableRef := nat (only parsing).
Abbreviation ArrayRef := nat (only parsing).

(** ** [events/EventTypes.ts] *)

Inductive InteractEventType : Set :=
  | click | dblclick | drag | dragstart | dragend
  | pointerdown | pointerup | pointermove | pointerenter | pointerleave
  | wheel.

#[global] Instance InteractEventType_eq_dec : EqDecision InteractEventType.
Proof. solve_decision. Defined.

Definition type_code (k : InteractEventType) : nat :=
  match k with
  | click => 0 | dblclick => 1 | drag => 2 | dragstart => 3 | dragend => 4
  | pointerdown => 5 | pointerup => 6 | pointermove => 7
  | pointerenter => 8 | pointerleave => 9 | wheel => 10
  end.

Definition type_of_code (n : nat) : InteractEventType :=
  match n with
  | 0 => click | 1 => dblclick | 2 => drag | 3 => dragstart | 4 => dragend
  | 5 => pointerdown | 6 => pointerup | 7 => pointermove
  | 8 => pointerenter | 9 => pointerleave | _ => wheel
  end.

#[global] Instance InteractEventType_countable : Countable InteractEventType.
Proof. refine (inj_countable' type_code type_of_code _). by intros []. Defined.

(** ** The host's data *)

(** A raw pointer sample of the host; only the device coordinates are read. *)
Record PointerEvent : Set := { clientX : Z; clientY : Z }.

(** A hit record of the ray caster (THREE.Intersection). *)
Record Intersection : Set := { distance : Z; object : Object3D }.

#[global] Instance PointerEvent_eq_dec : EqDecision PointerEvent.
Proof. solve_decision. Defined.
#[global] Instance Intersection_eq_dec : EqDecision Intersection.
Proof. solve_decision. Defined.

(** ** [events/InteractEvent.ts] *)

Record InteractEvent : Set := {
  type : InteractEventType;
  target : Object3D;
  intersection : Intersection;
  originalEvent : PointerEvent;
  delta : Z * Z;
  stopped : bool
}.

#[global] Instance InteractEvent_eq_dec : EqDecision InteractEvent.
Proof. solve_decision. Defined.

(** [new InteractEvent(type, target, intersection, originalEvent)] *)
Definition newInteractEvent (ty : InteractEventType) (tg : Object3D)
    (i : Intersection) (e : PointerEvent) : InteractEvent :=
  {| type := ty; target := tg; intersection := i; originalEvent := e;
     delta := (0, 0)%Z; stopped := false |}.

Definition stopPropagation (ev : InteractEvent) : InteractEvent :=
  {| type := type ev; target := target ev; intersection := intersection ev;
     originalEvent := originalEvent ev; delta := delta ev; stopped := true |}.

(** [ev.delta.x = dx; ev.delta.y = dy] *)
Definition set_delta (dx dy : Z) (ev : InteractEvent) : InteractEvent :=
  {| type := type ev; target := target ev; intersection := intersection ev;
     originalEvent := originalEvent ev; delta := (dx, dy); stopped := stopped ev |}.

(** ** The store *)

(** An [Interactable]: its scene object and the [Map] from event type to the
    address of the handler array. *)
Record Interactable : Type := {
  getObject : Object3D;
  eventHandlers : gmap InteractEventType ArrayRef
}.

(** The coordinator.  [hoveredObjects] is a JavaScript [Map] that is only
    iterated and tested for membership: its keys in insertion order. *)
Record InteractManager : Type := {
  interactables : gmap Object3D InteractableRef;
  hoveredObjects : list Object3D;
  activeObject : option Object3D;
  dragObject : option Object3D;
  lastMousePosition : Z * Z
}.

(** What the instrumented program records: the coordinator handing an event
    to a wrapper, and a handler being called with the event as it is then. *)
Inductive entry : Type :=
  | LDispatch (a : InteractableRef) (ev : InteractEvent)
  | LCall (h : InteractEventHandler) (ev : InteractEvent).

#[global] Instance entry_eq_dec : EqDecision entry.
Proof. solve_decision. Defined.

Record world : Type := {
  arrays : gmap ArrayRef (list InteractEventHandler);
  next_array : ArrayRef;
  wrappers : gmap InteractableRef Interactable;
  next_wrapper : InteractableRef;
  manager : InteractManager;
  trace : list entry
}.

Definition with_arrays (f : gmap nat (list nat) → gmap nat (list nat)) (w : world) : world :=
  {| arrays := f (arrays w); next_array := next_array w; wrappers := wrappers w;
     next_wrapper := next_wrapper w; manager := manager w; trace := trace w |}.

Definition with_wrappers (f : gmap nat Interactable → gmap nat Interactable) (w : world) : world :=
  {| arrays := arrays w; next_array := next_array w; wrappers := f (wrappers w);
     next_wrapper := next_wrapper w; manager := manager w; trace := trace w |}.

Definition with_manager (f : InteractManager → InteractManager) (w : world) : world :=
  {| arrays := arrays w; next_array := next_array w; wrappers := wrappers w;
     next_wrapper := next_wrapper w; manager := f (manager w); trace := trace w |}.

Definition record (e : entry) (w : world) : world :=
  {| arrays := arrays w; next_array := next_array w; wrappers := wrappers w;
     next_wrapper := next_wrapper w; manager := manager w; trace := trace w ++ [e] |}.

(** The elements of the array at [r]. *)
Definition array_at (w : world) (r : ArrayRef) : list InteractEventHandler :=
  default [] (arrays w !! r).

(** [[]] evaluated: a new, empty array. *)
Definition alloc_array (w : world) : ArrayRef * world :=
  (next_array w,
   {| arrays := <[next_array w := []]> (arrays w); next_array := S (next_array w);
      wrappers := wrappers w; next_wrapper := next_wrapper w;
      manager := manager w; trace := trace w |}).

Definition set_eventHandlers (a : InteractableRef)
    (f : gmap InteractEventType nat → gmap InteractEventType nat) (w : world) : world :=
  with_wrappers (alter (λ I, {| getObject := getObject I;
                                 eventHandlers := f (eventHandlers I) |}) a) w.

(** [this.eventHandlers.get(type)] of the wrapper at [a]. *)
Definition handlers_of (w : world) (a : InteractableRef) (ty : InteractEventType)
    : option ArrayRef :=
  I ← wrappers w !! a; eventHandlers I !! ty.

(** ** Handlers *)

(** What a handler body can do: act on the event it received, or call the
    public methods of a wrapper or of the coordinator that it closes over.
    (A handler that itself calls [dispatchEvent] is outside the model.) *)
Inductive action : Type :=
  | AStop                                                    (* e.stopPropagation() *)
  | ASetDelta (dx dy : Z)                                    (* e.delta.x = dx; e.delta.y = dy *)
  | AOn (a : InteractableRef) (ty : InteractEventType) (h : InteractEventHandler)
  | AOff (a : InteractableRef) (ty : InteractEventType) (h : option InteractEventHandler)
  | ARemoveAll (a : InteractableRef)
  | AAdd (o : Object3D)                                      (* manager.add(o) *)
  | ARemove (o : Object3D).                                  (* manager.remove(o) *)

(** ** [Interactable.ts] *)

(** [on(type, handler)]: create the array when the type has none, then push. *)
Definition on (a : InteractableRef) (ty : InteractEventType)
    (h : InteractEventHandler) (w : world) : world :=
  let w1 := match handlers_of w a ty with
            | Some _ => w
            | None => let '(r, w') := alloc_array w in
                      set_eventHandlers a (<[ty := r]>) w'
            end in
  match handlers_of w1 a ty with
  | Some r => with_arrays (alter (λ l, l ++ [h]) r) w1
  | None => w1
  end.

(** [handlers.indexOf(handler)] followed by [handlers.splice(index, 1)] when
    the index is not -1. *)
Definition splice_out (h : InteractEventHandler) (l : list InteractEventHandler)
    : list InteractEventHandler :=
  match list_find (λ x, x = h) l with
  | Some (index, _) => delete index l
  | None => l
  end.

(** [off(type, handler?)] *)
Definition off (a : InteractableRef) (ty : InteractEventType)
    (handler : option InteractEventHandler) (w : world) : world :=
  match handler with
  | None => set_eventHandlers a (delete ty) w
  | Some h =>
      match handlers_of w a ty with
      | Some r =>
          let w1 := with_arrays (alter (splice_out h) r) w in
          if decide (length (array_at w1 r) = 0)
          then set_eventHandlers a (delete ty) w1
          else w1
      | None => w
      end
  end.

(** [removeAll()] *)
Definition removeAll (a : InteractableRef) (w : world) : world :=
  set_eventHandlers a (λ _, ∅) w.

(** ** [InteractManager.ts]: registration *)

(** [add(object)] returns the wrapper of the object, a new one when the object
    has none. *)
Definition add (o : Object3D) (w : world) : InteractableRef * world :=
  match interactables (manager w) !! o with
  | Some a => (a, w)
  | None =>
      let a := next_wrapper w in
      (a, {| arrays := arrays w; next_array := next_array w;
             wrappers := <[a := {| getObject := o; eventHandlers := ∅ |}]> (wrappers w);
             next_wrapper := S a;
             manager := {| interactables := <[o := a]> (interactables (manager w));
                           hoveredObjects := hoveredObjects (manager w);
                           activeObject := activeObject (manager w);
                           dragObject := dragObject (manager w);
                           lastMousePosition := lastMousePosition (manager w) |};
             trace := trace w |})
  end.

(** [x === object ? null : x] on a field holding [Object3D | null]. *)
Definition clear_if (o : Object3D) (x : option Object3D) : option Object3D :=
  if decide (x = Some o) then None else x.

(** [remove(object)] *)
Definition remove (o : Object3D) (w : world) : world :=
  with_manager (λ m,
    {| interactables := delete o (interactables m);
       hoveredObjects := filter (λ x, x ≠ o) (hoveredObjects m);
       activeObject := clear_if o (activeObject m);
       dragObject := clear_if o (dragObject m);
       lastMousePosition := lastMousePosition m |}) w.

Section Program.

(** The body of every handler function of the application. *)
Variable behaviour : InteractEventHandler → list action.

Definition run_action (act : action) (ev : InteractEvent) (w : world)
    : InteractEvent * world :=
  match act with
  | AStop => (stopPropagation ev, w)
  | ASetDelta dx dy => (set_delta dx dy ev, w)
  | AOn a ty h => (ev, on a ty h w)
  | AOff a ty h => (ev, off a ty h w)
  | ARemoveAll a => (ev, removeAll a w)
  | AAdd o => (ev, (add o w).2)
  | ARemove o => (ev, remove o w)
  end.

Fixpoint run_body (body : list action) (ev : InteractEvent) (w : world)
    : InteractEvent * world :=
  match body with
  | [] => (ev, w)
  | act :: body' => let '(ev', w') := run_action act ev w in run_body body' ev' w'
  end.

(** [handler(event)] *)
Definition call (h : InteractEventHandler) (ev : InteractEvent) (w : world)
    : InteractEvent * world :=
  run_body (behaviour h) ev (record (LCall h ev) w).

(** [handlers.forEach(handler => handler(event))] on the array at [r]: the
    indices [ks] are those below the length read when [forEach] started; an
    index that is no longer in the array is passed over, and the element is
    read from the array as it is when its turn comes. *)
Fixpoint forEach (r : ArrayRef) (ks : list nat) (ev : InteractEvent) (w : world)
    : InteractEvent * world :=
  match ks with
  | [] => (ev, w)
  | k :: ks' =>
      match array_at w r !! k with
      | Some h => let '(ev', w') := call h ev w in forEach r ks' ev' w'
      | None => forEach r ks' ev w
      end
  end.

(** [dispatchEvent(event)]; the result is [handlers.length > 0], read after the
    handlers have run. *)
Definition dispatchEvent (a : InteractableRef) (ev : InteractEvent) (w : world)
    : InteractEvent * bool * world :=
  match handlers_of w a (type ev) with
  | None => (ev, false, w)
  | Some r =>
      let '(ev', w') := forEach r (seq 0 (length (array_at w r))) ev w in
      (ev', bool_decide (0 < length (array_at w' r)), w')
  end.

(** ** [InteractManager.ts]: the entry points *)

(** One input sample: the host's event and what the ray caster answers for
    the pointer position of that sample, nearest hit first.  Every call of
    [performRaycast()] is a query of its own, over the objects that are
    registered when it is made: [raycast] is the result of the call in the
    listener itself, [hoverRaycast] the result of the call in
    [processRaycast], which [onPointerMove] makes after its own loop, so
    that the two lists differ when a handler has changed the registry in
    between.  [raycastObject o] is the result of
    [raycaster.intersectObject(o, false)]. *)
Record Sample : Type := {
  event : PointerEvent;
  raycast : list Intersection;
  hoverRaycast : list Intersection;
  raycastObject : Object3D → list Intersection
}.

(** [updatePointer(event)]: the displacement since the last sample.  (The
    normalised device coordinates it also stores only feed the ray caster.) *)
Definition updatePointer (e : PointerEvent) (w : world) : Z * Z * world :=
  let last := lastMousePosition (manager w) in
  ((clientX e - last.1)%Z, (clientY e - last.2)%Z,
   with_manager (λ m,
     {| interactables := interactables m; hoveredObjects := hoveredObjects m;
        activeObject := activeObject m; dragObject := dragObject m;
        lastMousePosition := (clientX e, clientY e) |}) w).

(** [getIntersection(object)]: [intersections[0]], or a record at distance 0. *)
Definition getIntersection (s : Sample) (o : Object3D) : Intersection :=
  default {| distance := 0%Z; object := o |} (head (raycastObject s o)).

Definition set_dragObject (x : option Object3D) (w : world) : world :=
  with_manager (λ m,
    {| interactables := interactables m; hoveredObjects := hoveredObjects m;
       activeObject := activeObject m; dragObject := x;
       lastMousePosition := lastMousePosition m |}) w.

Definition set_activeObject (x : option Object3D) (w : world) : world :=
  with_manager (λ m,
    {| interactables := interactables m; hoveredObjects := hoveredObjects m;
       activeObject := x; dragObject := dragObject m;
       lastMousePosition := lastMousePosition m |}) w.

Definition set_hoveredObjects (f : list Object3D → list Object3D) (w : world) : world :=
  with_manager (λ m,
    {| interactables := interactables m; hoveredObjects := f (hoveredObjects m);
       activeObject := activeObject m; dragObject := dragObject m;
       lastMousePosition := lastMousePosition m |}) w.

(** [interactable.dispatchEvent(ev)] called by the coordinator. *)
Definition fire (a : InteractableRef) (ev : InteractEvent) (w : world)
    : InteractEvent * bool * world :=
  dispatchEvent a ev (record (LDispatch a ev) w).

(** The loop of [onPointerMove] over the hits. *)
Fixpoint move_loop (s : Sample) (d : Z * Z) (intersections : list Intersection)
    (w : world) : world :=
  match intersections with
  | [] => w
  | i :: rest =>
      match interactables (manager w) !! object i with
      | None => move_loop s d rest w
      | Some a =>
          let moveEvent :=
            set_delta d.1 d.2 (newInteractEvent pointermove (object i) i (event s)) in
          let '(ev', _, w') := fire a moveEvent w in
          if stopped ev' then w' else move_loop s d rest w'
      end
  end.

(** The loop of [onClick]. *)
Fixpoint click_loop (s : Sample) (intersections : list Intersection) (w : world)
    : world :=
  match intersections with
  | [] => w
  | i :: rest =>
      match interactables (manager w) !! object i with
      | None => click_loop s rest w
      | Some a =>
          let interactEvent := newInteractEvent click (object i) i (event s) in
          let '(ev', _, w') := fire a interactEvent w in
          if stopped ev' then w' else click_loop s rest w'
      end
  end.

(** The loop of [onPointerDown]: the object is recorded as drag target after
    each dispatch. *)
Fixpoint down_loop (s : Sample) (intersections : list Intersection) (w : world)
    : world :=
  match intersections with
  | [] => w
  | i :: rest =>
      match interactables (manager w) !! object i with
      | None => down_loop s rest w
      | Some a =>
          let interactEvent := newInteractEvent pointerdown (object i) i (event s) in
          let '(ev', _, w') := fire a interactEvent w in
          let w'' := set_activeObject (Some (object i))
                       (set_dragObject (Some (object i)) w') in
          if stopped ev' then w'' else down_loop s rest w''
      end
  end.

(** The loop of [onPointerUp]. *)
Fixpoint up_loop (s : Sample) (intersections : list Intersection) (w : world)
    : world :=
  match intersections with
  | [] => w
  | i :: rest =>
      match interactables (manager w) !! object i with
      | None => up_loop s rest w
      | Some a =>
          let interactEvent := newInteractEvent pointerup (object i) i (event s) in
          let '(ev', _, w') := fire a interactEvent w in
          if stopped ev' then w' else up_loop s rest w'
      end
  end.

(** [processRaycast]: the loop over the hits ("objects newly hovered"). *)
Fixpoint enter_loop (s : Sample) (intersections : list Intersection) (w : world)
    : world :=
  match intersections with
  | [] => w
  | i :: rest =>
      match interactables (manager w) !! object i with
      | None => enter_loop s rest w
      | Some a =>
          if bool_decide (object i ∈ hoveredObjects (manager w))
          then enter_loop s rest w
          else
            let w1 := set_hoveredObjects (λ l, l ++ [object i]) w in
            let pointerEvent := newInteractEvent pointerenter (object i) i (event s) in
            let '(ev', handled, w') := fire a pointerEvent w1 in
            if handled && stopped ev' then w' else enter_loop s rest w'
      end
  end.

(** [processRaycast]: the loop over [hoveredObjects] ("objects no longer
    hovered").  [keys] are the entries of the map when the loop starts; the
    iterator of a [Map] passes over an entry that was deleted in the
    meantime, and no entry is added while this loop runs. *)
Fixpoint leave_loop (s : Sample) (intersectedObjects : gset Object3D)
    (keys : list Object3D) (w : world) : world :=
  match keys with
  | [] => w
  | o :: rest =>
      if bool_decide (o ∈ hoveredObjects (manager w)) then
        if bool_decide (o ∈ intersectedObjects) then leave_loop s intersectedObjects rest w
        else
          let w1 := set_hoveredObjects (filter (λ x, x ≠ o)) w in
          match interactables (manager w1) !! o with
          | Some a =>
              let pointerEvent :=
                newInteractEvent pointerleave o (getIntersection s o) (event s) in
              let '(_, _, w') := fire a pointerEvent w1 in
              leave_loop s intersectedObjects rest w'
          | None => leave_loop s intersectedObjects rest w1
          end
      else leave_loop s intersectedObjects rest w
  end.

Definition processRaycast (s : Sample) (w : world) : world :=
  let intersections := hoverRaycast s in
  let intersectedObjects : gset Object3D := list_to_set (object <$> intersections) in
  let w1 := enter_loop s intersections w in
  leave_loop s intersectedObjects (hoveredObjects (manager w1)) w1.

(** The drag part of [onPointerMove]. *)
Definition drag_step (s : Sample) (d : Z * Z) (w : world) : world :=
  match dragObject (manager w) with
  | Some o =>
      match interactables (manager w) !! o with
      | Some a =>
          let interactEvent :=
            set_delta d.1 d.2
              (newInteractEvent drag o (getIntersection s o) (event s)) in
          (fire a interactEvent w).2
      | None => w
      end
  | None => w
  end.

Definition onPointerMove (s : Sample) (w : world) : world :=
  let '(dx, dy, w1) := updatePointer (event s) w in
  let w2 := drag_step s (dx, dy) w1 in
  let w3 := move_loop s (dx, dy) (raycast s) w2 in
  processRaycast s w3.

Definition onClick (s : Sample) (w : world) : world :=
  let '(_, _, w1) := updatePointer (event s) w in
  click_loop s (raycast s) w1.

Definition onPointerDown (s : Sample) (w : world) : world :=
  let '(_, _, w1) := updatePointer (event s) w in
  down_loop s (raycast s) w1.

Definition onPointerUp (s : Sample) (w : world) : world :=
  let '(_, _, w1) := updatePointer (event s) w in
  let w2 := set_dragObject None w1 in
  let w3 := up_loop s (raycast s) w2 in
  set_activeObject None w3.

End Program.

(** The state after [new InteractManager(...)]. *)
Definition initial : world :=
  {| arrays := ∅; next_array := 0; wrappers := ∅; next_wrapper := 0;
     manager := {| interactables := ∅; hoveredObjects := []; activeObject := None;
                   dragObject := None; lastMousePosition := (0, 0)%Z |};
     trace := [] |}.

(** * The rest of the public interface *)

(** ** [events/EventTypes.ts]: [PointerHandlers] *)

Record PointerHandlers : Set := {
  enter : option InteractEventHandler;
  leave : option InteractEventHandler;
  move : option InteractEventHandler
}.

(** ** [Interactable.ts]: the shorthands of [on] *)

(** The methods of the wrapper that the coordinator's entry points share
    their names with are kept apart in a module. *)
Module Interactable.

Definition onClick (a : InteractableRef) (h : InteractEventHandler) (w : world) : world :=
  on a click h w.

Definition onDrag (a : InteractableRef) (h : InteractEventHandler) (w : world) : world :=
  on a drag h w.

Definition onPointerEnter (a : InteractableRef) (h : InteractEventHandler) (w : world)
    : world :=
  on a pointerenter h w.

Definition onPointerLeave (a : InteractableRef) (h : InteractEventHandler) (w : world)
    : world :=
  on a pointerleave h w.

Definition onPointerMove (a : InteractableRef) (h : InteractEventHandler) (w : world)
    : world :=
  on a pointermove h w.

(** [onPointer(handlers)]: the fields that are present, in the order enter,
    leave, move. *)
Definition onPointer (a : InteractableRef) (handlers : PointerHandlers) (w : world)
    : world :=
  let w1 := match enter handlers with
            | Some h => on a pointerenter h w
            | None => w
            end in
  let w2 := match leave handlers with
            | Some h => on a pointerleave h w1
            | None => w1
            end in
  match move handlers with
  | Some h => on a pointermove h w2
  | None => w2
  end.

End Interactable.

(** ** [index.ts] *)

(** [interact(object, manager)] *)
Definition interact (o : Object3D) (w : world) : InteractableRef * world := add o w.

(** [interactGroup(objects, manager)]: [objects.map(object => manager.add(object))] *)
Fixpoint interactGroup (objects : list Object3D) (w : world)
    : list InteractableRef * world :=
  match objects with
  | [] => ([], w)
  | o :: rest =>
      let '(a, w1) := add o w in
      let '(l, w2) := interactGroup rest w1 in
      (a :: l, w2)
  end.

(** ** [InteractManager.ts]: the listeners on the element *)

(** The four private methods that the constructor binds as listeners. *)
Inductive listener : Set := OnPointerMove | OnClick | OnPointerDown | OnPointerUp.

Definition run_listener (B : InteractEventHandler → list action) (k : listener)
    : Sample → world → world :=
  match k with
  | OnPointerMove => onPointerMove B
  | OnClick => onClick B
  | OnPointerDown => onPointerDown B
  | OnPointerUp => onPointerUp B
  end.

(** [addEventListeners()]: what is installed on the element, in order. *)
Definition addEventListeners : list (string * listener) :=
  [("pointermove"%string, OnPointerMove); ("click"%string, OnClick);
   ("pointerdown"%string, OnPointerDown); ("pointerup"%string, OnPointerUp)].

(** The host delivers an event of the given name to the element: the
    listeners installed for that name run, in the order of installation. *)
Definition deliver (B : InteractEventHandler → list action) (name : string)
    (s : Sample) (w : world) : world :=
  foldl (λ w' l, if decide (l.1 = name) then run_listener B l.2 s w' else w')
        w addEventListeners.

(** * Reading the trace *)

(** The events the coordinator handed out, in order. *)
Definition dispatched (tr : list entry) : list (InteractableRef * InteractEvent) :=
  omap (λ e, match e with LDispatch a ev => Some (a, ev) | LCall _ _ => None end) tr.

(** The handlers that were called, in order. *)
Definition called (tr : list entry) : list InteractEventHandler :=
  omap (λ e, match e with LCall h _ => Some h | LDispatch _ _ => None end) tr.

(** How many events of type [ty] the coordinator dispatched for object [o]. *)
Definition fired (ty : InteractEventType) (o : Object3D) (tr : list entry) : nat :=
  length (filter (λ d, type d.2 = ty ∧ target d.2 = o) (dispatched tr)).

(** What was recorded between the state [w] and the later state [w']. *)
Definition new_entries (w w' : world) : list entry :=
  drop (length (trace w)) (trace w').

(** ** Kinds of handler bodies *)

(** [off(type, handler)] with a handler: the call that splices an array. *)
Definition splices (act : action) : bool :=
  match act with AOff _ _ (Some _) => true | _ => false end.

(** Calls into the coordinator. *)
Definition manages (act : action) : bool :=
  match act with AAdd _ | ARemove _ => true | _ => false end.

Definition removes (act : action) : bool :=
  match act with ARemove _ => true | _ => false end.

Definition stops (act : action) : bool :=
  match act with AStop => true | _ => false end.

Definition no_splice (B : InteractEventHandler → list action) (h : InteractEventHandler) : bool :=
  forallb (λ act, negb (splices act)) (B h).

Definition no_manage (B : InteractEventHandler → list action) (h : InteractEventHandler) : bool :=
  forallb (λ act, negb (manages act)) (B h).

Definition no_remove (B : InteractEventHandler → list action) (h : InteractEventHandler) : bool :=
  forallb (λ act, negb (removes act)) (B h).

(** The handlers of a list called one after the other on the same event
    object: what iterating over a copy of the array would do. *)
Definition call_all (B : InteractEventHandler → list action)
    (hs : list InteractEventHandler) (p : InteractEvent * world) : InteractEvent * world :=
  foldl (λ q h, call B h q.1 q.2) p hs.

(** A property of the state that no handler call can break. *)
Definition stable (B : InteractEventHandler → list action) (P : world → Prop) : Prop :=
  (∀ h ev w, P w → P (record (LCall h ev) w))
  ∧ (∀ h act ev w, act ∈ B h → P w → P (run_action act ev w).2).

(** The type and the target of an event are never written, and the stopped
    flag is never reset. *)
Definition same_event (ev ev' : InteractEvent) : Prop :=
  type ev' = type ev ∧ target ev' = target ev
  ∧ (stopped ev = true → stopped ev' = true).

(** How often [h] occurs in a handler array. *)
Definition occurrences (h : InteractEventHandler) (l : list InteractEventHandler) : nat :=
  length (filter (λ x, x = h) l).

(** ** The coordinator's vocabulary *)

(** The loop shared by [onClick], [onPointerMove], [onPointerDown] and
    [onPointerUp], in the words of the specification: go through the hits in
    order, pass over a hit whose object has no wrapper, build the event,
    dispatch it, and halt when it comes back stopped.  [after] is what the
    entry point does after each dispatch (only [onPointerDown] does
    something). *)
Fixpoint ordered_loop (B : InteractEventHandler → list action)
    (mk : Intersection → InteractEvent) (after : Intersection → world → world)
    (intersections : list Intersection) (w : world) : world :=
  match intersections with
  | [] => w
  | i :: rest =>
      match interactables (manager w) !! object i with
      | None => ordered_loop B mk after rest w
      | Some a =>
          let '(ev', _, w') := fire B a (mk i) w in
          if stopped ev' then after i w' else ordered_loop B mk after rest (after i w')
      end
  end.

(** The four entry points that run this loop. *)
Inductive phase : Type := Click | Move (d : Z * Z) | Down | Up.

Definition phase_type (p : phase) : InteractEventType :=
  match p with
  | Click => click | Move _ => pointermove | Down => pointerdown | Up => pointerup
  end.

(** The event the entry point builds for a hit. *)
Definition phase_event (p : phase) (s : Sample) (i : Intersection) : InteractEvent :=
  match p with
  | Move d => set_delta d.1 d.2 (newInteractEvent pointermove (object i) i (event s))
  | _ => newInteractEvent (phase_type p) (object i) i (event s)
  end.

Definition phase_after (p : phase) (i : Intersection) (w : world) : world :=
  match p with
  | Down => set_activeObject (Some (object i)) (set_dragObject (Some (object i)) w)
  | _ => w
  end.

Definition phase_loop (B : InteractEventHandler → list action) (p : phase)
    (s : Sample) : list Intersection → world → world :=
  match p with
  | Click => click_loop B s
  | Move d => move_loop B s d
  | Down => down_loop B s
  | Up => up_loop B s
  end.

(** A property of the state kept by every handler, by the recording of a
    dispatched event whose type is in [K], and by changes of the hover set. *)
Definition loop_inv (B : InteractEventHandler → list action)
    (K : InteractEventType → Prop) (P : world → Prop) : Prop :=
  stable B P
  ∧ (∀ a ev w, K (type ev) → P w → P (record (LDispatch a ev) w))
  ∧ (∀ f w, P w → P (set_hoveredObjects f w)).

(** The drag target and the active target, when present, have a wrapper. *)
Definition targets_registered (w : world) : Prop :=
  (∀ o, dragObject (manager w) = Some o → is_Some (interactables (manager w) !! o))
  ∧ (∀ o, activeObject (manager w) = Some o → is_Some (interactables (manager w) !! o)).

(** Addresses in use are below the allocation counter. *)
Definition wrappers_wf (w : world) : Prop :=
  (∀ o a, interactables (manager w) !! o = Some a → a < next_wrapper w)
  ∧ (∀ a, is_Some (wrappers w !! a) → a < next_wrapper w).

(** The events of type [ty] among the dispatched ones. *)
Definition of_type (ty : InteractEventType)
    (ds : list (InteractableRef * InteractEvent)) : list (InteractableRef * InteractEvent) :=
  filter (λ d, type d.2 = ty) ds.

(** The types of the events handed out by the loops. *)
Definition only (K : InteractEventType → Prop) (tr : list entry) : Prop :=
  Forall (λ d, K (type d.2)) (dispatched tr).


(** The handler store is well formed: an array that a wrapper refers to has
    been allocated, is not empty, and belongs to that one entry. *)
Definition store_wf (w : world) : Prop :=
  ∀ a ty r, handlers_of w a ty = Some r →
    r < next_array w ∧ array_at w r ≠ []
    ∧ ∀ a' ty', handlers_of w a' ty' = Some r → a' = a ∧ ty' = ty.



(** The states that the application can bring about: it registers and
    unregisters objects and handlers, dispatches events by hand, and the host
    delivers input samples. *)
Inductive reachable (B : InteractEventHandler → list action) : world → Prop :=
  | reach_initial : reachable B initial
  | reach_add o w : reachable B w → reachable B (add o w).2
  | reach_remove o w : reachable B w → reachable B (remove o w)
  | reach_on a ty h w : reachable B w → reachable B (on a ty h w)
  | reach_off a ty h w : reachable B w → reachable B (off a ty h w)
  | reach_removeAll a w : reachable B w → reachable B (removeAll a w)
  | reach_dispatchEvent a ev w : reachable B w → reachable B (dispatchEvent B a ev w).2
  | reach_onClick s w : reachable B w → reachable B (onClick B s w)
  | reach_onPointerMove s w : reachable B w → reachable B (onPointerMove B s w)
  | reach_onPointerDown s w : reachable B w → reachable B (onPointerDown B s w)
  | reach_onPointerUp s w : reachable B w → reachable B (onPointerUp B s w).

(** Whether the hover-enter loop over these hits ends by its [break]: some
    dispatch of [pointerenter] returned [true] and left the event stopped. *)
Fixpoint enter_halts (B : InteractEventHandler → list action) (s : Sample)
    (intersections : list Intersection) (w : world) : bool :=
  match intersections with
  | [] => false
  | i :: rest =>
      match interactables (manager w) !! object i with
      | None => enter_halts B s rest w
      | Some a =>
          if bool_decide (object i ∈ hoveredObjects (manager w))
          then enter_halts B s rest w
          else
            let w1 := set_hoveredObjects (λ l, l ++ [object i]) w in
            let pointerEvent := newInteractEvent pointerenter (object i) i (event s) in
            let '(ev', handled, w') := fire B a pointerEvent w1 in
            if handled && stopped ev' then true else enter_halts B s rest w'
      end
  end.

(** The [pointerenter] event that the hover loop builds for a hit. *)
Definition enter_event (s : Sample) (i : Intersection) : InteractEvent :=
  newInteractEvent pointerenter (object i) i (event s).

(** ** The listeners' vocabulary *)

(** The handlers registered at a wrapper for a type, in the order in which a
    dispatch finds them; none when the type has no entry. *)
Definition listeners (w : world) (a : InteractableRef) (ty : InteractEventType)
    : list InteractEventHandler :=
  match handlers_of w a ty with
  | Some r => array_at w r
  | None => []
  end.

(** The event of a trace entry. *)
Definition entry_event (e : entry) : InteractEvent :=
  match e with LDispatch _ ev => ev | LCall _ ev => ev end.

(** What [updatePointer] returns for the sample [s] in the state [w]. *)
Definition pointer_delta (s : Sample) (w : world) : Z * Z :=
  ((clientX (event s) - (lastMousePosition (manager w)).1)%Z,
   (clientY (event s) - (lastMousePosition (manager w)).2)%Z).

(** The state in which a listener begins its loops: the pointer has been
    updated, and [onPointerUp] has cleared the drag target. *)
Definition listener_start (k : listener) (s : Sample) (w : world) : world :=
  match k with
  | OnPointerUp => set_dragObject None (updatePointer (event s) w).2
  | _ => (updatePointer (event s) w).2
  end.

(** The places where a listener hands an event to a wrapper: the state at
    that moment, the wrapper and the event as built.  [d] is the
    displacement that [updatePointer] returned for the sample. *)
Inductive site (s : Sample) (d : Z * Z)
    : listener → world → InteractableRef → InteractEvent → Prop :=
  | site_click i w a :
      i ∈ raycast s → interactables (manager w) !! object i = Some a →
      site s d OnClick w a (newInteractEvent click (object i) i (event s))
  | site_down i w a :
      i ∈ raycast s → interactables (manager w) !! object i = Some a →
      site s d OnPointerDown w a (newInteractEvent pointerdown (object i) i (event s))
  | site_up i w a :
      i ∈ raycast s → interactables (manager w) !! object i = Some a →
      site s d OnPointerUp w a (newInteractEvent pointerup (object i) i (event s))
  | site_drag o w a :
      dragObject (manager w) = Some o → interactables (manager w) !! o = Some a →
      site s d OnPointerMove w a
        (set_delta d.1 d.2 (newInteractEvent drag o (getIntersection s o) (event s)))
  | site_move i w a :
      i ∈ raycast s → interactables (manager w) !! object i = Some a →
      site s d OnPointerMove w a
        (set_delta d.1 d.2 (newInteractEvent pointermove (object i) i (event s)))
  | site_enter i w a :
      i ∈ hoverRaycast s → interactables (manager w) !! object i = Some a →
      object i ∈ hoveredObjects (manager w) →
      site s d OnPointerMove w a (newInteractEvent pointerenter (object i) i (event s))
  | site_leave o w a :
      o ∉ object <$> hoverRaycast s → interactables (manager w) !! o = Some a →
      o ∉ hoveredObjects (manager w) →
      site s d OnPointerMove w a
        (newInteractEvent pointerleave o (getIntersection s o) (event s)).

(** The types of the events that a listener builds. *)
Definition listener_types (k : listener) : list InteractEventType :=
  match k with
  | OnPointerMove => [drag; pointermove; pointerenter; pointerleave]
  | OnClick => [click]
  | OnPointerDown => [pointerdown]
  | OnPointerUp => [pointerup]
  end.


(** The wrapper that was handed the event wraps the target of the event. *)
Definition wraps_target (w : world) (x : InteractableRef * InteractEvent) : Prop :=
  ∃ I, wrappers w !! x.1 = Some I ∧ getObject I = target x.2.

(** Every registered object has its own wrapper, and [getObject()] of the
    wrapper is the object. *)
Definition registry_wf (w : world) : Prop :=
  ∀ o a, interactables (manager w) !! o = Some a →
    ∃ I, wrappers w !! a = Some I ∧ getObject I = o.

(** The hover set holds registered objects, each once. *)
Definition hover_wf (w : world) : Prop :=
  NoDup (hoveredObjects (manager w))
  ∧ ∀ o, o ∈ hoveredObjects (manager w) → is_Some (interactables (manager w) !! o).

(** * Example programs *)

Definition at_origin : PointerEvent := {| clientX := 0; clientY := 0 |}.

Definition hit (o : Object3D) : Intersection := {| distance := 1; object := o |}.

(** A sample for which both queries give the same hits. *)
Definition sample (e : PointerEvent) (hs : list Intersection) : Sample :=
  {| event := e; raycast := hs; hoverRaycast := hs; raycastObject := λ _, [] |}.

(** Handlers that do nothing. *)
Definition plain : InteractEventHandler → list action := λ _, [].

(** Object 7 registered; its wrapper is at address 0. *)
Definition one_object : world := (add 7 initial).2.

(** Handler 0 unregisters itself when called. *)
Definition once : InteractEventHandler → list action :=
  λ h, match h with 0 => [AOff 0 click (Some 0)] | _ => [] end.

(** Handler 0 removes every click handler of the wrapper when called. *)
Definition clear_clicks : InteractEventHandler → list action :=
  λ h, match h with 0 => [AOff 0 click None] | _ => [] end.

(** Handler 0 changes the delta, handler 1 stops propagation. *)
Definition delta_then_stop : InteractEventHandler → list action :=
  λ h, match h with 0 => [ASetDelta 3 4] | 1 => [AStop] | _ => [] end.

(** Objects 7 (nearer, wrapper 0) and 8 (farther, wrapper 1), each with one
    click handler: handler 1 on object 7, handler 2 on object 8. *)
Definition near_far : world :=
  on 1 click 2 (on 0 click 1 (add 8 (add 7 initial).2).2).

(** Object 7 (wrapper 0) with a drag handler, handler 3. *)
Definition draggable : world := on 0 drag 3 one_object.

(** Handler 4 removes object 7 from the coordinator when called. *)
Definition remover : InteractEventHandler → list action :=
  λ h, match h with 4 => [ARemove 7] | _ => [] end.

(** Object 7 (wrapper 0) whose pointerdown handler is handler 4. *)
Definition self_removing : world := on 0 pointerdown 4 one_object.

(** Objects 7 (wrapper 0) and 8 (wrapper 1), each with one pointerenter
    handler: handler 5 on object 7, handler 6 on object 8. *)
Definition hover_pair : world :=
  on 1 pointerenter 6 (on 0 pointerenter 5 (add 8 (add 7 initial).2).2).


(** Handler 5 stops propagation. *)
Definition stop_enter : InteractEventHandler → list action :=
  λ h, match h with 5 => [AStop] | _ => [] end.

(** Handler 5 stops propagation and unregisters itself from wrapper 0. *)
Definition stop_once : InteractEventHandler → list action :=
  λ h, match h with 5 => [AStop; AOff 0 pointerenter (Some 5)] | _ => [] end.

(** A sample whose two queries give different hits. *)
Definition two_queries (e : PointerEvent) (hs hs' : list Intersection) : Sample :=
  {| event := e; raycast := hs; hoverRaycast := hs'; raycastObject := λ _, [] |}.

(** Objects 7, 8 and 9 (wrappers 0, 1 and 2), each with one pointerenter
    handler: handler 5 on object 7, handler 6 on object 8, handler 7 on
    object 9. *)
Definition hover_triple : world :=
  on 2 pointerenter 7
    (on 1 pointerenter 6
       (on 0 pointerenter 5 (add 9 (add 8 (add 7 initial).2).2).2)).

(** Handler 6 stops propagation. *)
Definition stop_second : InteractEventHandler → list action :=
  λ h, match h with 6 => [AStop] | _ => [] end.

(** Handler 1 unregisters itself from the click handlers of wrapper 0. *)
Definition leaves_once : InteractEventHandler → list action :=
  λ h, match h with 1 => [AOff 0 click (Some 1)] | _ => [] end.

(** Handler 8 registers object 9 with the coordinator. *)
Definition adder : InteractEventHandler → list action :=
  λ h, match h with 8 => [AAdd 9] | _ => [] end.

(** Object 7 (wrapper 0) whose pointermove handler is handler 8. *)
Definition growing : world := on 0 pointermove 8 one_object.

(** Handler 5 removes object 9 from the coordinator, handler 6 stops
    propagation. *)
Definition remove_then_stop : InteractEventHandler → list action :=
  λ h, match h with 5 => [ARemove 9] | 6 => [AStop] | _ => [] end.



(** * Facts about the registry *)

Lemma new_entries_app w w' tr : trace w' = trace w ++ tr → new_entries w w' = tr.
Proof. intros E. unfold new_entries. rewrite E. apply drop_app_length. Qed.

Lemma dispatched_app t1 t2 : dispatched (t1 ++ t2) = dispatched t1 ++ dispatched t2.
Proof. apply omap_app. Qed.

Lemma called_app t1 t2 : called (t1 ++ t2) = called t1 ++ called t2.
Proof. apply omap_app. Qed.

Lemma fired_app ty o t1 t2 : fired ty o (t1 ++ t2) = fired ty o t1 + fired ty o t2.
Proof. unfold fired. by rewrite dispatched_app, filter_app, length_app. Qed.

Lemma fired_no_dispatch ty o tr : dispatched tr = [] → fired ty o tr = 0.
Proof. unfold fired. by intros ->. Qed.

Section Registry.

Context (B : InteractEventHandler → list action).

(** Handler bodies write nothing into the trace. *)
Lemma run_action_trace act ev w : trace (run_action act ev w).2 = trace w.
Proof.
  destruct act as [| | a ty h | a ty [h|] | a | o | o]; simpl; try done.
  - unfold on. destruct (handlers_of w a ty); simpl.
    + by destruct (handlers_of _ _ _).
    + by destruct (handlers_of _ _ _).
  - unfold off. destruct (handlers_of w a ty); [|done].
    by case_decide.
  - unfold add. by destruct (_ !! o).
Qed.

Lemma run_body_trace body ev w : trace (run_body body ev w).2 = trace w.
Proof.
  revert ev w. induction body as [|act body IH]; intros ev w; [done|].
  simpl. destruct (run_action act ev w) as [ev' w'] eqn:E.
  rewrite IH. pose proof (run_action_trace act ev w) as H.
  by rewrite E in H.
Qed.

Lemma call_trace h ev w : trace (call B h ev w).2 = trace w ++ [LCall h ev].
Proof. unfold call. by rewrite run_body_trace. Qed.

Lemma call_all_trace hs ev w :
  ∃ tr, trace (call_all B hs (ev, w)).2 = trace w ++ tr
        ∧ called tr = hs ∧ dispatched tr = [].
Proof.
  revert ev w. induction hs as [|h hs IH]; intros ev w.
  - exists []. by rewrite app_nil_r.
  - simpl. destruct (call B h ev w) as [ev' w'] eqn:E.
    destruct (IH ev' w') as (tr & Htr & Hc & Hd).
    exists (LCall h ev :: tr). split_and!.
    + rewrite Htr. pose proof (call_trace h ev w) as H. rewrite E in H.
      simpl in H. rewrite H. by rewrite <- app_assoc.
    + simpl. by rewrite <- Hc.
    + done.
Qed.

(** *** Arrays under handler bodies that do not splice *)

Lemma array_at_alter_ne f r r' w :
  r ≠ r' → array_at (with_arrays (alter f r') w) r = array_at w r.
Proof. intros Hne. unfold array_at. simpl. by rewrite lookup_alter_ne. Qed.

Lemma array_at_alter_eq f r w :
  f [] = [] ∨ is_Some (arrays w !! r) →
  array_at (with_arrays (alter f r) w) r = f (array_at w r).
Proof.
  intros Hf. unfold array_at. simpl. rewrite lookup_alter_eq.
  destruct (arrays w !! r) as [l|] eqn:E; simpl; [done|].
  destruct Hf as [Hf|[? ?]]; by rewrite ?Hf.
Qed.

Lemma array_at_push r r' h w :
  array_at w r `prefix_of` array_at (with_arrays (alter (λ l, l ++ [h]) r') w) r.
Proof.
  destruct (decide (r = r')) as [<-|Hne].
  - unfold array_at. simpl. rewrite lookup_alter_eq.
    destruct (arrays w !! r); simpl; [by apply prefix_app_r|done].
  - by rewrite array_at_alter_ne.
Qed.

Lemma on_arrays a ty h w r :
  r < next_array w →
  r < next_array (on a ty h w) ∧ array_at w r `prefix_of` array_at (on a ty h w) r.
Proof.
  intros Hr. unfold on. destruct (handlers_of w a ty) as [r0|] eqn:E.
  - rewrite E. split; [done|]. apply array_at_push.
  - simpl.
    set (w1 := set_eventHandlers a _ _).
    assert (array_at w1 r = array_at w r) as Hw1.
    { unfold w1, array_at. simpl. rewrite lookup_insert_ne; [done|lia]. }
    assert (next_array w1 = S (next_array w)) as Hn by done.
    destruct (handlers_of w1 a ty) as [r1|].
    + split; [simpl; lia|]. rewrite <- Hw1. apply array_at_push.
    + split; [lia|]. by rewrite Hw1.
Qed.

Lemma run_action_arrays act ev w r :
  splices act = false → r < next_array w →
  r < next_array (run_action act ev w).2
  ∧ array_at w r `prefix_of` array_at (run_action act ev w).2 r.
Proof.
  intros Hs Hr.
  destruct act as [| | a ty h | a ty [h|] | a | o | o]; simpl; try done.
  - by apply on_arrays.
  - unfold add. by destruct (_ !! o).
Qed.

Lemma run_body_arrays body ev w r :
  forallb (λ act, negb (splices act)) body = true → r < next_array w →
  r < next_array (run_body body ev w).2
  ∧ array_at w r `prefix_of` array_at (run_body body ev w).2 r.
Proof.
  revert ev w. induction body as [|act body IH]; intros ev w Hb Hr; [done|].
  simpl in Hb. apply andb_true_iff in Hb as [Hact Hb].
  apply negb_true_iff in Hact.
  simpl. destruct (run_action act ev w) as [ev' w'] eqn:E.
  destruct (run_action_arrays act ev w r Hact Hr) as [Hr' Hp]. rewrite E in Hr', Hp.
  destruct (IH ev' w' Hb Hr') as [Hr'' Hp'].
  split; [done|]. by etrans.
Qed.

Lemma call_arrays h ev w r :
  no_splice B h = true → r < next_array w →
  r < next_array (call B h ev w).2
  ∧ array_at w r `prefix_of` array_at (call B h ev w).2 r.
Proof. intros Hh Hr. unfold call. by apply (run_body_arrays _ _ (record _ w)). Qed.

Lemma call_all_arrays hs ev w r :
  forallb (no_splice B) hs = true → r < next_array w →
  r < next_array (call_all B hs (ev, w)).2
  ∧ array_at w r `prefix_of` array_at (call_all B hs (ev, w)).2 r.
Proof.
  revert ev w. induction hs as [|h hs IH]; intros ev w Hb Hr; [done|].
  simpl in Hb. apply andb_true_iff in Hb as [Hh Hb].
  simpl. destruct (call B h ev w) as [ev' w'] eqn:E.
  destruct (call_arrays h ev w r Hh Hr) as [Hr' Hp]. rewrite E in Hr', Hp.
  destruct (IH ev' w' Hb Hr') as [Hr'' Hp'].
  split; [done|]. by etrans.
Qed.

(** When the handlers of the array do not splice, walking the live array is
    walking the elements it had when the walk began. *)
Lemma forEach_snapshot r l0 :
  forallb (no_splice B) l0 = true →
  ∀ m k ev w,
    r < next_array w → l0 `prefix_of` array_at w r → k + m = length l0 →
    forEach B r (seq k m) ev w = call_all B (drop k l0) (ev, w).
Proof.
  intros Hl0. induction m as [|m IH]; intros k ev w Hr Hp Hk.
  - simpl. rewrite drop_ge; [done|lia].
  - simpl.
    destruct (lookup_lt_is_Some_2 l0 k) as [h Hh]; [lia|].
    rewrite (prefix_lookup_Some _ _ _ _ Hh Hp).
    rewrite (drop_S _ _ _ Hh). simpl.
    assert (no_splice B h = true) as Hq.
    { rewrite forallb_forall in Hl0. apply Hl0.
      apply list_elem_of_In. by eapply list_elem_of_lookup_2. }
    destruct (call_arrays h ev w r Hq Hr) as [Hr' Hp'].
    destruct (call B h ev w) as [ev' w'] eqn:E. simpl in *.
    apply IH; [done| by etrans |lia].
Qed.

Lemma dispatchEvent_snapshot a ev w r :
  handlers_of w a (type ev) = Some r → r < next_array w →
  forallb (no_splice B) (array_at w r) = true →
  dispatchEvent B a ev w =
    ((call_all B (array_at w r) (ev, w)).1,
     bool_decide (array_at w r ≠ []),
     (call_all B (array_at w r) (ev, w)).2).
Proof.
  intros Hr Hlt Hq. unfold dispatchEvent. rewrite Hr.
  rewrite (forEach_snapshot r (array_at w r) Hq); [|done|done|lia].
  rewrite drop_0.
  destruct (call_all_arrays (array_at w r) ev w r Hq Hlt) as [_ Hp].
  destruct (call_all B (array_at w r) (ev, w)) as [ev' w'] eqn:E. simpl in *.
  do 2 f_equal.
  destruct (array_at w r) as [|h l] eqn:El.
  - simpl in E. injection E as <- <-. by rewrite El.
  - by destruct Hp as [k ->].
Qed.

(** *** Properties kept by every handler *)

Lemma run_body_inv (P : world → Prop) body ev w :
  (∀ act ev w, act ∈ body → P w → P (run_action act ev w).2) →
  P w → P (run_body body ev w).2.
Proof.
  revert ev w. induction body as [|act body IH]; intros ev w Hact HP; [done|].
  simpl. destruct (run_action act ev w) as [ev' w'] eqn:E.
  apply IH.
  - intros act' ev0 w0 Hin. apply Hact. by right.
  - specialize (Hact act ev w). rewrite E in Hact. apply Hact; [by left|done].
Qed.

Lemma call_inv P h ev w : stable B P → P w → P (call B h ev w).2.
Proof.
  intros [Hrec Hact] HP. unfold call. apply run_body_inv.
  - intros act ev0 w0 Hin. by apply (Hact h).
  - by apply Hrec.
Qed.

Lemma forEach_inv P r ks ev w : stable B P → P w → P (forEach B r ks ev w).2.
Proof.
  intros HS. revert ev w. induction ks as [|k ks IH]; intros ev w HP; [done|].
  simpl. destruct (array_at w r !! k) as [h|]; [|by apply IH].
  pose proof (call_inv P h ev w HS HP) as HP'.
  destruct (call B h ev w) as [ev' w']. by apply IH.
Qed.

Lemma dispatchEvent_inv P a ev w : stable B P → P w → P (dispatchEvent B a ev w).2.
Proof.
  intros HS HP. unfold dispatchEvent. destruct (handlers_of w a (type ev)) as [r|]; [|done].
  pose proof (forEach_inv P r (seq 0 (length (array_at w r))) ev w HS HP) as HP'.
  by destruct (forEach B r _ ev w) as [ev' w'].
Qed.

(** A dispatch adds only handler calls to the trace. *)
Lemma dispatchEvent_trace a ev w :
  ∃ tr, trace (dispatchEvent B a ev w).2 = trace w ++ tr ∧ dispatched tr = [].
Proof.
  apply (dispatchEvent_inv (λ w', ∃ tr, trace w' = trace w ++ tr ∧ dispatched tr = [])).
  - split.
    + intros h ev0 w0 (tr & Htr & Hd). exists (tr ++ [LCall h ev0]). split.
      * simpl. rewrite Htr. by rewrite app_assoc.
      * rewrite dispatched_app, Hd. done.
    + intros h act ev0 w0 _ (tr & Htr & Hd). exists tr.
      by rewrite run_action_trace.
  - exists []. by rewrite app_nil_r.
Qed.

Lemma fire_trace a ev w :
  ∃ tr, trace (fire B a ev w).2 = trace w ++ LDispatch a ev :: tr ∧ dispatched tr = [].
Proof.
  unfold fire. destruct (dispatchEvent_trace a ev (record (LDispatch a ev) w)) as (tr & Htr & Hd).
  exists tr. split; [|done]. rewrite Htr. simpl. by rewrite <- app_assoc.
Qed.

(** *** What handlers can do to the event *)

Lemma run_body_event body ev w : same_event ev (run_body body ev w).1.
Proof.
  revert ev w. induction body as [|act body IH]; intros ev w; [done|].
  simpl. destruct (run_action act ev w) as [ev' w'] eqn:E.
  assert (same_event ev ev') as (H1 & H2 & H3).
  { destruct act; simpl in E; injection E as <- <-; done. }
  destruct (IH ev' w') as (H1' & H2' & H3').
  split_and!; [congruence|congruence|auto].
Qed.

Lemma run_body_stops body ev w :
  existsb stops body = true → stopped (run_body body ev w).1 = true.
Proof.
  revert ev w. induction body as [|act body IH]; intros ev w Hs; [done|].
  simpl in *. destruct (run_action act ev w) as [ev' w'] eqn:E.
  apply orb_true_iff in Hs as [Hs|Hs]; [|by apply IH].
  destruct act; try done. simpl in E. injection E as <- <-.
  by apply (run_body_event body (stopPropagation ev) w).
Qed.

Lemma forEach_event r ks ev w : same_event ev (forEach B r ks ev w).1.
Proof.
  revert ev w. induction ks as [|k ks IH]; intros ev w; [done|].
  simpl. destruct (array_at w r !! k) as [h|]; [|by apply IH].
  pose proof (run_body_event (B h) ev (record (LCall h ev) w)) as (H1 & H2 & H3).
  fold (call B h ev w) in H1, H2, H3.
  destruct (call B h ev w) as [ev' w']. simpl in *.
  destruct (IH ev' w') as (H1' & H2' & H3').
  split_and!; [congruence|congruence|auto].
Qed.

Lemma dispatchEvent_event a ev w : same_event ev (dispatchEvent B a ev w).1.1.
Proof.
  unfold dispatchEvent. destruct (handlers_of w a (type ev)) as [r|]; [|done].
  pose proof (forEach_event r (seq 0 (length (array_at w r))) ev w) as H.
  by destruct (forEach B r _ ev w) as [ev' w'].
Qed.

(** The first handler of the array is always called, with the event as it was
    dispatched; if its body stops propagation the event comes back stopped. *)
Lemma dispatchEvent_first a ev w r h l :
  handlers_of w a (type ev) = Some r → array_at w r = h :: l →
  (∃ tr, trace (dispatchEvent B a ev w).2 = trace w ++ LCall h ev :: tr
         ∧ dispatched tr = [])
  ∧ (existsb stops (B h) = true → stopped (dispatchEvent B a ev w).1.1 = true).
Proof.
  intros Hr Hl. unfold dispatchEvent. rewrite Hr, Hl. simpl. rewrite Hl. simpl.
  pose proof (call_trace h ev w) as Hc.
  pose proof (run_body_stops (B h) ev (record (LCall h ev) w)) as Hs.
  fold (call B h ev w) in Hs.
  destruct (call B h ev w) as [ev1 w1]. simpl in *.
  pose proof (forEach_event r (seq 1 (length l)) ev1 w1) as (_ & _ & Hmono).
  pose proof (forEach_inv (λ w', ∃ tr, trace w' = trace w1 ++ tr ∧ dispatched tr = [])
                r (seq 1 (length l)) ev1 w1) as Ht.
  destruct (forEach B r (seq 1 (length l)) ev1 w1) as [ev2 w2]. simpl in *.
  split; [|auto].
  destruct Ht as (tr & Htr & Hd).
  - split.
    + intros h0 ev0 w0 (tr & Htr & Hd). exists (tr ++ [LCall h0 ev0]). split.
      * simpl. rewrite Htr. by rewrite app_assoc.
      * rewrite dispatched_app, Hd. done.
    + intros h0 act ev0 w0 _ (tr & Htr & Hd). exists tr.
      by rewrite run_action_trace.
  - exists []. by rewrite app_nil_r.
  - exists tr. split; [|done]. rewrite Htr, Hc. by rewrite <- app_assoc.
Qed.

End Registry.

(** *** [splice_out]: the first occurrence, and only it *)

Lemma splice_out_nil h : splice_out h [] = [].
Proof. done. Qed.

Lemma splice_out_cons h x l :
  splice_out h (x :: l) = if decide (x = h) then l else x :: splice_out h l.
Proof.
  unfold splice_out. simpl. case_decide; [done|].
  by destruct (list_find _ l) as [[i y]|].
Qed.

Lemma splice_out_first h l1 l2 :
  h ∉ l1 → splice_out h (l1 ++ h :: l2) = l1 ++ l2.
Proof.
  induction l1 as [|x l1 IH]; intros Hn.
  - simpl. rewrite splice_out_cons. by rewrite decide_True.
  - simpl. rewrite splice_out_cons. apply not_elem_of_cons in Hn as [Hx Hn].
    rewrite decide_False by done. by rewrite IH.
Qed.

Lemma splice_out_absent h l : h ∉ l → splice_out h l = l.
Proof.
  induction l as [|x l IH]; intros Hn; [done|].
  rewrite splice_out_cons. apply not_elem_of_cons in Hn as [Hx Hn].
  rewrite decide_False by done. by rewrite IH.
Qed.

Lemma occurrences_cons h x l :
  occurrences h (x :: l) = (if decide (x = h) then 1 else 0) + occurrences h l.
Proof. unfold occurrences. rewrite filter_cons. by case_decide. Qed.

Lemma occurrences_splice_out_same h l :
  occurrences h (splice_out h l) = pred (occurrences h l).
Proof.
  induction l as [|x l IH]; [done|].
  rewrite splice_out_cons, occurrences_cons. case_decide; [done|].
  by rewrite occurrences_cons, decide_False.
Qed.

Lemma occurrences_splice_out_other h h' l :
  h' ≠ h → occurrences h' (splice_out h l) = occurrences h' l.
Proof.
  intros Hne. induction l as [|x l IH]; [done|].
  rewrite splice_out_cons, occurrences_cons. case_decide as Hx.
  - subst x. by rewrite decide_False.
  - by rewrite occurrences_cons, IH.
Qed.

Lemma occurrences_zero h l : occurrences h l = 0 ↔ h ∉ l.
Proof.
  induction l as [|x l IH]; [by split; [intros _; apply not_elem_of_nil|]|].
  rewrite occurrences_cons, not_elem_of_cons. case_decide as Hx.
  - split; [lia|]. by intros [? _].
  - rewrite IH. split; [by intros ?; split|by intros [_ ?]].
Qed.

(** *** [on] and [off] on the store *)

Lemma handlers_of_set_eventHandlers f a a' ty w :
  handlers_of (set_eventHandlers a f w) a' ty =
    if decide (a = a')
    then I ← wrappers w !! a; f (eventHandlers I) !! ty
    else handlers_of w a' ty.
Proof.
  unfold handlers_of, set_eventHandlers. simpl. rewrite lookup_alter.
  case_decide as Ha; [subst a'|done]. by destruct (wrappers w !! a).
Qed.

Lemma handlers_of_with_arrays f a ty w :
  handlers_of (with_arrays f w) a ty = handlers_of w a ty.
Proof. done. Qed.

(** [off(type)]: the entry of the type is gone, the others stay. *)
Lemma off_all_handlers a ty ty' w :
  handlers_of (off a ty None w) a ty' =
    if decide (ty = ty') then None else handlers_of w a ty'.
Proof.
  unfold off. rewrite handlers_of_set_eventHandlers, decide_True by done.
  unfold handlers_of. destruct (wrappers w !! a) as [I|]; simpl; [|by case_decide].
  rewrite lookup_delete. by case_decide.
Qed.

(** [off(type, h)]: the array loses the first [h]; the entry goes with the last
    element. *)
Lemma off_one_array a ty h w r :
  handlers_of w a ty = Some r →
  array_at (off a ty (Some h) w) r = splice_out h (array_at w r).
Proof.
  intros Hr. unfold off. rewrite Hr.
  assert (array_at (with_arrays (alter (splice_out h) r) w) r
          = splice_out h (array_at w r)) as E.
  { apply array_at_alter_eq. by left. }
  by case_decide.
Qed.

Lemma off_one_handlers a ty ty' h w r :
  handlers_of w a ty = Some r →
  handlers_of (off a ty (Some h) w) a ty' =
    if decide (ty = ty' ∧ splice_out h (array_at w r) = [])
    then None else handlers_of w a ty'.
Proof.
  intros Hr. unfold off. rewrite Hr.
  assert (array_at (with_arrays (alter (splice_out h) r) w) r
          = splice_out h (array_at w r)) as E.
  { apply array_at_alter_eq. by left. }
  rewrite E. destruct (decide (length (splice_out h (array_at w r)) = 0)) as [Hl|Hl].
  - apply length_zero_iff_nil in Hl.
    rewrite handlers_of_set_eventHandlers, decide_True by done.
    unfold handlers_of in *. simpl. destruct (wrappers w !! a) as [I|]; [|done]. simpl in *.
    rewrite lookup_delete.
    destruct (decide (ty = ty')); [by rewrite decide_True|].
    rewrite decide_False; [done|]. by intros [? _].
  - rewrite handlers_of_with_arrays. rewrite decide_False; [done|].
    intros [_ Hnil]. by rewrite Hnil in Hl.
Qed.

Lemma off_next_array a ty h w : next_array (off a ty h w) = next_array w.
Proof.
  unfold off. destruct h as [h|]; [|done].
  destruct (handlers_of w a ty); [|done]. by case_decide.
Qed.

Lemma off_one_other_arrays a ty h w r r' :
  handlers_of w a ty = Some r → r' ≠ r →
  array_at (off a ty (Some h) w) r' = array_at w r'.
Proof.
  intros Hr Hne. unfold off. rewrite Hr.
  assert (array_at (with_arrays (alter (splice_out h) r) w) r' = array_at w r') as E.
  { by apply array_at_alter_ne. }
  by case_decide.
Qed.

Lemma splice_out_elem_of h x l : x ∈ splice_out h l → x ∈ l.
Proof.
  induction l as [|y l IH]; [done|].
  rewrite splice_out_cons. case_decide.
  - intros ?. by right.
  - intros [->|?]%elem_of_cons; [by left|right; auto].
Qed.

Lemma forallb_splice_out (f : nat → bool) h l :
  forallb f l = true → forallb f (splice_out h l) = true.
Proof.
  rewrite !forallb_forall. intros Hl x Hx%list_elem_of_In%splice_out_elem_of.
  apply Hl. by apply list_elem_of_In.
Qed.

(** *** The store stays well formed *)

Lemma store_wf_initial : store_wf initial.
Proof. intros a ty r H. unfold handlers_of in H. simpl in H. by rewrite lookup_empty in H. Qed.

(** A state with the same arrays at the addresses in use, in which every
    entry of a wrapper was already there, is well formed. *)
Lemma store_wf_shrink w w' :
  store_wf w →
  next_array w ≤ next_array w' →
  (∀ r, r < next_array w → array_at w' r = array_at w r) →
  (∀ a ty r, handlers_of w' a ty = Some r → handlers_of w a ty = Some r) →
  store_wf w'.
Proof.
  intros HW Hn Harr Hsub a ty r Hr.
  destruct (HW a ty r (Hsub _ _ _ Hr)) as (Hlt & Hne & Hun).
  split_and!; [lia|by rewrite Harr|]. intros a' ty' Hr'. apply Hun. by apply Hsub.
Qed.

Lemma store_wf_add o w : store_wf w → store_wf (add o w).2.
Proof.
  intros HW. unfold add. destruct (interactables (manager w) !! o); [done|].
  apply (store_wf_shrink w); [done|done|done|].
  intros a ty r. unfold handlers_of. simpl. rewrite lookup_insert.
  case_decide; [done|done].
Qed.

Lemma store_wf_remove o w : store_wf w → store_wf (remove o w).
Proof. done. Qed.

Lemma store_wf_removeAll a w : store_wf w → store_wf (removeAll a w).
Proof.
  intros HW. apply (store_wf_shrink w); [done|done|done|].
  intros a' ty r. unfold removeAll. rewrite handlers_of_set_eventHandlers.
  case_decide; [|done]. destruct (wrappers w !! a); simpl; [|done].
  by rewrite lookup_empty.
Qed.

Lemma off_one_handlers_gen a ty a' ty' h w r :
  handlers_of w a ty = Some r →
  handlers_of (off a ty (Some h) w) a' ty' =
    if decide (a' = a ∧ ty' = ty ∧ splice_out h (array_at w r) = [])
    then None else handlers_of w a' ty'.
Proof.
  intros Hr. destruct (decide (a' = a)) as [->|Hne].
  - rewrite (off_one_handlers a ty ty' h w r Hr).
    destruct (decide (ty = ty' ∧ splice_out h (array_at w r) = [])) as [[-> ?]|Hn].
    + by rewrite decide_True.
    + rewrite decide_False; [done|]. intros (_ & -> & ?). by apply Hn.
  - rewrite decide_False by (by intros [? _]).
    unfold off. rewrite Hr.
    assert (handlers_of (with_arrays (alter (splice_out h) r) w) a' ty'
            = handlers_of w a' ty') as E by done.
    case_decide; [|done].
    rewrite handlers_of_set_eventHandlers. by rewrite decide_False.
Qed.

Lemma store_wf_off a ty h w : store_wf w → store_wf (off a ty h w).
Proof.
  intros HW. destruct h as [h|].
  - destruct (handlers_of w a ty) as [r|] eqn:Hr; [|by unfold off; rewrite Hr].
    destruct (HW a ty r Hr) as (Hlt & Hne & Hun).
    assert (∀ a' ty' r', handlers_of (off a ty (Some h) w) a' ty' = Some r' →
              handlers_of w a' ty' = Some r'
              ∧ ¬ (a' = a ∧ ty' = ty ∧ splice_out h (array_at w r) = [])) as Hsub.
    { intros a' ty' r' Hr'. rewrite (off_one_handlers_gen a ty a' ty' h w r Hr) in Hr'.
      by case_decide. }
    intros a' ty' r' Hr'. destruct (Hsub _ _ _ Hr') as [Hold Hnot].
    destruct (HW a' ty' r' Hold) as (Hlt' & Hne' & Hun').
    split_and!.
    + by rewrite off_next_array.
    + destruct (decide (r' = r)) as [->|Hrr].
      * rewrite (off_one_array a ty h w r Hr).
        destruct (Hun a' ty' Hold) as [-> ->]. intros Hnil. by apply Hnot.
      * by rewrite (off_one_other_arrays a ty h w r r' Hr Hrr).
    + intros a'' ty'' Hr''. apply Hun'. by apply Hsub.
  - apply (store_wf_shrink w); [done|done|done|].
    intros a' ty' r. unfold off. rewrite handlers_of_set_eventHandlers.
    case_decide as Ha; [subst a'|done]. unfold handlers_of.
    destruct (wrappers w !! a); simpl; [|done].
    rewrite lookup_delete. by case_decide.
Qed.

Lemma on_handlers a ty h w a' ty' :
  handlers_of (on a ty h w) a' ty' =
    match handlers_of w a ty with
    | Some _ => handlers_of w a' ty'
    | None =>
        if decide (a' = a ∧ ty' = ty ∧ is_Some (wrappers w !! a))
        then Some (next_array w) else handlers_of w a' ty'
    end.
Proof.
  unfold on. destruct (handlers_of w a ty) as [r|] eqn:Hr.
  - by rewrite Hr.
  - simpl. set (w1 := set_eventHandlers a _ _).
    assert (handlers_of w1 a' ty' =
              if decide (a' = a ∧ ty' = ty ∧ is_Some (wrappers w !! a))
              then Some (next_array w) else handlers_of w a' ty') as E.
    { unfold w1. rewrite handlers_of_set_eventHandlers.
      destruct (decide (a = a')) as [<-|Hne].
      - unfold handlers_of in *. simpl. destruct (wrappers w !! a) as [I|] eqn:EI; simpl in *.
        + rewrite lookup_insert. destruct (decide (ty = ty')) as [<-|Hty].
          * rewrite decide_True; [done|]. by split_and!.
          * rewrite decide_False; [done|]. by intros (_ & -> & _).
        + rewrite decide_False; [done|]. intros (_ & _ & [? ?]). done.
      - rewrite decide_False; [done|]. by intros [-> _]. }
    rewrite <- E. by destruct (handlers_of w1 a ty).
Qed.

Lemma on_next_array a ty h w :
  next_array (on a ty h w) =
    match handlers_of w a ty with
    | Some _ => next_array w
    | None => S (next_array w)
    end.
Proof.
  unfold on. destruct (handlers_of w a ty) as [r|] eqn:Hr.
  - by rewrite Hr.
  - simpl. set (w1 := set_eventHandlers a _ _). by destruct (handlers_of w1 a ty).
Qed.

Lemma on_array_at a ty h w r :
  array_at (on a ty h w) r =
    match handlers_of w a ty with
    | Some r0 =>
        if decide (r = r0 ∧ is_Some (arrays w !! r)) then array_at w r ++ [h]
        else array_at w r
    | None =>
        if decide (r = next_array w)
        then (if decide (is_Some (wrappers w !! a)) then [h] else [])
        else array_at w r
    end.
Proof.
  unfold on. destruct (handlers_of w a ty) as [r0|] eqn:Hr.
  - rewrite Hr. unfold array_at. simpl. rewrite lookup_alter.
    destruct (decide (r0 = r)) as [->|Hne].
    + destruct (arrays w !! r) eqn:E; simpl.
      * rewrite decide_True; [done|]. by split.
      * rewrite decide_False; [done|]. by intros [_ [? ?]].
    + rewrite decide_False; [done|]. by intros [-> _].
  - simpl. set (w1 := set_eventHandlers a _ _).
    assert (handlers_of w1 a ty =
              if decide (is_Some (wrappers w !! a)) then Some (next_array w) else None) as E1.
    { unfold w1. rewrite handlers_of_set_eventHandlers. simpl.
      destruct (decide (a = a)); [|done].
      destruct (wrappers w !! a) as [I|]; simpl; [|done].
      by rewrite lookup_insert_eq. }
    rewrite E1. unfold array_at. case_decide as Hs; simpl.
    + rewrite lookup_alter. destruct (decide (next_array w = r)) as [<-|Hne].
      * rewrite lookup_insert_eq. simpl. by rewrite decide_True.
      * rewrite lookup_insert_ne by done. by rewrite decide_False.
    + rewrite lookup_insert. destruct (decide (next_array w = r)) as [<-|Hne].
      * by rewrite decide_True.
      * by rewrite decide_False.
Qed.

Lemma store_wf_on a ty h w : store_wf w → store_wf (on a ty h w).
Proof.
  intros HW a' ty' r'. rewrite on_handlers, on_next_array.
  destruct (handlers_of w a ty) as [r0|] eqn:Hr.
  - intros Hr'. destruct (HW a' ty' r' Hr') as (Hlt & Hne & Hun).
    split_and!; [done| |].
    + rewrite on_array_at, Hr. case_decide; [|done]. by intros [? ?]%app_eq_nil.
    + intros a'' ty''. rewrite on_handlers, Hr. apply Hun.
  - assert (∀ a1 ty1 r1, handlers_of w a1 ty1 = Some r1 → r1 ≠ next_array w) as Hfresh.
    { intros a1 ty1 r1 H1. destruct (HW a1 ty1 r1 H1) as (Hlt & _). lia. }
    case_decide as Hd.
    + intros [= <-]. destruct Hd as (-> & -> & Hs). split_and!; [lia| |].
      * rewrite on_array_at, Hr, decide_True by done. by rewrite decide_True.
      * intros a'' ty''. rewrite on_handlers, Hr. case_decide as Hd'; [by destruct Hd' as (-> & -> & _)|].
        intros H1. by destruct (Hfresh _ _ _ H1).
    + intros Hr'. destruct (HW a' ty' r' Hr') as (Hlt & Hne & Hun).
      split_and!; [lia| |].
      * rewrite on_array_at, Hr. rewrite decide_False; [done|lia].
      * intros a'' ty''. rewrite on_handlers, Hr. case_decide as Hd'; [|apply Hun].
        intros [= <-]. lia.
Qed.

(** * Facts about the coordinator *)

Section Coordinator.

Context (B : InteractEventHandler → list action).

(** The four loops of the source are the one loop of the specification. *)
Lemma phase_loop_ordered p s hits w :
  phase_loop B p s hits w = ordered_loop B (phase_event p s) (phase_after p) hits w.
Proof.
  revert w. induction hits as [|i rest IH]; intros w; [by destruct p|].
  destruct p; simpl in *;
    (destruct (interactables (manager w) !! object i) as [a|]; [|apply IH]);
    (destruct (fire B a _ w) as [[ev' b] w']);
    (destruct (stopped ev'); [done|apply IH]).
Qed.

Lemma fire_inv K P a ev w :
  loop_inv B K P → K (type ev) → P w → P (fire B a ev w).2.
Proof.
  intros (HS & Hrec & _) HK HP. unfold fire.
  apply dispatchEvent_inv; [done|]. by apply Hrec.
Qed.

Lemma ordered_loop_inv K P mk after hits w :
  loop_inv B K P → (∀ i, K (type (mk i))) → (∀ i w, P w → P (after i w)) →
  P w → P (ordered_loop B mk after hits w).
Proof.
  intros HL HK Hafter. revert w. induction hits as [|i rest IH]; intros w HP; [done|].
  simpl. destruct (interactables (manager w) !! object i) as [a|]; [|by apply IH].
  pose proof (fire_inv K P a (mk i) w HL (HK i) HP) as HP'.
  destruct (fire B a (mk i) w) as [[ev' b] w']. simpl in HP'.
  destruct (stopped ev'); [by apply Hafter|]. apply IH. by apply Hafter.
Qed.

Lemma enter_loop_inv K P s hits w :
  loop_inv B K P → K pointerenter → P w → P (enter_loop B s hits w).
Proof.
  intros HL HK. revert w. induction hits as [|i rest IH]; intros w HP; [done|].
  simpl. destruct (interactables (manager w) !! object i) as [a|]; [|by apply IH].
  case_bool_decide; [by apply IH|].
  set (w1 := set_hoveredObjects _ w).
  assert (P w1) as HP1 by apply HL, HP.
  pose proof (fire_inv K P a (newInteractEvent pointerenter (object i) i (event s)) w1
                HL HK HP1) as HP'.
  destruct (fire B a _ w1) as [[ev' b] w']. simpl in HP'.
  destruct (b && stopped ev'); [done|by apply IH].
Qed.

Lemma leave_loop_inv K P s X keys w :
  loop_inv B K P → K pointerleave → P w → P (leave_loop B s X keys w).
Proof.
  intros HL HK. revert w. induction keys as [|o rest IH]; intros w HP; [done|].
  simpl. case_bool_decide; [|by apply IH].
  case_bool_decide; [by apply IH|].
  set (w1 := set_hoveredObjects _ w).
  assert (P w1) as HP1 by apply HL, HP.
  change (interactables (manager w1)) with (interactables (manager w)).
  destruct (interactables (manager w) !! o) as [a|]; [|by apply IH].
  pose proof (fire_inv K P a (newInteractEvent pointerleave o (getIntersection s o) (event s))
                w1 HL HK HP1) as HP'.
  destruct (fire B a _ w1) as [[ev' b] w']. simpl in HP'. by apply IH.
Qed.

Lemma processRaycast_inv K P s w :
  loop_inv B K P → K pointerenter → K pointerleave → P w → P (processRaycast B s w).
Proof.
  intros HL HKe HKl HP. unfold processRaycast.
  apply (leave_loop_inv K); [done..|]. by apply (enter_loop_inv K).
Qed.

Lemma drag_step_inv K P s d w :
  loop_inv B K P → K drag → P w → P (drag_step B s d w).
Proof.
  intros HL HK HP. unfold drag_step.
  destruct (dragObject (manager w)) as [o|]; [|done].
  destruct (interactables (manager w) !! o) as [a|]; [|done].
  by apply (fire_inv K).
Qed.

(** *** The trace under the loops *)

Lemma trace_loop_inv (K : InteractEventType → Prop) (Q : list entry → Prop) w0 :
  (∀ tr h ev, Q tr → Q (tr ++ [LCall h ev])) →
  (∀ tr a ev, K (type ev) → Q tr → Q (tr ++ [LDispatch a ev])) →
  loop_inv B K (λ w', ∃ tr, trace w' = trace w0 ++ tr ∧ Q tr).
Proof.
  intros Hcall Hdisp. split; [split|split].
  - intros h ev w (tr & Htr & HQ). exists (tr ++ [LCall h ev]). split; [|by apply Hcall].
    simpl. by rewrite Htr, app_assoc.
  - intros h act ev w _ (tr & Htr & HQ). exists tr. by rewrite run_action_trace.
  - intros a ev w HK (tr & Htr & HQ). exists (tr ++ [LDispatch a ev]).
    split; [|by apply Hdisp]. simpl. by rewrite Htr, app_assoc.
  - intros f w (tr & Htr & HQ). by exists tr.
Qed.

Lemma ordered_loop_visits mk after hits w :
  (∀ i w, trace (after i w) = trace w) →
  ∃ tr visited,
    trace (ordered_loop B mk after hits w) = trace w ++ tr
    ∧ visited `sublist_of` hits
    ∧ (dispatched tr).*2 = mk <$> visited.
Proof.
  intros Hafter. revert w. induction hits as [|i rest IH]; intros w.
  - exists [], []. by rewrite app_nil_r.
  - simpl. destruct (interactables (manager w) !! object i) as [a|].
    + destruct (fire_trace B a (mk i) w) as (tr1 & Htr1 & Hd1).
      destruct (fire B a (mk i) w) as [[ev' b] w1]. simpl in Htr1.
      destruct (stopped ev').
      * exists (LDispatch a (mk i) :: tr1), [i]. split_and!.
        -- by rewrite Hafter.
        -- apply sublist_skip, sublist_nil_l.
        -- simpl. by rewrite Hd1.
      * destruct (IH (after i w1)) as (tr2 & visited & Htr2 & Hsub & Hd2).
        exists (LDispatch a (mk i) :: tr1 ++ tr2), (i :: visited). split_and!.
        -- rewrite Htr2, Hafter, Htr1. by rewrite <- app_assoc.
        -- by apply sublist_skip.
        -- change (dispatched (LDispatch a (mk i) :: tr1 ++ tr2))
             with ((a, mk i) :: dispatched (tr1 ++ tr2)).
           rewrite dispatched_app, Hd1, app_nil_l, !fmap_cons. by f_equal.
    + destruct (IH w) as (tr & visited & Htr & Hsub & Hd).
      exists tr, visited. split_and!; [done| by apply sublist_cons |done].
Qed.

(** After [onPointerDown]'s loop the drag target and the active target are the
    object of the last hit that received the event. *)
Lemma down_loop_visited s hits w :
  ∃ tr visited,
    trace (down_loop B s hits w) = trace w ++ tr
    ∧ visited `sublist_of` hits
    ∧ (dispatched tr).*2 = phase_event Down s <$> visited
    ∧ match last visited with
      | None => down_loop B s hits w = w
      | Some i =>
          dragObject (manager (down_loop B s hits w)) = Some (object i)
          ∧ activeObject (manager (down_loop B s hits w)) = Some (object i)
      end.
Proof.
  revert w. induction hits as [|i rest IH]; intros w.
  - exists [], []. by rewrite app_nil_r.
  - simpl. destruct (interactables (manager w) !! object i) as [a|].
    + set (ev := newInteractEvent pointerdown (object i) i (event s)).
      destruct (fire_trace B a ev w) as (tr1 & Htr1 & Hd1).
      destruct (fire B a ev w) as [[ev' b] w1]. simpl in Htr1.
      set (w2 := set_activeObject _ _).
      destruct (stopped ev').
      * exists (LDispatch a ev :: tr1), [i]. split_and!; [done| | |done].
        -- apply sublist_skip, sublist_nil_l.
        -- simpl. by rewrite Hd1.
      * destruct (IH w2) as (tr2 & visited & Htr2 & Hsub & Hd2 & Hlast).
        exists (LDispatch a ev :: tr1 ++ tr2), (i :: visited). split_and!.
        -- rewrite Htr2. change (trace w2) with (trace w1). rewrite Htr1.
           by rewrite <- app_assoc.
        -- by apply sublist_skip.
        -- change (dispatched (LDispatch a ev :: tr1 ++ tr2))
             with ((a, ev) :: dispatched (tr1 ++ tr2)).
           rewrite dispatched_app, Hd1, app_nil_l, !fmap_cons. by f_equal.
        -- destruct visited as [|j visited]; simpl in *; [by rewrite Hlast|].
           destruct (last (j :: visited)) eqn:El; [done|]. by apply last_None in El.
    + destruct (IH w) as (tr & visited & Htr & Hsub & Hd & Hlast).
      exists tr, visited. split_and!; [done|by apply sublist_cons|done|done].
Qed.

(** *** What handlers can do to the coordinator *)

Lemma run_action_manager act ev w :
  manages act = false → manager (run_action act ev w).2 = manager w.
Proof.
  destruct act as [| | a ty h | a ty [h|] | a | o | o]; simpl; try done.
  - intros _. unfold on. destruct (handlers_of w a ty); simpl.
    + by destruct (handlers_of _ _ _).
    + by destruct (handlers_of _ _ _).
  - intros _. unfold off. destruct (handlers_of w a ty); [|done]. by case_decide.
Qed.

Lemma no_manage_elem h act : no_manage B h = true → act ∈ B h → manages act = false.
Proof.
  unfold no_manage. rewrite forallb_forall. intros Hall Hin%list_elem_of_In.
  by apply negb_true_iff, Hall.
Qed.

Lemma no_remove_elem h act : no_remove B h = true → act ∈ B h → removes act = false.
Proof.
  unfold no_remove. rewrite forallb_forall. intros Hall Hin%list_elem_of_In.
  by apply negb_true_iff, Hall.
Qed.

(** Handlers that do not call the coordinator leave it as it is. *)
Lemma interactables_stable m :
  (∀ h, no_manage B h = true) → loop_inv B (λ _, True) (λ w, interactables (manager w) = m).
Proof.
  intros HB. split; [split|split]; try done.
  intros h act ev w Hin <-. by rewrite run_action_manager by by eapply no_manage_elem.
Qed.

(** No handler can set the drag target. *)
Lemma no_drag_stable : loop_inv B (λ _, True) (λ w, dragObject (manager w) = None).
Proof.
  split; [split|split]; try done.
  intros h act ev w _ Hd.
  destruct (decide (manages act = true)) as [Hm|Hm].
  - destruct act; try done; simpl.
    + unfold add. by destruct (_ !! o).
    + by rewrite Hd.
  - rewrite run_action_manager; [done|]. by destruct (manages act).
Qed.

End Coordinator.

Section CoordinatorState.

Context (B : InteractEventHandler → list action).

Lemma updatePointer_trace e w : trace (updatePointer e w).2 = trace w.
Proof. done. Qed.

(** When the first handler of a registered hit stops propagation, the loop
    ends with that dispatch. *)
Lemma ordered_loop_first_stops mk after i rest w a r h l :
  (∀ i w, trace (after i w) = trace w) →
  interactables (manager w) !! object i = Some a →
  handlers_of w a (type (mk i)) = Some r →
  array_at w r = h :: l →
  existsb stops (B h) = true →
  ∃ w1 tr, ordered_loop B mk after (i :: rest) w = after i w1
           ∧ trace w1 = trace w ++ LDispatch a (mk i) :: LCall h (mk i) :: tr
           ∧ dispatched tr = [].
Proof.
  intros Hafter Ha Hr Hl Hstop. simpl. rewrite Ha. unfold fire.
  destruct (dispatchEvent_first B a (mk i) (record (LDispatch a (mk i)) w) r h l)
    as [(tr & Htr & Hd) Hs]; [done|done|].
  specialize (Hs Hstop).
  destruct (dispatchEvent B a (mk i) (record (LDispatch a (mk i)) w)) as [[ev' b] w'].
  simpl in *. rewrite Hs. exists w', tr. split_and!; [done| |done].
  rewrite Htr. by rewrite <- app_assoc.
Qed.

Lemma only_loop_inv K w0 :
  loop_inv B K (λ w', ∃ tr, trace w' = trace w0 ++ tr ∧ only K tr).
Proof.
  apply trace_loop_inv.
  - intros tr h ev Htr. unfold only. by rewrite dispatched_app, app_nil_r.
  - intros tr a ev HK Htr. unfold only. rewrite dispatched_app. apply Forall_app.
    split; [done|]. by apply Forall_singleton.
Qed.

Lemma only_of_type K ty tr : only K tr → ¬ K ty → of_type ty (dispatched tr) = [].
Proof.
  unfold only, of_type. induction 1 as [|d ds Hd _ IH]; intros Hty; [done|].
  rewrite filter_cons. case_decide as Hx; [|by apply IH]. by rewrite Hx in Hd.
Qed.

Lemma phase_loop_only p s hits w :
  ∃ tr, trace (phase_loop B p s hits w) = trace w ++ tr ∧ only (λ k, k = phase_type p) tr.
Proof.
  rewrite phase_loop_ordered.
  apply (ordered_loop_inv B (λ k, k = phase_type p)
           (λ w', ∃ tr, trace w' = trace w ++ tr ∧ only (λ k, k = phase_type p) tr)).
  - apply only_loop_inv.
  - intros i. by destruct p.
  - intros i w' (tr & Htr & Ho). exists tr. split; [|done]. by destruct p.
  - exists []. split; [by rewrite app_nil_r|]. by apply Forall_nil.
Qed.

Lemma processRaycast_only s w :
  ∃ tr, trace (processRaycast B s w) = trace w ++ tr
        ∧ only (λ k, k = pointerenter ∨ k = pointerleave) tr.
Proof.
  apply (processRaycast_inv B (λ k, k = pointerenter ∨ k = pointerleave)
           (λ w', ∃ tr, trace w' = trace w ++ tr
                        ∧ only (λ k, k = pointerenter ∨ k = pointerleave) tr)).
  - apply only_loop_inv.
  - by left.
  - by right.
  - exists []. split; [by rewrite app_nil_r|]. by apply Forall_nil.
Qed.

(** [onPointerMove] without a drag target dispatches no [drag] event. *)
Lemma pointermove_no_drag s w :
  dragObject (manager w) = None →
  of_type drag (dispatched (new_entries w (onPointerMove B s w))) = [].
Proof.
  intros Hd. unfold onPointerMove.
  destruct (updatePointer (event s) w) as [[dx dy] w1] eqn:E.
  assert (trace w1 = trace w ∧ dragObject (manager w1) = None) as [Ht Hd1].
  { unfold updatePointer in E. by injection E as <- <- <-. }
  unfold drag_step. rewrite Hd1.
  destruct (phase_loop_only (Move (dx, dy)) s (raycast s) w1) as (tr1 & Htr1 & Ho1).
  simpl in Htr1.
  destruct (processRaycast_only s (move_loop B s (dx, dy) (raycast s) w1))
    as (tr2 & Htr2 & Ho2).
  rewrite (new_entries_app _ _ (tr1 ++ tr2)).
  - rewrite dispatched_app. unfold of_type. rewrite filter_app.
    fold (of_type drag (dispatched tr1)). fold (of_type drag (dispatched tr2)).
    rewrite (only_of_type _ drag tr1 Ho1) by done.
    rewrite (only_of_type _ drag tr2 Ho2); [done|]. by intros [?|?].
  - rewrite Htr2, Htr1, Ht. by rewrite app_assoc.
Qed.


Lemma pointerup_no_drag s w :
  dragObject (manager (onPointerUp B s w)) = None
  ∧ activeObject (manager (onPointerUp B s w)) = None
  ∧ of_type drag (dispatched (new_entries w (onPointerUp B s w))) = [].
Proof.
  unfold onPointerUp.
  destruct (updatePointer (event s) w) as [[dx dy] w1] eqn:E.
  assert (trace w1 = trace w) as Ht.
  { unfold updatePointer in E. by injection E as <- <- <-. }
  split_and!.
  - change (dragObject (manager (up_loop B s (raycast s) (set_dragObject None w1))) = None).
    change (up_loop B s) with (phase_loop B Up s). rewrite phase_loop_ordered.
    by apply (ordered_loop_inv B (λ _, True) _ _ _ _ _ (no_drag_stable B)).
  - done.
  - destruct (phase_loop_only Up s (raycast s) (set_dragObject None w1)) as (tr & Htr & Ho).
    simpl in Htr. rewrite (new_entries_app _ _ tr).
    + by apply (only_of_type _ drag tr Ho).
    + simpl. by rewrite Htr, <- Ht.
Qed.

Lemma onPointerDown_loop s w :
  onPointerDown B s w = phase_loop B Down s (raycast s) (updatePointer (event s) w).2.
Proof. unfold onPointerDown. by destruct (updatePointer (event s) w) as [[dx dy] w1]. Qed.

(** A [pointerdown] sample with a single, registered hit. *)
Lemma pointerdown_single s w i a :
  raycast s = [i] →
  interactables (manager w) !! object i = Some a →
  dragObject (manager (onPointerDown B s w)) = Some (object i)
  ∧ activeObject (manager (onPointerDown B s w)) = Some (object i).
Proof.
  intros Hs Hreg. rewrite onPointerDown_loop, Hs. simpl. rewrite Hreg.
  destruct (fire B a _ _) as [[ev' b] w2]. by destruct (stopped ev').
Qed.

End CoordinatorState.

Section Invariants.

Context (B : InteractEventHandler → list action).

(** A property kept by the loops and by the bookkeeping of the entry points
    is kept by [onClick], [onPointerMove] and [onPointerUp]. *)
Lemma entry_points_inv (P : world → Prop) s w :
  loop_inv B (λ _, True) P →
  (∀ e w, P w → P (updatePointer e w).2) →
  (∀ w, P w → P (set_dragObject None w)) →
  (∀ w, P w → P (set_activeObject None w)) →
  P w →
  P (onClick B s w) ∧ P (onPointerMove B s w) ∧ P (onPointerUp B s w).
Proof.
  intros HL Hup Hdrag Hact HP.
  pose proof (Hup (event s) w HP) as HP1.
  unfold onClick, onPointerMove, onPointerUp.
  destruct (updatePointer (event s) w) as [[dx dy] w1]. simpl in HP1.
  split_and!.
  - change (click_loop B s) with (phase_loop B Click s). rewrite phase_loop_ordered.
    by apply (ordered_loop_inv B (λ _, True)).
  - apply (processRaycast_inv B (λ _, True)); [done..|].
    change (move_loop B s (dx, dy)) with (phase_loop B (Move (dx, dy)) s).
    rewrite phase_loop_ordered.
    apply (ordered_loop_inv B (λ _, True)); [done..|].
    by apply (drag_step_inv B (λ _, True)).
  - apply Hact. change (up_loop B s) with (phase_loop B Up s). rewrite phase_loop_ordered.
    apply (ordered_loop_inv B (λ _, True)); [done..|]. by apply Hdrag.
Qed.

Lemma pointerdown_inv (P : world → Prop) s w :
  loop_inv B (λ _, True) P →
  (∀ e w, P w → P (updatePointer e w).2) →
  (∀ i w, P w → P (phase_after Down i w)) →
  P w → P (onPointerDown B s w).
Proof.
  intros HL Hup Hafter HP.
  pose proof (Hup (event s) w HP) as HP1.
  unfold onPointerDown.
  destruct (updatePointer (event s) w) as [[dx dy] w1]. simpl in HP1.
  change (down_loop B s) with (phase_loop B Down s). rewrite phase_loop_ordered.
  by apply (ordered_loop_inv B (λ _, True)).
Qed.

Lemma add_manager o w :
  manager (add o w).2 =
    {| interactables :=
         match interactables (manager w) !! o with
         | Some _ => interactables (manager w)
         | None => <[o := next_wrapper w]> (interactables (manager w))
         end;
       hoveredObjects := hoveredObjects (manager w);
       activeObject := activeObject (manager w);
       dragObject := dragObject (manager w);
       lastMousePosition := lastMousePosition (manager w) |}.
Proof.
  unfold add. destruct (interactables (manager w) !! o) eqn:E; simpl; [|done].
  by destruct (manager w).
Qed.

Lemma add_keeps_registered o o' w :
  is_Some (interactables (manager w) !! o') →
  is_Some (interactables (manager (add o w).2) !! o').
Proof.
  intros Hs. rewrite add_manager. simpl.
  destruct (interactables (manager w) !! o) eqn:E; [done|].
  rewrite lookup_insert. by case_decide.
Qed.

Lemma add_keeps_wrapper o o' a w :
  interactables (manager w) !! o' = Some a →
  interactables (manager (add o w).2) !! o' = Some a.
Proof.
  intros Hs. rewrite add_manager. simpl.
  destruct (interactables (manager w) !! o) eqn:E; [done|].
  rewrite lookup_insert_ne; [done|]. by intros ->; rewrite Hs in E.
Qed.

Lemma targets_registered_add o w : targets_registered w → targets_registered (add o w).2.
Proof.
  intros [Hd Ha]. split; intros o' Ho'; apply add_keeps_registered;
    rewrite add_manager in Ho'; auto.
Qed.

Lemma targets_registered_remove o w : targets_registered w → targets_registered (remove o w).
Proof.
  intros [Hd Ha]. unfold remove, clear_if. split; intros o'; simpl.
  - case_decide as E; [done|]. intros Ho'. rewrite lookup_delete_ne; [auto|].
    intros ->. by rewrite Ho' in E.
  - case_decide as E; [done|]. intros Ho'. rewrite lookup_delete_ne; [auto|].
    intros ->. by rewrite Ho' in E.
Qed.

Lemma targets_registered_stable : loop_inv B (λ _, True) targets_registered.
Proof.
  split; [split|split]; try done.
  intros h act ev w _ HT.
  destruct (decide (manages act = true)) as [Hm|Hm].
  - destruct act; try done; simpl.
    + by apply targets_registered_add.
    + by apply targets_registered_remove.
  - unfold targets_registered. rewrite run_action_manager; [done|]. by destruct (manages act).
Qed.

(** Without calls to [remove], a registered object keeps its wrapper. *)
Lemma registered_stable o a :
  (∀ h, no_remove B h = true) →
  loop_inv B (λ _, True) (λ w, interactables (manager w) !! o = Some a).
Proof.
  intros HB. split; [split|split]; try done.
  intros h act ev w Hin Hreg.
  pose proof (no_remove_elem B h act (HB h) Hin) as Hact.
  destruct (decide (manages act = true)) as [Hm|Hm].
  - destruct act; try done; simpl. by apply add_keeps_wrapper.
  - rewrite run_action_manager; [done|]. by destruct (manages act).
Qed.


Lemma pointerdown_targets_registered s w :
  (∀ h, no_remove B h = true) →
  targets_registered w → targets_registered (onPointerDown B s w).
Proof.
  intros HB HT. unfold onPointerDown.
  destruct (updatePointer (event s) w) as [[dx dy] w1] eqn:E.
  assert (targets_registered w1) as HT1.
  { unfold updatePointer in E. by injection E as <- <- <-. }
  clear E HT. revert w1 HT1. induction (raycast s) as [|i rest IH]; intros w1 HT1; [done|].
  simpl. destruct (interactables (manager w1) !! object i) as [a|] eqn:Ha; [|by apply IH].
  set (ev := newInteractEvent pointerdown (object i) i (event s)).
  assert (targets_registered (fire B a ev w1).2
          ∧ interactables (manager (fire B a ev w1).2) !! object i = Some a) as [HT2 Hreg].
  { apply (fire_inv B (λ _, True)
             (λ w', targets_registered w' ∧ interactables (manager w') !! object i = Some a));
      [|done|done].
    destruct targets_registered_stable as ((S1 & S2) & S3 & S4).
    destruct (registered_stable (object i) a HB) as ((R1 & R2) & R3 & R4).
    split; [split|split].
    - intros h e w0 [? ?]. split; [by apply S1|by apply R1].
    - intros h act e w0 Hin [? ?]. split; [by apply (S2 h)|by apply (R2 h)].
    - intros a0 e w0 _ [? ?]. split; [by apply S3|by apply R3].
    - intros f w0 [? ?]. split; [by apply S4|by apply R4]. }
  destruct (fire B a ev w1) as [[ev' b] w2]. simpl in HT2, Hreg.
  assert (targets_registered
            (set_activeObject (Some (object i)) (set_dragObject (Some (object i)) w2)))
    as HT3.
  { split; intros o' [= <-]; simpl; by rewrite Hreg. }
  destruct (stopped ev'); [done|by apply IH].
Qed.

Lemma wrappers_wf_add o w : wrappers_wf w → wrappers_wf (add o w).2.
Proof.
  intros [Hi Hw]. unfold wrappers_wf, add.
  destruct (interactables (manager w) !! o) as [a|] eqn:E; [done|]. simpl. split.
  - intros o' a'. rewrite lookup_insert. case_decide; [intros [= <-]; lia|].
    intros H'. apply Hi in H'. lia.
  - intros a'. rewrite lookup_insert. case_decide; [intros _; lia|].
    intros H'. apply Hw in H'. lia.
Qed.

Lemma wrappers_wf_remove o w : wrappers_wf w → wrappers_wf (remove o w).
Proof.
  intros [Hi Hw]. split; [|done]. intros o' a'. simpl.
  rewrite lookup_delete. case_decide; [done|]. apply Hi.
Qed.

Lemma wrappers_wf_set_eventHandlers a f w :
  wrappers_wf w → wrappers_wf (set_eventHandlers a f w).
Proof.
  intros [Hi Hw]. split; [done|]. intros a'. simpl. rewrite lookup_alter.
  case_decide; [subst a'|apply Hw]. intros [I HI]. apply Hw.
  destruct (wrappers w !! a); [done|by simpl in HI].
Qed.

Lemma wrappers_wf_initial : wrappers_wf initial.
Proof. split; [done|]. intros a [I HI]. simpl in HI. by rewrite lookup_empty in HI. Qed.

Lemma wrappers_wf_on a ty h w : wrappers_wf w → wrappers_wf (on a ty h w).
Proof.
  intros HW. unfold on. destruct (handlers_of w a ty); simpl.
  - by destruct (handlers_of _ _ _).
  - set (w1 := set_eventHandlers a _ _).
    assert (wrappers_wf w1) by by apply wrappers_wf_set_eventHandlers.
    by destruct (handlers_of w1 a ty).
Qed.

Lemma wrappers_wf_off a ty h w : wrappers_wf w → wrappers_wf (off a ty h w).
Proof.
  intros HW. unfold off. destruct h as [h|].
  - destruct (handlers_of w a ty); [|done].
    case_decide; [|done]. by apply wrappers_wf_set_eventHandlers.
  - by apply wrappers_wf_set_eventHandlers.
Qed.

Lemma wrappers_wf_stable : loop_inv B (λ _, True) wrappers_wf.
Proof.
  split; [split|split]; try done.
  intros h act ev w _ HW.
  destruct act as [| | a ty h0 | a ty h0 | a | o | o]; simpl; try done.
  - by apply wrappers_wf_on.
  - by apply wrappers_wf_off.
  - by apply wrappers_wf_set_eventHandlers.
  - by apply wrappers_wf_add.
  - by apply wrappers_wf_remove.
Qed.

End Invariants.

Lemma store_wf_stable B : loop_inv B (λ _, True) store_wf.
Proof.
  split; [split|split]; try done.
  intros h act ev w _ HW.
  destruct act as [| | a ty h0 | a ty h0 | a | o | o]; simpl; try done.
  - by apply store_wf_on.
  - by apply store_wf_off.
  - by apply store_wf_removeAll.
  - by apply store_wf_add.
Qed.

(** Every entry point keeps the store well formed. *)
Lemma store_wf_entry_points B s w :
  store_wf w →
  store_wf (onClick B s w) ∧ store_wf (onPointerMove B s w)
  ∧ store_wf (onPointerUp B s w) ∧ store_wf (onPointerDown B s w).
Proof.
  intros HW.
  destruct (entry_points_inv B store_wf s w) as (H1 & H2 & H3); try done;
    [apply store_wf_stable|].
  split_and!; [done..|].
  apply pointerdown_inv; try done. apply store_wf_stable.
Qed.

(** *** Reachable states *)

Lemma off_keeps_manager a ty h w : manager (off a ty h w) = manager w.
Proof.
  unfold off. destruct h as [h|]; [|done].
  destruct (handlers_of w a ty); [|done]. by case_decide.
Qed.

Section Reachable.

Context (B : InteractEventHandler → list action).

Lemma wrappers_wf_entry_points s w :
  wrappers_wf w →
  wrappers_wf (onClick B s w) ∧ wrappers_wf (onPointerMove B s w)
  ∧ wrappers_wf (onPointerUp B s w) ∧ wrappers_wf (onPointerDown B s w).
Proof.
  intros HW.
  destruct (entry_points_inv B wrappers_wf s w) as (H1 & H2 & H3); try done;
    [apply wrappers_wf_stable|].
  split_and!; [done..|].
  apply pointerdown_inv; try done. apply wrappers_wf_stable.
Qed.

(** Every reachable state has a well-formed store. *)
Lemma reachable_wf w : reachable B w → store_wf w ∧ wrappers_wf w.
Proof.
  induction 1 as [|o w _ [IH1 IH2]|o w _ [IH1 IH2]|a ty h w _ [IH1 IH2]
                  |a ty h w _ [IH1 IH2]|a w _ [IH1 IH2]|a ev w _ [IH1 IH2]
                  |s w _ [IH1 IH2]|s w _ [IH1 IH2]|s w _ [IH1 IH2]|s w _ [IH1 IH2]].
  - split; [apply store_wf_initial|apply wrappers_wf_initial].
  - split; [by apply store_wf_add|by apply wrappers_wf_add].
  - split; [by apply store_wf_remove|by apply wrappers_wf_remove].
  - split; [by apply store_wf_on|by apply wrappers_wf_on].
  - split; [by apply store_wf_off|by apply wrappers_wf_off].
  - split; [by apply store_wf_removeAll|by apply wrappers_wf_set_eventHandlers].
  - split; (apply dispatchEvent_inv; [|done]).
    + apply (store_wf_stable B).
    + apply (wrappers_wf_stable B).
  - split; [by apply store_wf_entry_points|by apply wrappers_wf_entry_points].
  - split; [by apply store_wf_entry_points|by apply wrappers_wf_entry_points].
  - split; [by apply store_wf_entry_points|by apply wrappers_wf_entry_points].
  - split; [by apply store_wf_entry_points|by apply wrappers_wf_entry_points].
Qed.

(** When no handler calls [remove], the drag target and the active target of
    every reachable state have a wrapper. *)
Lemma reachable_targets_registered w :
  (∀ h, no_remove B h = true) → reachable B w → targets_registered w.
Proof.
  intros HB. induction 1 as [|o w _ IH|o w _ IH|a ty h w _ IH|a ty h w _ IH|a w _ IH
                             |a ev w _ IH|s w _ IH|s w _ IH|s w _ IH|s w _ IH].
  - by split.
  - by apply targets_registered_add.
  - by apply targets_registered_remove.
  - pose proof (run_action_manager (AOn a ty h) (newInteractEvent ty 0 (hit 0) at_origin)
                  w eq_refl) as Hm.
    unfold targets_registered. simpl in Hm. by rewrite Hm.
  - unfold targets_registered.
    destruct h as [h|].
    + pose proof (off_keeps_manager a ty (Some h) w) as Hm. by rewrite Hm.
    + pose proof (off_keeps_manager a ty None w) as Hm. by rewrite Hm.
  - done.
  - apply dispatchEvent_inv; [|done]. apply (targets_registered_stable B).
  - by destruct (entry_points_inv B targets_registered s w) as (H1 & H2 & H3);
      try done; [apply targets_registered_stable|intros ? [? ?]; by split|intros ? [? ?]; by split].
  - by destruct (entry_points_inv B targets_registered s w) as (H1 & H2 & H3);
      try done; [apply targets_registered_stable|intros ? [? ?]; by split|intros ? [? ?]; by split].
  - by apply pointerdown_targets_registered.
  - by destruct (entry_points_inv B targets_registered s w) as (H1 & H2 & H3);
      try done; [apply targets_registered_stable|intros ? [? ?]; by split|intros ? [? ?]; by split].
Qed.

End Reachable.

(** * Facts about hovering *)

Section Hover.

Context (B : InteractEventHandler → list action).

Lemma fire_stable (P : world → Prop) a ev w :
  stable B P → (P w → P (record (LDispatch a ev) w)) → P w → P (fire B a ev w).2.
Proof. intros HS Hrec HP. unfold fire. apply dispatchEvent_inv; auto. Qed.

Lemma fired_cons_dispatch ty o a ev tr :
  fired ty o (LDispatch a ev :: tr)
  = (if decide (type ev = ty ∧ target ev = o) then 1 else 0) + fired ty o tr.
Proof.
  unfold fired. change (dispatched (LDispatch a ev :: tr)) with ((a, ev) :: dispatched tr).
  rewrite filter_cons. simpl. by case_decide.
Qed.

Lemma only_fired K ty o tr : only K tr → ¬ K ty → fired ty o tr = 0.
Proof.
  unfold only, fired. induction 1 as [|d ds Hd _ IH]; intros Hty; [done|].
  rewrite filter_cons. case_decide as Hx; [|by apply IH].
  destruct Hx as [Hx _]. by rewrite Hx in Hd.
Qed.


Lemma leave_loop_only s X keys w :
  ∃ tr, trace (leave_loop B s X keys w) = trace w ++ tr ∧ only (λ k, k = pointerleave) tr.
Proof.
  apply (leave_loop_inv B (λ k, k = pointerleave)
           (λ w', ∃ tr, trace w' = trace w ++ tr ∧ only (λ k, k = pointerleave) tr)).
  - apply only_loop_inv.
  - done.
  - exists []. split; [by rewrite app_nil_r|]. by apply Forall_nil.
Qed.


(** No handler puts an object into the hover set. *)
Lemma not_hovered_stable o : stable B (λ w, o ∉ hoveredObjects (manager w)).
Proof.
  split; [done|]. intros h act ev w _ Ho.
  destruct (decide (manages act = true)) as [Hm|Hm].
  - destruct act; try done; simpl.
    + by rewrite add_manager.
    + rewrite list_elem_of_filter. by intros [_ ?].
  - rewrite run_action_manager; [done|]. by destruct (manages act).
Qed.

Lemma leave_loop_shrinks s X keys w o :
  o ∉ hoveredObjects (manager w) →
  o ∉ hoveredObjects (manager (leave_loop B s X keys w)).
Proof.
  revert w. induction keys as [|k rest IH]; intros w Ho; [done|].
  simpl. case_bool_decide; [|by apply IH].
  case_bool_decide; [by apply IH|].
  set (w1 := set_hoveredObjects _ w).
  assert (o ∉ hoveredObjects (manager w1)) as Ho1.
  { simpl. rewrite list_elem_of_filter. by intros [_ ?]. }
  change (interactables (manager w1)) with (interactables (manager w)).
  destruct (interactables (manager w) !! k) as [a|]; [|by apply IH].
  pose proof (fire_stable _ a
                (newInteractEvent pointerleave k (getIntersection s k) (event s)) w1
                (not_hovered_stable o) (λ H, H) Ho1) as Ho2.
  destruct (fire B a _ w1) as [[ev' b] w2]. by apply IH.
Qed.


(** *** Handlers that do not call the coordinator *)







End Hover.

Section HoverDiff.

Context (B : InteractEventHandler → list action).




End HoverDiff.

Section HoverSamples.

Context (B : InteractEventHandler → list action).









End HoverSamples.

(** *** The hover-enter loop along the hit list *)

Section HoverOrder.

Context (B : InteractEventHandler → list action).

(** The loop over a list in two parts: the second part is reached only if
    the loop did not end in the first. *)
Lemma enter_loop_app s pre rest w :
  enter_loop B s (pre ++ rest) w =
    if enter_halts B s pre w then enter_loop B s pre w
    else enter_loop B s rest (enter_loop B s pre w).
Proof.
  revert w. induction pre as [|i pre IH]; intros w; [done|].
  simpl. destruct (interactables (manager w) !! object i) as [a|]; [|apply IH].
  case_bool_decide; [apply IH|].
  destruct (fire B a _ _) as [[ev' b] w']. destruct (b && stopped ev'); [done|apply IH].
Qed.





(** The events of the loop are those of a sublist of the hits, in order. *)
Lemma enter_loop_visits s hits w :
  ∃ tr visited,
    trace (enter_loop B s hits w) = trace w ++ tr
    ∧ visited `sublist_of` hits
    ∧ (dispatched tr).*2 = enter_event s <$> visited.
Proof.
  revert w. induction hits as [|i rest IH]; intros w.
  - exists [], []. by rewrite app_nil_r.
  - simpl. destruct (interactables (manager w) !! object i) as [a|].
    + case_bool_decide.
      * destruct (IH w) as (tr & visited & Htr & Hsub & Hd).
        exists tr, visited. split_and!; [done|by apply sublist_cons|done].
      * set (w1 := set_hoveredObjects _ w).
        destruct (fire_trace B a (enter_event s i) w1) as (tr1 & Htr1 & Hd1).
        unfold enter_event in Htr1.
        destruct (fire B a _ w1) as [[ev' b] w2]. simpl in Htr1.
        destruct (b && stopped ev').
        -- exists (LDispatch a (enter_event s i) :: tr1), [i]. split_and!.
           ++ done.
           ++ apply sublist_skip, sublist_nil_l.
           ++ simpl. by rewrite Hd1.
        -- destruct (IH w2) as (tr2 & visited & Htr2 & Hsub & Hd2).
           exists (LDispatch a (enter_event s i) :: tr1 ++ tr2), (i :: visited).
           split_and!.
           ++ rewrite Htr2, Htr1. by rewrite <- app_assoc.
           ++ by apply sublist_skip.
           ++ change (dispatched (LDispatch a (enter_event s i) :: tr1 ++ tr2))
                with ((a, enter_event s i) :: dispatched (tr1 ++ tr2)).
              rewrite dispatched_app, Hd1, app_nil_l, !fmap_cons. by f_equal.
    + destruct (IH w) as (tr & visited & Htr & Hsub & Hd).
      exists tr, visited. split_and!; [done|by apply sublist_cons|done].
Qed.

Lemma fired_enter_visited s o visited tr :
  (dispatched tr).*2 = enter_event s <$> visited →
  o ∉ object <$> visited → fired pointerenter o tr = 0.
Proof.
  unfold fired. generalize (dispatched tr). intros ds. revert visited.
  induction ds as [|d ds IH]; intros visited Hd Ho; [done|].
  destruct visited as [|i visited]; [done|]. rewrite !fmap_cons in Hd.
  injection Hd as Hd1 Hd2. rewrite fmap_cons in Ho.
  apply not_elem_of_cons in Ho as [Hne Ho].
  rewrite filter_cons. case_decide as Hx.
  - destruct Hx as [_ Hx]. rewrite Hd1 in Hx. simpl in Hx. by destruct Hne.
  - by apply (IH visited).
Qed.



(** The hover set grows by objects of the hits only. *)
Lemma enter_loop_hovered_in s hits w o :
  o ∈ hoveredObjects (manager (enter_loop B s hits w)) →
  o ∈ hoveredObjects (manager w) ∨ o ∈ object <$> hits.
Proof.
  revert w. induction hits as [|i rest IH]; intros w; [by left|].
  rewrite fmap_cons. simpl.
  assert (∀ w', (o ∈ hoveredObjects (manager w') →
                 o ∈ hoveredObjects (manager w) ∨ o = object i) →
            o ∈ hoveredObjects (manager (enter_loop B s rest w')) →
            o ∈ hoveredObjects (manager w) ∨ o ∈ object i :: (object <$> rest)) as Hstep.
  { intros w' Hw' Ho. destruct (IH w' Ho) as [H|H].
    - destruct (Hw' H) as [?| ->]; [by left|right; by left].
    - right. by right. }
  destruct (interactables (manager w) !! object i) as [a|]; [|apply Hstep; tauto].
  case_bool_decide; [apply Hstep; tauto|].
  set (w1 := set_hoveredObjects _ w).
  assert (∀ w2, (o ∉ hoveredObjects (manager w1) → o ∉ hoveredObjects (manager w2)) →
            o ∈ hoveredObjects (manager w2) →
            o ∈ hoveredObjects (manager w) ∨ o = object i) as Hins.
  { intros w2 H21 Ho2. destruct (decide (o ∈ hoveredObjects (manager w1))) as [H1|H1].
    - simpl in H1. apply elem_of_app in H1 as [?|H1]; [by left|].
      right. by apply list_elem_of_singleton in H1.
    - by destruct (H21 H1). }
  pose proof (fire_stable B _ a (newInteractEvent pointerenter (object i) i (event s)) w1
                (not_hovered_stable B o) (λ H, H)) as Hf.
  destruct (fire B a _ w1) as [[ev' b] w2]. simpl in Hf.
  destruct (b && stopped ev').
  - intros Ho. destruct (Hins w2 Hf Ho) as [?| ->]; [by left|right; by left].
  - apply Hstep. by apply Hins.
Qed.

Lemma enter_loop_not_hovered s hits w o :
  o ∉ hoveredObjects (manager w) → o ∉ object <$> hits →
  o ∉ hoveredObjects (manager (enter_loop B s hits w)).
Proof. intros H1 H2 H3. by destruct (enter_loop_hovered_in s hits w o H3). Qed.

Lemma enter_loop_trace s hits w :
  trace (enter_loop B s hits w) = trace w ++ new_entries w (enter_loop B s hits w).
Proof.
  destruct (enter_loop_visits s hits w) as (tr & _ & Htr & _).
  by rewrite (new_entries_app _ _ _ Htr).
Qed.

Lemma processRaycast_trace s w :
  ∃ tr, trace (processRaycast B s w)
        = trace (enter_loop B s (hoverRaycast s) w) ++ tr
        ∧ only (λ k, k = pointerleave) tr.
Proof. unfold processRaycast. apply leave_loop_only. Qed.

(** A hit that the loop reaches, whose object is registered and not in the
    hover set at that moment, is handed [pointerenter]. *)
Lemma processRaycast_reaches s w pre i post a :
  hoverRaycast s = pre ++ i :: post →
  enter_halts B s pre w = false →
  interactables (manager (enter_loop B s pre w)) !! object i = Some a →
  object i ∉ hoveredObjects (manager (enter_loop B s pre w)) →
  ∃ tr, new_entries w (processRaycast B s w)
        = new_entries w (enter_loop B s pre w) ++ LDispatch a (enter_event s i) :: tr.
Proof.
  intros Hs Hpre Ha Hh.
  destruct (processRaycast_trace s w) as (tr3 & Htr3 & _).
  rewrite Hs in Htr3. rewrite enter_loop_app, Hpre in Htr3. simpl in Htr3.
  rewrite Ha, bool_decide_eq_false_2 in Htr3 by done.
  set (w1 := enter_loop B s pre w) in *.
  set (w2 := set_hoveredObjects _ w1) in *.
  destruct (fire_trace B a (enter_event s i) w2) as (tr1 & Htr1 & Hd1).
  unfold enter_event in Htr1.
  destruct (fire B a _ w2) as [[ev' b] w3]. simpl in Htr1.
  assert (∃ tr2, trace (if b && stopped ev' then w3 else enter_loop B s post w3)
                 = trace w3 ++ tr2) as [tr2 Htr2].
  { destruct (b && stopped ev'); [exists []; by rewrite app_nil_r|].
    destruct (enter_loop_visits s post w3) as (tr2 & _ & Htr2 & _). by exists tr2. }
  exists (tr1 ++ tr2 ++ tr3). apply new_entries_app.
  rewrite Htr3, Htr2, Htr1. unfold w2. simpl. unfold w1 at 1.
  rewrite enter_loop_trace. fold w1. by rewrite <- !app_assoc.
Qed.

(** When that dispatch returns [true] and leaves the event stopped, the loop
    ends there: the objects that it had not reached receive no
    [pointerenter] and do not enter the hover set. *)
Lemma processRaycast_halts_at s w pre i post a :
  hoverRaycast s = pre ++ i :: post →
  enter_halts B s pre w = false →
  interactables (manager (enter_loop B s pre w)) !! object i = Some a →
  object i ∉ hoveredObjects (manager (enter_loop B s pre w)) →
  let w1 := set_hoveredObjects (λ l, l ++ [object i]) (enter_loop B s pre w) in
  (fire B a (enter_event s i) w1).1.2 = true →
  stopped (fire B a (enter_event s i) w1).1.1 = true →
  ∀ o, o ∉ object <$> (pre ++ [i]) →
    fired pointerenter o (new_entries w (processRaycast B s w)) = 0
    ∧ (o ∉ hoveredObjects (manager w) →
       o ∉ hoveredObjects (manager (processRaycast B s w))).
Proof.
  intros Hs Hpre Ha Hh w1 Hhandled Hstopped o Ho.
  rewrite fmap_app, fmap_cons in Ho. apply not_elem_of_app in Ho as [Ho1 Ho2].
  apply not_elem_of_cons in Ho2 as [Hne _].
  destruct (processRaycast_trace s w) as (tr3 & Htr3 & Ho3).
  assert (enter_loop B s (hoverRaycast s) w = (fire B a (enter_event s i) w1).2) as He.
  { rewrite Hs, enter_loop_app, Hpre. simpl.
    rewrite Ha, bool_decide_eq_false_2 by done. fold w1.
    unfold enter_event in *.
    destruct (fire B a _ w1) as [[ev' b] w3]. simpl in *. by rewrite Hhandled, Hstopped. }
  rewrite He in Htr3.
  destruct (fire_trace B a (enter_event s i) w1) as (tr1 & Htr1 & Hd1).
  destruct (enter_loop_visits s pre w) as (tr0 & visited & Htr0 & Hsub & Hd0).
  split.
  - rewrite (new_entries_app _ _ (tr0 ++ LDispatch a (enter_event s i) :: tr1 ++ tr3)).
    + rewrite fired_app, fired_cons_dispatch, fired_app.
      rewrite (fired_enter_visited s o visited tr0 Hd0).
      * rewrite (fired_no_dispatch _ _ tr1 Hd1).
        rewrite (only_fired _ pointerenter o tr3 Ho3) by done.
        rewrite decide_False; [done|]. intros [_ Ht]. by apply Hne.
      * intros Hin. apply Ho1. apply list_elem_of_fmap in Hin as (j & -> & Hj).
        apply list_elem_of_fmap. exists j. split; [done|].
        by eapply elem_of_sublist.
    + rewrite Htr3, Htr1. unfold w1. simpl. rewrite Htr0. by rewrite <- !app_assoc.
  - intros Hw. unfold processRaycast. apply leave_loop_shrinks. rewrite He.
    apply (fire_stable B _ a (enter_event s i) w1 (not_hovered_stable B o) (λ H, H)).
    unfold w1. simpl. rewrite elem_of_app, list_elem_of_singleton.
    intros [Hin|?]; [|done]. revert Hin. by apply enter_loop_not_hovered.
Qed.


End HoverOrder.

(** * The claims *)

(** C1.  [onClick], [onPointerMove], [onPointerDown] and [onPointerUp] run the
    same loop over the hits, nearest first.  The event built for a hit is
    new: it has the type of the entry point, the hit object as target, and is
    not stopped.  A hit whose object has no wrapper is passed over; a hit
    whose object has one receives the event, and the loop halts as soon as
    the event comes back stopped, whatever hits remain.  The events handed
    out are those of a subsequence of the hits, in the order of the hits.  In
    particular, when the first handler of the nearest object stops
    propagation, that handler is called and nothing is dispatched to any
    farther object. *)
Theorem ordered_dispatch B p s i rest w :
  let ev := phase_event p s i in
  (onClick B s w = phase_loop B Click s (raycast s) (updatePointer (event s) w).2
   ∧ onPointerDown B s w = phase_loop B Down s (raycast s) (updatePointer (event s) w).2
   ∧ onPointerUp B s w =
       set_activeObject None
         (phase_loop B Up s (raycast s) (set_dragObject None (updatePointer (event s) w).2))
   ∧ onPointerMove B s w =
       let d := (updatePointer (event s) w).1 in
       processRaycast B s
         (phase_loop B (Move d) s (raycast s)
            (drag_step B s d (updatePointer (event s) w).2)))
  ∧ (type ev = phase_type p ∧ target ev = object i ∧ intersection ev = i
     ∧ stopped ev = false)
  ∧ phase_loop B p s [] w = w
  ∧ (interactables (manager w) !! object i = None →
       phase_loop B p s (i :: rest) w = phase_loop B p s rest w)
  ∧ (∀ a, interactables (manager w) !! object i = Some a →
       let w1 := phase_after p i (fire B a ev w).2 in
       phase_loop B p s (i :: rest) w =
         if stopped (fire B a ev w).1.1 then w1 else phase_loop B p s rest w1)
  ∧ (∃ visited, visited `sublist_of` (i :: rest)
       ∧ (dispatched (new_entries w (phase_loop B p s (i :: rest) w))).*2
         = phase_event p s <$> visited)
  ∧ (∀ a r h l, interactables (manager w) !! object i = Some a →
       handlers_of w a (phase_type p) = Some r →
       array_at w r = h :: l →
       existsb stops (B h) = true →
       ∃ tr, new_entries w (phase_loop B p s (i :: rest) w)
               = LDispatch a ev :: LCall h ev :: tr
             ∧ dispatched tr = []).
Proof.
  intros ev.
  assert (∀ i w, trace (phase_after p i w) = trace w) as Hafter by by destruct p.
  assert (type ev = phase_type p) as Hty by by destruct p.
  split_and!.
  - unfold onClick. by destruct (updatePointer (event s) w) as [[dx dy] w1].
  - unfold onPointerDown. by destruct (updatePointer (event s) w) as [[dx dy] w1].
  - unfold onPointerUp. by destruct (updatePointer (event s) w) as [[dx dy] w1].
  - unfold onPointerMove. by destruct (updatePointer (event s) w) as [[dx dy] w1].
  - done.
  - by destruct p.
  - by destruct p.
  - by destruct p.
  - by destruct p.
  - intros Hnone. rewrite !phase_loop_ordered. simpl. by rewrite Hnone.
  - intros a Ha w1. subst w1. rewrite !phase_loop_ordered. simpl. rewrite Ha. fold ev.
    destruct (fire B a ev w) as [[ev' b] w']. reflexivity.
  - rewrite phase_loop_ordered.
    destruct (ordered_loop_visits B (phase_event p s) (phase_after p) (i :: rest) w Hafter)
      as (tr & visited & Htr & Hsub & Hd).
    exists visited. rewrite (new_entries_app _ _ _ Htr). by split.
  - intros a r h l Ha Hr Hl Hstop. rewrite phase_loop_ordered. simpl. rewrite Ha. fold ev.
    unfold fire.
    destruct (dispatchEvent_first B a ev (record (LDispatch a ev) w) r h l)
      as [(tr & Htr & Hd) Hs]; [by rewrite Hty|done|].
    specialize (Hs Hstop).
    destruct (dispatchEvent B a ev (record (LDispatch a ev) w)) as [[ev' b] w'].
    simpl in *. rewrite Hs. exists tr. split; [|done].
    apply new_entries_app. rewrite Hafter, Htr. by rewrite <- app_assoc.
Qed.

Lemma ordered_dispatch_witness :
  let s := sample at_origin [hit 7; hit 8] in
  let ev := newInteractEvent click 7 (hit 7) at_origin in
  interactables (manager near_far) !! 7 = Some 0
  ∧ handlers_of near_far 0 click = Some 0
  ∧ array_at near_far 0 = [1]
  ∧ array_at near_far 1 = [2]
  ∧ existsb stops (delta_then_stop 1) = true
  ∧ ∃ tr, new_entries near_far
            (phase_loop delta_then_stop Click s [hit 7; hit 8] near_far)
          = LDispatch 0 ev :: LCall 1 ev :: tr
          ∧ dispatched tr = [].
Proof.
  intros s ev.
  assert (interactables (manager near_far) !! object (hit 7) = Some 0) as H1 by reflexivity.
  assert (handlers_of near_far 0 (phase_type Click) = Some 0) as H2 by reflexivity.
  assert (array_at near_far 0 = [1]) as H3 by reflexivity.
  assert (existsb stops (delta_then_stop 1) = true) as H4 by reflexivity.
  split_and!; [exact H1|exact H2|exact H3|reflexivity|exact H4|].
  exact (proj2 (proj2 (proj2 (proj2 (proj2 (proj2
           (ordered_dispatch delta_then_stop Click s (hit 7) [hit 8] near_far))))))
           0 0 1 [] H1 H2 H3 H4).
Defined.

(** C2 (as amended).  [onPointerDown] records the drag target and the active
    target after every dispatch of its loop, each time as the object just
    dispatched to.  The hits that receive [pointerdown] are a subsequence of
    the hit list; after the call both targets are the object of the last of
    them, and the state is only changed by the pointer update when there is
    none.  The targets are the nearest hit object when it is registered and
    is the only hit, or when its first handler stops propagation. *)
Theorem pointerdown_targets B s w :
  let w' := onPointerDown B s w in
  (∃ visited,
     visited `sublist_of` raycast s
     ∧ (dispatched (new_entries w w')).*2 = phase_event Down s <$> visited
     ∧ match last visited with
       | None => w' = (updatePointer (event s) w).2
       | Some i =>
           dragObject (manager w') = Some (object i)
           ∧ activeObject (manager w') = Some (object i)
       end)
  ∧ (∀ i a, raycast s = [i] →
       interactables (manager w) !! object i = Some a →
       dragObject (manager w') = Some (object i)
       ∧ activeObject (manager w') = Some (object i))
  ∧ (∀ i rest a r h l, raycast s = i :: rest →
       interactables (manager w) !! object i = Some a →
       handlers_of w a pointerdown = Some r →
       array_at w r = h :: l →
       existsb stops (B h) = true →
       dragObject (manager w') = Some (object i)
       ∧ activeObject (manager w') = Some (object i)).
Proof.
  intros w'. subst w'. unfold onPointerDown.
  destruct (updatePointer (event s) w) as [[dx dy] w1] eqn:E.
  assert (trace w1 = trace w ∧ interactables (manager w1) = interactables (manager w)
          ∧ arrays w1 = arrays w ∧ wrappers w1 = wrappers w) as (Ht & Hi & Ha & Hw).
  { unfold updatePointer in E. by injection E as <- <- <-. }
  split_and!.
  - destruct (down_loop_visited B s (raycast s) w1) as (tr & visited & Htr & Hsub & Hd & Hl).
    exists visited. rewrite Ht in Htr. rewrite (new_entries_app _ _ _ Htr). by split_and!.
  - intros i a Hs Hreg. pose proof (pointerdown_single B s w i a Hs Hreg) as H.
    unfold onPointerDown in H. by rewrite E in H.
  - intros i rest a r h l -> Hreg Hr Hl Hstop.
    change (down_loop B s) with (phase_loop B Down s). rewrite phase_loop_ordered.
    destruct (ordered_loop_first_stops B (phase_event Down s) (phase_after Down)
                i rest w1 a r h l) as (w2 & tr & -> & _); try done.
    + by rewrite Hi.
    + unfold handlers_of. by rewrite Hw.
    + unfold array_at. by rewrite Ha.
Qed.

Lemma pointerdown_targets_witness :
  let s := sample at_origin [hit 7] in
  raycast s = [hit 7]
  ∧ interactables (manager near_far) !! object (hit 7) = Some 0
  ∧ dragObject (manager (onPointerDown plain s near_far)) = Some 7
  ∧ activeObject (manager (onPointerDown plain s near_far)) = Some 7.
Proof.
  intros s.
  assert (raycast s = [hit 7]) as H1 by reflexivity.
  assert (interactables (manager near_far) !! object (hit 7) = Some 0) as H2 by reflexivity.
  split_and!; [exact H1|exact H2|..];
    apply (proj1 (proj2 (pointerdown_targets plain s near_far)) (hit 7) 0 H1 H2).
Defined.

Lemma pointerdown_records_farthest :
  let s := sample at_origin [hit 7; hit 8] in
  let w' := onPointerDown plain s near_far in
  interactables (manager near_far) !! 7 = Some 0
  ∧ interactables (manager near_far) !! 8 = Some 1
  ∧ dragObject (manager w') = Some 8
  ∧ activeObject (manager w') = Some 8.
Proof. by vm_compute. Qed.

(** C3 (as amended).  [dispatchEvent] walks the live handler array by index,
    with the length it had when the dispatch started; it takes no copy.
    Every handler that was in the array at that moment is called exactly
    once, in order, provided no handler of the array removes a single handler
    with [off(type, h)] during the dispatch.  Handlers may remove the whole
    type ([off(type)], [removeAll()]) or register handlers meanwhile: the
    dispatch then runs as it would on a copy of the array. *)
Theorem dispatchEvent_live_array B a ev w r :
  store_wf w →
  handlers_of w a (type ev) = Some r →
  forallb (no_splice B) (array_at w r) = true →
  called (new_entries w (dispatchEvent B a ev w).2) = array_at w r
  ∧ ((dispatchEvent B a ev w).1.1, (dispatchEvent B a ev w).2)
    = call_all B (array_at w r) (ev, w).
Proof.
  intros Hwf Hr Hq. destruct (Hwf a (type ev) r Hr) as (Hlt & _).
  rewrite (dispatchEvent_snapshot B a ev w r Hr Hlt Hq). simpl.
  destruct (call_all_trace B (array_at w r) ev w) as (tr & Htr & Hc & _).
  rewrite (new_entries_app _ _ _ Htr). split; [done|].
  by destruct (call_all B (array_at w r) (ev, w)).
Qed.

Lemma dispatchEvent_live_array_witness :
  let w := on 0 click 2 (on 0 click 1 (on 0 click 0 one_object)) in
  let ev := newInteractEvent click 7 (hit 7) at_origin in
  store_wf w
  ∧ handlers_of w 0 (type ev) = Some 0
  ∧ forallb (no_splice clear_clicks) (array_at w 0) = true
  ∧ handlers_of (dispatchEvent clear_clicks 0 ev w).2 0 click = None
  ∧ called (new_entries w (dispatchEvent clear_clicks 0 ev w).2) = [0; 1; 2].
Proof.
  intros w ev.
  assert (store_wf w) as H0.
  { apply store_wf_on, store_wf_on, store_wf_on, store_wf_add, store_wf_initial. }
  assert (handlers_of w 0 (type ev) = Some 0) as H1 by reflexivity.
  assert (forallb (no_splice clear_clicks) (array_at w 0) = true) as H3 by reflexivity.
  split_and!; [exact H0|exact H1|exact H3|reflexivity|].
  exact (proj1 (dispatchEvent_live_array clear_clicks 0 ev w 0 H0 H1 H3)).
Defined.

Lemma dispatchEvent_skips_after_self_removal :
  let w := on 0 click 2 (on 0 click 1 (on 0 click 0 one_object)) in
  let ev := newInteractEvent click 7 (hit 7) at_origin in
  handlers_of w 0 (type ev) = Some 0
  ∧ array_at w 0 = [0; 1; 2]
  ∧ called (new_entries w (dispatchEvent once 0 ev w).2) = [0; 2].
Proof. by vm_compute. Qed.







(** C6 (as amended).  [dispatchEvent] on a type that has no entry returns
    [false] and changes nothing.  On a type that has an entry, and as long as
    no handler of that entry removes a single handler with [off(type, h)]
    while the dispatch runs, it calls every handler of the entry in
    registration order, each one receiving the event as the previous one left
    it, and returns [true]. *)
Theorem dispatchEvent_contract B a ev w :
  store_wf w →
  (∀ r, handlers_of w a (type ev) = Some r →
        forallb (no_splice B) (array_at w r) = true) →
  match handlers_of w a (type ev) with
  | None => dispatchEvent B a ev w = (ev, false, w)
  | Some r =>
      dispatchEvent B a ev w =
        ((call_all B (array_at w r) (ev, w)).1, true,
         (call_all B (array_at w r) (ev, w)).2)
      ∧ called (new_entries w (dispatchEvent B a ev w).2) = array_at w r
  end.
Proof.
  intros Hwf Hquiet. destruct (handlers_of w a (type ev)) as [r|] eqn:Hr.
  - destruct (Hwf a (type ev) r Hr) as (Hlt & Hne & _).
    pose proof (Hquiet r eq_refl) as Hq.
    rewrite (dispatchEvent_snapshot B a ev w r Hr Hlt Hq).
    rewrite bool_decide_eq_true_2 by done. split; [done|]. simpl.
    destruct (call_all_trace B (array_at w r) ev w) as (tr & Htr & Hc & _).
    by rewrite (new_entries_app _ _ _ Htr).
  - unfold dispatchEvent. by rewrite Hr.
Qed.

Lemma dispatchEvent_contract_witness :
  let w := on 0 click 1 (on 0 click 0 one_object) in
  let ev := newInteractEvent click 7 (hit 7) at_origin in
  store_wf w
  ∧ handlers_of w 0 click = Some 0
  ∧ forallb (no_splice delta_then_stop) (array_at w 0) = true
  ∧ (dispatchEvent delta_then_stop 0 ev w).1
    = (stopPropagation (set_delta 3 4 ev), true)
  ∧ called (new_entries w (dispatchEvent delta_then_stop 0 ev w).2) = [0; 1].
Proof.
  intros w ev.
  assert (store_wf w) as Hwf.
  { apply store_wf_on, store_wf_on, store_wf_add, store_wf_initial. }
  assert (∀ r, handlers_of w 0 (type ev) = Some r →
               forallb (no_splice delta_then_stop) (array_at w r) = true) as Hq.
  { intros r Hr. vm_compute in Hr. by injection Hr as <-. }
  pose proof (dispatchEvent_contract delta_then_stop 0 ev w Hwf Hq) as H.
  change (handlers_of w 0 (type ev)) with (Some 0) in H.
  destruct H as [H1 H2]. split_and!; [exact Hwf|reflexivity|reflexivity| |exact H2].
  rewrite H1. reflexivity.
Defined.

Lemma dispatchEvent_once_returns_false :
  let w := on 0 click 0 one_object in
  let ev := newInteractEvent click 7 (hit 7) at_origin in
  handlers_of w 0 (type ev) = Some 0
  ∧ array_at w 0 = [0]
  ∧ called (new_entries w (dispatchEvent once 0 ev w).2) = [0]
  ∧ (dispatchEvent once 0 ev w).1.2 = false.
Proof. by vm_compute. Qed.

(** C7 (as amended).  [remove] takes the object out of the registry and of the
    hover set, clears the drag target and the active target when they are
    that object, leaves the other objects as they are and dispatches nothing.
    That the drag target and the active target, when present, have a wrapper
    holds initially and is kept by [add], [remove], [onClick],
    [onPointerMove] and [onPointerUp], and by [onPointerDown] when no handler
    calls [remove]; it then holds in every reachable state.  After the
    removal of the drag target, [onPointerMove] and [onPointerUp] run to
    their end, dispatch no [drag] event and leave no drag target. *)
Theorem remove_contract B o w :
  let w' := remove o w in
  (interactables (manager w') !! o = None
   ∧ (o ∉ hoveredObjects (manager w'))
   ∧ (∀ o', o' ≠ o →
        interactables (manager w') !! o' = interactables (manager w) !! o'
        ∧ (o' ∈ hoveredObjects (manager w') ↔ o' ∈ hoveredObjects (manager w)))
   ∧ (dragObject (manager w) = Some o → dragObject (manager w') = None)
   ∧ (dragObject (manager w) ≠ Some o → dragObject (manager w') = dragObject (manager w))
   ∧ (activeObject (manager w) = Some o → activeObject (manager w') = None)
   ∧ (activeObject (manager w) ≠ Some o →
        activeObject (manager w') = activeObject (manager w))
   ∧ trace w' = trace w ∧ arrays w' = arrays w ∧ wrappers w' = wrappers w)
  ∧ (targets_registered initial
     ∧ (targets_registered w →
          targets_registered w'
          ∧ targets_registered (add o w).2
          ∧ (∀ s, targets_registered (onClick B s w)
                  ∧ targets_registered (onPointerMove B s w)
                  ∧ targets_registered (onPointerUp B s w)
                  ∧ ((∀ h, no_remove B h = true) →
                       targets_registered (onPointerDown B s w))))
     ∧ ((∀ h, no_remove B h = true) → ∀ u, reachable B u → targets_registered u))
  ∧ (dragObject (manager w) = Some o → ∀ s,
       of_type drag (dispatched (new_entries w' (onPointerMove B s w'))) = []
       ∧ of_type drag (dispatched (new_entries w' (onPointerUp B s w'))) = []
       ∧ dragObject (manager (onPointerMove B s w')) = None
       ∧ dragObject (manager (onPointerUp B s w')) = None).
Proof.
  intros w'. subst w'. split_and!.
  - simpl. apply lookup_delete_eq.
  - simpl. rewrite list_elem_of_filter. by intros [? _].
  - intros o' Hne. simpl. split; [by rewrite lookup_delete_ne|].
    rewrite list_elem_of_filter. split; [by intros [_ ?]|by intros ?; split].
  - intros Hd. simpl. unfold clear_if. by rewrite decide_True.
  - intros Hd. simpl. unfold clear_if. by rewrite decide_False.
  - intros Hd. simpl. unfold clear_if. by rewrite decide_True.
  - intros Hd. simpl. unfold clear_if. by rewrite decide_False.
  - done.
  - done.
  - done.
  - by split.
  - intros HT. split_and!.
    + by apply targets_registered_remove.
    + by apply targets_registered_add.
    + intros s.
      destruct (entry_points_inv B targets_registered s w) as (H1 & H2 & H3); try done.
      * apply targets_registered_stable.
      * intros w0 [Hd Ha]. by split.
      * intros w0 [Hd Ha]. by split.
      * split_and!; [done..|]. intros HB. by apply pointerdown_targets_registered.
  - intros HB u Hu. by apply (reachable_targets_registered B).
  - intros Hd s.
    assert (dragObject (manager (remove o w)) = None) as Hnone.
    { simpl. unfold clear_if. by rewrite decide_True. }
    destruct (entry_points_inv B (λ w0, dragObject (manager w0) = None) s (remove o w))
      as (_ & H2 & H3); try done; [apply no_drag_stable|].
    split_and!; [by apply pointermove_no_drag|apply pointerup_no_drag|done|done].
Qed.

Lemma remove_contract_witness :
  let w := onPointerDown plain (sample at_origin [hit 7]) draggable in
  let s := sample {| clientX := 5; clientY := 10 |} [hit 7] in
  dragObject (manager w) = Some 7
  ∧ of_type drag (dispatched (new_entries (remove 7 w) (onPointerMove plain s (remove 7 w))))
    = []
  ∧ dragObject (manager (onPointerMove plain s (remove 7 w))) = None.
Proof.
  intros w s.
  assert (dragObject (manager w) = Some 7) as H1 by reflexivity.
  destruct (proj2 (proj2 (remove_contract plain 7 w)) H1 s) as (H2 & _ & H3 & _).
  split_and!; [exact H1|exact H2|exact H3].
Defined.

Lemma pointerdown_handler_removes_target :
  let s := sample at_origin [hit 7] in
  let w' := onPointerDown remover s self_removing in
  targets_registered self_removing
  ∧ dragObject (manager w') = Some 7
  ∧ activeObject (manager w') = Some 7
  ∧ interactables (manager w') !! 7 = None
  ∧ ¬ targets_registered w'.
Proof.
  intros s w'.
  assert (dragObject (manager w') = Some 7) as Hd by by vm_compute.
  assert (interactables (manager w') !! 7 = None) as Hi by by vm_compute.
  split_and!; [by split|done|by vm_compute|done|].
  intros [HT _]. specialize (HT 7 Hd). rewrite Hi in HT. by destruct HT.
Qed.

(** C8.  [add] is idempotent on the identity of the object: the second of two
    calls returns the wrapper of the first and changes nothing, and an object
    that has a wrapper gets that wrapper back.  After [remove], [add] returns
    a wrapper at an address that was never used, different from the old one
    and with no handlers; the old wrapper keeps what it had. *)
Theorem add_contract o w :
  wrappers_wf w →
  add o (add o w).2 = add o w
  ∧ (∀ a, interactables (manager w) !! o = Some a → add o w = (a, w))
  ∧ (∀ a, interactables (manager w) !! o = Some a →
       let a' := (add o (remove o w)).1 in
       let w' := (add o (remove o w)).2 in
       a' ≠ a
       ∧ wrappers w !! a' = None
       ∧ wrappers w' !! a' = Some {| getObject := o; eventHandlers := ∅ |}
       ∧ (∀ ty, handlers_of w' a' ty = None)
       ∧ wrappers w' !! a = wrappers w !! a
       ∧ interactables (manager w') !! o = Some a')
  ∧ wrappers_wf (add o w).2
  ∧ wrappers_wf (remove o w).
Proof.
  intros [Hi Hw]. split_and!.
  - unfold add at 2 3. destruct (interactables (manager w) !! o) as [a|] eqn:E.
    + simpl. unfold add. by rewrite E.
    + simpl. unfold add. simpl. by rewrite lookup_insert_eq.
  - intros a Ha. unfold add. by rewrite Ha.
  - intros a Ha a' w'. subst a' w'. unfold add. simpl. rewrite lookup_delete_eq. simpl.
    assert (wrappers w !! next_wrapper w = None) as Hnone.
    { destruct (wrappers w !! next_wrapper w) eqn:E; [|done].
      assert (next_wrapper w < next_wrapper w); [|lia]. by apply Hw. }
    pose proof (Hi o a Ha) as Hlt.
    split_and!.
    + lia.
    + done.
    + by rewrite lookup_insert_eq.
    + intros ty. unfold handlers_of. simpl. by rewrite lookup_insert_eq.
    + rewrite lookup_insert_ne; [done|lia].
    + by rewrite lookup_insert_eq.
  - by apply wrappers_wf_add.
  - by apply wrappers_wf_remove.
Qed.

Lemma add_contract_witness :
  let w := on 0 click 1 one_object in
  wrappers_wf w
  ∧ add 7 w = (0, w)
  ∧ (add 7 (remove 7 w)).1 = 1
  ∧ handlers_of w 0 click = Some 0
  ∧ handlers_of (add 7 (remove 7 w)).2 1 click = None.
Proof.
  intros w.
  assert (wrappers_wf w) as Hwf.
  { apply wrappers_wf_on, wrappers_wf_add, wrappers_wf_initial. }
  pose proof (add_contract 7 w Hwf) as (_ & H2 & H3 & _).
  specialize (H2 0 eq_refl). specialize (H3 0 eq_refl).
  destruct H3 as (_ & _ & _ & H3 & _).
  split_and!; [exact Hwf|exact H2|reflexivity|reflexivity|apply H3].
Defined.

(** C9 (as amended).  [off(type)] removes the entry of the type and leaves the
    other types alone; a dispatch of the type then returns [false] and
    changes nothing.  [off(type, h)] changes nothing when the type has no
    entry; otherwise it removes from the array the first element that is
    [h] and nothing else, and removes the entry when the array becomes
    empty.  A later dispatch of the type, none of whose handlers removes a
    single handler while it runs, calls what is left of the array: [h] is no
    longer called if it was registered once (a handler registered several
    times loses one call), and every other handler is called as often as
    before.  After the removal of the last handler the dispatch returns
    [false] and changes nothing, as for a type that was never registered. *)
Theorem off_contract B a ty h w :
  store_wf w →
  let w1 := off a ty None w in
  let w2 := off a ty (Some h) w in
  (handlers_of w1 a ty = None
   ∧ (∀ ty', ty' ≠ ty → handlers_of w1 a ty' = handlers_of w a ty')
   ∧ ∀ ev, type ev = ty → dispatchEvent B a ev w1 = (ev, false, w1))
  ∧ (handlers_of w a ty = None → w2 = w)
  ∧ ∀ r, handlers_of w a ty = Some r →
      let l := array_at w r in
      (array_at w2 r = splice_out h l
       ∧ (∀ l1 l2, l = l1 ++ h :: l2 → h ∉ l1 → splice_out h l = l1 ++ l2)
       ∧ (h ∉ l → splice_out h l = l)
       ∧ handlers_of w2 a ty = (if decide (splice_out h l = []) then None else Some r)
       ∧ ∀ ty', ty' ≠ ty → handlers_of w2 a ty' = handlers_of w a ty')
      ∧ ∀ ev, type ev = ty →
          (forallb (no_splice B) (splice_out h l) = true →
           let tr := new_entries w2 (dispatchEvent B a ev w2).2 in
           called tr = splice_out h l
           ∧ (occurrences h l ≤ 1 → h ∉ called tr)
           ∧ (∀ h', h' ≠ h → occurrences h' (called tr) = occurrences h' l))
          ∧ (l = [h] → dispatchEvent B a ev w2 = (ev, false, w2)).
Proof.
  intros Hwf w1 w2.
  assert (handlers_of w1 a ty = None) as Hw1.
  { unfold w1. by rewrite off_all_handlers, decide_True. }
  split; [|split].
  - split_and!.
    + done.
    + intros ty' Hne. unfold w1. by rewrite off_all_handlers, decide_False.
    + intros ev Hty. unfold dispatchEvent. by rewrite Hty, Hw1.
  - intros Hn. unfold w2, off. by rewrite Hn.
  - intros r Hr l. destruct (Hwf a ty r Hr) as (Hlt & _).
    assert (handlers_of w2 a ty = if decide (splice_out h l = []) then None else Some r)
      as Hw2.
    { unfold w2. rewrite (off_one_handlers a ty ty h w r Hr), Hr.
      fold l. destruct (decide (splice_out h l = [])); [by rewrite decide_True|].
      rewrite decide_False; [done|]. by intros [_ ?]. }
    split.
    + split_and!.
      * by apply off_one_array.
      * intros l1 l2 -> Hn. by apply splice_out_first.
      * apply splice_out_absent.
      * done.
      * intros ty' Hne. unfold w2. rewrite (off_one_handlers a ty ty' h w r Hr).
        rewrite decide_False; [done|]. by intros [? _].
    + intros ev Hty. split.
      * intros Hq tr.
        assert (called tr = splice_out h l) as Hc.
        { unfold tr. destruct (decide (splice_out h l = [])) as [Hnil|Hnil].
          - unfold dispatchEvent. rewrite Hty, Hw2. simpl.
            unfold new_entries. by rewrite drop_all, Hnil.
          - assert (array_at w2 r = splice_out h l) as Ha by by apply off_one_array.
            rewrite <- Hty in Hw2.
            rewrite (dispatchEvent_snapshot B a ev w2 r); simpl.
            + destruct (call_all_trace B (array_at w2 r) ev w2) as (tr0 & Htr0 & Hc0 & _).
              by rewrite (new_entries_app _ _ _ Htr0), Hc0.
            + done.
            + unfold w2. by rewrite off_next_array.
            + by rewrite Ha. }
        split_and!.
        -- done.
        -- intros Hocc. rewrite Hc. apply occurrences_zero.
           rewrite occurrences_splice_out_same. lia.
        -- intros h' Hne. rewrite Hc. by apply occurrences_splice_out_other.
      * intros Hl. unfold dispatchEvent. rewrite Hty, Hw2.
        rewrite Hl, splice_out_cons.
        destruct (decide (h = h)); [|done]. by destruct (decide (@nil nat = [])).
Qed.

Lemma off_contract_witness :
  let w := on 0 click 1 (on 0 click 0 one_object) in
  let w2 := off 0 click (Some 0) w in
  let ev := newInteractEvent click 7 (hit 7) at_origin in
  store_wf w
  ∧ handlers_of w 0 click = Some 0
  ∧ forallb (no_splice plain) (splice_out 0 (array_at w 0)) = true
  ∧ called (new_entries w2 (dispatchEvent plain 0 ev w2).2) = [1]
  ∧ off 0 drag (Some 0) w = w.
Proof.
  intros w w2 ev.
  assert (store_wf w) as H0.
  { apply store_wf_on, store_wf_on, store_wf_add, store_wf_initial. }
  assert (handlers_of w 0 click = Some 0) as H1 by reflexivity.
  assert (forallb (no_splice plain) (splice_out 0 (array_at w 0)) = true) as H3
    by reflexivity.
  assert (handlers_of w 0 drag = None) as H4 by reflexivity.
  split_and!; [exact H0|exact H1|exact H3| |].
  - exact (proj1 (proj1 (proj2 (proj2 (proj2 (off_contract plain 0 click 0 w H0)) 0 H1)
                           ev eq_refl) H3)).
  - exact (proj1 (proj2 (off_contract plain 0 drag 0 w H0)) H4).
Defined.

Lemma off_then_dispatch_counterexamples :
  (let w := on 0 click 5 (on 0 click 5 one_object) in
   let w2 := off 0 click (Some 5) w in
   let ev := newInteractEvent click 7 (hit 7) at_origin in
   array_at w 0 = [5; 5]
   ∧ called (new_entries w2 (dispatchEvent plain 0 ev w2).2) = [5])
  ∧ (let w := on 0 click 2 (on 0 click 1 (on 0 click 9 one_object)) in
     let w2 := off 0 click (Some 9) w in
     let ev := newInteractEvent click 7 (hit 7) at_origin in
     array_at w 0 = [9; 1; 2]
     ∧ array_at w2 0 = [1; 2]
     ∧ called (new_entries w2 (dispatchEvent leaves_once 0 ev w2).2) = [1]).
Proof. by vm_compute. Qed.

(** C10 (as amended).  Let the hover loop reach a hit whose object is
    registered and new to the hover set.  If the dispatch of
    [pointerenter] to it reports handlers (returns [true]) and leaves the
    event stopped, then an object behind it in the hit list that was not in
    the hover set, and is not the object of a hit up to there, receives no
    [pointerenter] in this sample and is not in the hover set afterwards.
    So, on a later sample that finds it still outside the hover set, if it
    is hit and is registered when the loop reaches its first hit, without
    having ended before, it is new to the hover set and receives
    [pointerenter]. *)
Theorem hover_enter_stop B s w pre i post a :
  hoverRaycast s = pre ++ i :: post →
  enter_halts B s pre w = false →
  interactables (manager (enter_loop B s pre w)) !! object i = Some a →
  object i ∉ hoveredObjects (manager (enter_loop B s pre w)) →
  let w1 := set_hoveredObjects (λ l, l ++ [object i]) (enter_loop B s pre w) in
  let w' := processRaycast B s w in
  (fire B a (enter_event s i) w1).1.2 = true →
  stopped (fire B a (enter_event s i) w1).1.1 = true →
  ∀ j, j ∈ post → object j ∉ object <$> (pre ++ [i]) →
       object j ∉ hoveredObjects (manager w) →
    fired pointerenter (object j) (new_entries w w') = 0
    ∧ (object j ∉ hoveredObjects (manager w'))
    ∧ (∀ u s2 pre2 j2 post2 b,
         object j ∉ hoveredObjects (manager u) →
         hoverRaycast s2 = pre2 ++ j2 :: post2 →
         object j2 = object j →
         object j ∉ object <$> pre2 →
         enter_halts B s2 pre2 u = false →
         interactables (manager (enter_loop B s2 pre2 u)) !! object j = Some b →
         (object j ∉ hoveredObjects (manager (enter_loop B s2 pre2 u)))
         ∧ ∃ tr, new_entries u (processRaycast B s2 u)
                 = new_entries u (enter_loop B s2 pre2 u)
                   ++ LDispatch b (enter_event s2 j2) :: tr).
Proof.
  intros Hs Hpre Ha Hh w1 w' Hhandled Hstopped j Hj Hfresh Hjh.
  destruct (processRaycast_halts_at B s w pre i post a Hs Hpre Ha Hh Hhandled Hstopped
              (object j) Hfresh) as [Hf Hout].
  specialize (Hout Hjh). fold w' in Hf, Hout.
  split_and!; [done|done|].
  intros u s2 pre2 j2 post2 b Hu Hs2 Hj2 Hfresh2 Hpre2 Hb.
  assert (object j ∉ hoveredObjects (manager (enter_loop B s2 pre2 u))) as Hh2
    by by apply enter_loop_not_hovered.
  split; [done|].
  rewrite <- Hj2 in Hb, Hh2.
  by apply (processRaycast_reaches B s2 u pre2 j2 post2 b).
Qed.

Lemma hover_enter_stop_witness :
  let s := sample at_origin [hit 7; hit 8; hit 9] in
  let w' := processRaycast stop_second s hover_triple in
  let w'' := processRaycast stop_second s w' in
  enter_halts stop_second s [hit 7] hover_triple = false
  ∧ called (new_entries hover_triple w') = [5; 6]
  ∧ fired pointerenter 9 (new_entries hover_triple w') = 0
  ∧ (9 ∉ hoveredObjects (manager w'))
  ∧ ∃ tr, new_entries w' w''
          = new_entries w' (enter_loop stop_second s [hit 7; hit 8] w')
            ++ LDispatch 2 (enter_event s (hit 9)) :: tr.
Proof.
  intros s w' w''.
  assert (enter_halts stop_second s [hit 7] hover_triple = false) as H0 by reflexivity.
  assert (interactables (manager (enter_loop stop_second s [hit 7] hover_triple))
            !! object (hit 8) = Some 1) as H1 by reflexivity.
  assert (object (hit 8)
            ∉ hoveredObjects (manager (enter_loop stop_second s [hit 7] hover_triple)))
    as H2.
  { intros Hin. apply list_elem_of_In in Hin. vm_compute in Hin. lia. }
  assert (hit 9 ∈ [hit 9]) as H3 by apply list_elem_of_here.
  assert (object (hit 9) ∉ object <$> [hit 7] ++ [hit 8]) as H4.
  { intros Hin. apply list_elem_of_In in Hin. simpl in Hin. lia. }
  assert (object (hit 9) ∉ hoveredObjects (manager hover_triple)) as H4'.
  { intros Hin. by apply elem_of_nil in Hin. }
  destruct (hover_enter_stop stop_second s hover_triple [hit 7] (hit 8) [hit 9] 1
              eq_refl H0 H1 H2 eq_refl eq_refl (hit 9) H3 H4 H4') as (H5 & H6 & H7).
  split_and!; [exact H0|reflexivity|exact H5|exact H6|].
  assert (object (hit 9) ∉ object <$> [hit 7; hit 8]) as H8.
  { intros Hin. apply list_elem_of_In in Hin. simpl in Hin. lia. }
  by destruct (H7 w' s [hit 7; hit 8] (hit 9) [] 2 H6 eq_refl eq_refl H8 eq_refl eq_refl)
    as [_ H9].
Defined.

Lemma hover_enter_stop_counterexamples :
  (let s := sample at_origin [hit 7; hit 8] in
   let w' := processRaycast stop_once s hover_pair in
   let r := fire stop_once 0 (newInteractEvent pointerenter 7 (hit 7) at_origin)
              (set_hoveredObjects (λ l, l ++ [7]) hover_pair) in
   called (new_entries (set_hoveredObjects (λ l, l ++ [7]) hover_pair) r.2) = [5]
   ∧ stopped r.1.1 = true
   ∧ r.1.2 = false
   ∧ fired pointerenter 8 (new_entries hover_pair w') = 1
   ∧ hoveredObjects (manager w') = [7; 8])
  ∧ (let s := sample at_origin [hit 8; hit 9] in
     let s2 := sample at_origin [hit 7; hit 8; hit 9] in
     let w' := processRaycast remove_then_stop s hover_triple in
     let w'' := processRaycast remove_then_stop s2 w' in
     called (new_entries hover_triple w') = [6]
     ∧ hoveredObjects (manager w') = [8]
     ∧ interactables (manager w') !! 9 = Some 2
     ∧ called (new_entries w' w'') = [5]
     ∧ existsb stops (remove_then_stop 5) = false
     ∧ fired pointerenter 9 (new_entries w' w'') = 0
     ∧ hoveredObjects (manager w'') = [8; 7]).
Proof. by vm_compute. Qed.

(** * Further properties of the code *)

(** * Facts about the listeners *)

Section Sites.

Context (B : InteractEventHandler → list action) (P : world → Prop).

Lemma ordered_loop_sites mk after hits w :
  (∀ i a w', i ∈ hits → interactables (manager w') !! object i = Some a → P w' →
     P (after i (fire B a (mk i) w').2)) →
  P w → P (ordered_loop B mk after hits w).
Proof.
  revert w. induction hits as [|i rest IH]; intros w Hs HP; [done|].
  assert (∀ i0 a w', i0 ∈ rest → interactables (manager w') !! object i0 = Some a →
            P w' → P (after i0 (fire B a (mk i0) w').2)) as Hs'.
  { intros i0 a w' Hin. apply Hs. by apply list_elem_of_further. }
  simpl. destruct (interactables (manager w) !! object i) as [a|] eqn:E; [|by apply IH].
  pose proof (Hs i a w (list_elem_of_here _ _) E HP) as H.
  destruct (fire B a (mk i) w) as [[ev' b] w']. simpl in H.
  destruct (stopped ev'); [done|]. by apply IH.
Qed.

Lemma enter_loop_sites s hits w :
  (∀ i a w', i ∈ hits → interactables (manager w') !! object i = Some a →
     object i ∉ hoveredObjects (manager w') → P w' →
     P (fire B a (newInteractEvent pointerenter (object i) i (event s))
          (set_hoveredObjects (λ l, l ++ [object i]) w')).2) →
  P w → P (enter_loop B s hits w).
Proof.
  revert w. induction hits as [|i rest IH]; intros w Hs HP; [done|].
  assert (∀ i0 a w', i0 ∈ rest → interactables (manager w') !! object i0 = Some a →
            object i0 ∉ hoveredObjects (manager w') → P w' →
            P (fire B a (newInteractEvent pointerenter (object i0) i0 (event s))
                 (set_hoveredObjects (λ l, l ++ [object i0]) w')).2) as Hs'.
  { intros i0 a w' Hin. apply Hs. by apply list_elem_of_further. }
  simpl. destruct (interactables (manager w) !! object i) as [a|] eqn:E; [|by apply IH].
  case_bool_decide as Hh; [by apply IH|].
  pose proof (Hs i a w (list_elem_of_here _ _) E Hh HP) as H.
  destruct (fire B a _ _) as [[ev' b] w']. simpl in H.
  destruct (b && stopped ev'); [done|]. by apply IH.
Qed.

Lemma leave_loop_sites s (X : gset Object3D) keys w :
  (∀ o w', o ∈ hoveredObjects (manager w') → o ∉ X → P w' →
     P (set_hoveredObjects (filter (λ x, x ≠ o)) w')) →
  (∀ o a w', o ∉ X → o ∉ hoveredObjects (manager w') →
     interactables (manager w') !! o = Some a → P w' →
     P (fire B a (newInteractEvent pointerleave o (getIntersection s o) (event s)) w').2) →
  P w → P (leave_loop B s X keys w).
Proof.
  intros Hdel Hs. revert w. induction keys as [|o rest IH]; intros w HP; [done|].
  simpl. case_bool_decide as Hh; [|by apply IH].
  case_bool_decide as HX; [by apply IH|].
  set (w1 := set_hoveredObjects _ w).
  assert (P w1) as HP1 by by apply Hdel.
  assert (o ∉ hoveredObjects (manager w1)) as Ho1.
  { simpl. rewrite list_elem_of_filter. by intros [? _]. }
  change (interactables (manager w1)) with (interactables (manager w)).
  destruct (interactables (manager w) !! o) as [a|] eqn:E; [|by apply IH].
  pose proof (Hs o a w1 HX Ho1 E HP1) as H.
  destruct (fire B a _ w1) as [[ev' b] w']. simpl in H. by apply IH.
Qed.

(** A property holds after a listener has run when it holds where the loops
    begin and is kept by each step of the listener: a dispatch at one of its
    sites, a change of the hover set, the recording of the targets. *)
Lemma run_listener_sites k s w :
  let d := pointer_delta s w in
  (∀ w' a ev, site s d k w' a ev → P w' → P (fire B a ev w').2) →
  (k = OnPointerMove → ∀ i w', i ∈ hoverRaycast s →
     is_Some (interactables (manager w') !! object i) →
     object i ∉ hoveredObjects (manager w') → P w' →
     P (set_hoveredObjects (λ l, l ++ [object i]) w')) →
  (k = OnPointerMove → ∀ o w', o ∈ hoveredObjects (manager w') →
     o ∉ object <$> hoverRaycast s → P w' →
     P (set_hoveredObjects (filter (λ x, x ≠ o)) w')) →
  (k = OnPointerDown → ∀ i w', i ∈ raycast s → P w' → P (phase_after Down i w')) →
  (k = OnPointerUp → ∀ w', P w' → P (set_activeObject None w')) →
  P (listener_start k s w) →
  P (run_listener B k s w).
Proof.
  intros d Hsite Hins Hdel Hdown Hup2 HP. unfold listener_start in HP.
  destruct k; simpl; unfold onPointerMove, onClick, onPointerDown, onPointerUp.
  - (* pointermove *)
    change (updatePointer (event s) w)
      with (d.1, d.2, (updatePointer (event s) w).2).
    cbv iota beta. set (w1 := (updatePointer (event s) w).2) in *.
    assert (P (drag_step B s (d.1, d.2) w1)) as HP2.
    { unfold drag_step. destruct (dragObject (manager w1)) as [o|] eqn:Ed; [|done].
      destruct (interactables (manager w1) !! o) as [a|] eqn:Ea; [|done].
      apply Hsite; [|done]. by apply site_drag. }
    assert (P (move_loop B s (d.1, d.2) (raycast s) (drag_step B s (d.1, d.2) w1))) as HP3.
    { change (move_loop B s (d.1, d.2)) with (phase_loop B (Move (d.1, d.2)) s).
      rewrite phase_loop_ordered. apply ordered_loop_sites; [|done].
      intros i a w' Hin Ha HP'. simpl. apply Hsite; [|done]. by apply site_move. }
    unfold processRaycast. apply leave_loop_sites.
    + intros o w' Ho HX. apply Hdel; [done|done|].
      intros Hin. apply HX. by apply elem_of_list_to_set.
    + intros o a w' HX Ho Ha. apply Hsite. apply site_leave; [|done..].
      intros Hin. apply HX. by apply elem_of_list_to_set.
    + apply enter_loop_sites; [|done].
      intros i a w' Hin Ha Hh HP'. apply Hsite.
      * apply site_enter; [done|done|]. simpl. apply elem_of_app. right.
        by apply list_elem_of_singleton.
      * apply Hins; try done; by rewrite Ha.
  - (* click *)
    destruct (updatePointer (event s) w) as [[dx dy] w1] eqn:E. simpl in HP.
    change (click_loop B s) with (phase_loop B Click s).
    rewrite phase_loop_ordered. apply ordered_loop_sites; [|done].
    intros i a w' Hin Ha HP'. simpl. apply Hsite; [|done]. by apply site_click.
  - (* pointerdown *)
    destruct (updatePointer (event s) w) as [[dx dy] w1] eqn:E. simpl in HP.
    change (down_loop B s) with (phase_loop B Down s).
    rewrite phase_loop_ordered. apply ordered_loop_sites; [|done].
    intros i a w' Hin Ha HP'. apply Hdown; [done..|].
    apply Hsite; [|done]. by apply site_down.
  - (* pointerup *)
    destruct (updatePointer (event s) w) as [[dx dy] w1] eqn:E. simpl in HP.
    apply Hup2; [done|].
    change (up_loop B s) with (phase_loop B Up s).
    rewrite phase_loop_ordered. apply ordered_loop_sites; [|done].
    intros i a w' Hin Ha HP'. simpl. apply Hsite; [|done]. by apply site_up.
Qed.

End Sites.

(** * Facts about the registered handlers *)

Lemma store_wf_allocated w a ty r :
  store_wf w → handlers_of w a ty = Some r → is_Some (arrays w !! r).
Proof.
  intros HW Hr. destruct (HW a ty r Hr) as (_ & Hne & _).
  unfold array_at in Hne. destruct (arrays w !! r); [by eexists|done].
Qed.

Lemma listeners_nil w a ty :
  store_wf w → listeners w a ty = [] ↔ handlers_of w a ty = None.
Proof.
  intros HW. unfold listeners. destruct (handlers_of w a ty) as [r|] eqn:Hr; [|done].
  destruct (HW a ty r Hr) as (_ & Hne & _). by split.
Qed.

Lemma on_listeners a ty h w a' ty' :
  store_wf w → is_Some (wrappers w !! a) →
  listeners (on a ty h w) a' ty' =
    if decide (a' = a ∧ ty' = ty) then listeners w a ty ++ [h] else listeners w a' ty'.
Proof.
  intros HW Ha. unfold listeners. rewrite on_handlers.
  destruct (handlers_of w a ty) as [r0|] eqn:Hr0.
  - destruct (handlers_of w a' ty') as [r|] eqn:Hr.
    + rewrite on_array_at, Hr0.
      destruct (decide (a' = a ∧ ty' = ty)) as [[-> ->]|Hne].
      * assert (r = r0) as -> by congruence.
        rewrite decide_True; [done|]. split; [done|]. by eapply store_wf_allocated.
      * rewrite decide_False; [done|]. intros [E _]. subst r0.
        destruct (HW a ty r Hr0) as (_ & _ & Hun).
        destruct (Hun a' ty' Hr) as [-> ->]. by apply Hne.
    + rewrite decide_False; [done|]. intros [-> ->]. congruence.
  - destruct (decide (a' = a ∧ ty' = ty)) as [[-> ->]|Hne].
    + rewrite decide_True by done. rewrite on_array_at, Hr0.
      rewrite decide_True by done. by rewrite decide_True.
    + rewrite decide_False by (intros (? & ? & _); by apply Hne).
      destruct (handlers_of w a' ty') as [r|] eqn:Hr; [|done].
      rewrite on_array_at, Hr0. rewrite decide_False; [done|].
      destruct (HW a' ty' r Hr) as (Hlt & _). lia.
Qed.

Lemma off_one_listeners a ty h w a' ty' :
  store_wf w →
  listeners (off a ty (Some h) w) a' ty' =
    if decide (a' = a ∧ ty' = ty) then splice_out h (listeners w a ty)
    else listeners w a' ty'.
Proof.
  intros HW. unfold listeners.
  destruct (handlers_of w a ty) as [r0|] eqn:Hr0.
  - rewrite (off_one_handlers_gen a ty a' ty' h w r0 Hr0).
    destruct (decide (a' = a ∧ ty' = ty)) as [[-> ->]|Hne].
    + rewrite Hr0. destruct (decide (splice_out h (array_at w r0) = [])) as [Hnil|Hnil].
      * by rewrite decide_True.
      * rewrite decide_False by (by intros (_ & _ & ?)). by apply off_one_array.
    + rewrite decide_False by (intros (? & ? & _); by apply Hne).
      destruct (handlers_of w a' ty') as [r|] eqn:Hr; [|done].
      apply (off_one_other_arrays a ty h w r0 r Hr0). intros ->.
      destruct (HW a ty r0 Hr0) as (_ & _ & Hun).
      destruct (Hun a' ty' Hr) as [-> ->]. by apply Hne.
  - assert (off a ty (Some h) w = w) as ->.
    { unfold off. by rewrite Hr0. }
    case_decide as Hd; [|done]. destruct Hd as [-> ->]. by rewrite Hr0.
Qed.

Lemma off_all_listeners a ty w a' ty' :
  listeners (off a ty None w) a' ty' =
    if decide (a' = a ∧ ty' = ty) then [] else listeners w a' ty'.
Proof.
  unfold listeners.
  assert (handlers_of (off a ty None w) a' ty' =
            if decide (a' = a ∧ ty' = ty) then None else handlers_of w a' ty') as ->.
  { destruct (decide (a' = a)) as [->|Hne].
    - rewrite off_all_handlers. destruct (decide (ty = ty')) as [<-|Hty].
      + by rewrite decide_True.
      + rewrite decide_False; [done|]. by intros [_ ->].
    - unfold off. rewrite handlers_of_set_eventHandlers.
      rewrite decide_False by done. rewrite decide_False; [done|]. by intros [? _]. }
  by case_decide.
Qed.

Lemma removeAll_handlers a w a' ty :
  handlers_of (removeAll a w) a' ty = if decide (a' = a) then None else handlers_of w a' ty.
Proof.
  unfold removeAll. rewrite handlers_of_set_eventHandlers.
  destruct (decide (a = a')) as [<-|Hne].
  - rewrite decide_True by done. destruct (wrappers w !! a); simpl; [|done].
    by rewrite lookup_empty.
  - by rewrite decide_False.
Qed.

Lemma on_manager a ty h w : manager (on a ty h w) = manager w.
Proof.
  by apply (run_action_manager (AOn a ty h) (newInteractEvent ty 0 (hit 0) at_origin) w).
Qed.

Lemma on_trace a ty h w : trace (on a ty h w) = trace w.
Proof.
  by apply (run_action_trace (AOn a ty h) (newInteractEvent ty 0 (hit 0) at_origin) w).
Qed.

Lemma on_wrapper a ty h w a' :
  is_Some (wrappers w !! a') → is_Some (wrappers (on a ty h w) !! a').
Proof.
  intros Ha'. unfold on. destruct (handlers_of w a ty) as [r0|] eqn:Hr0.
  - by rewrite Hr0.
  - simpl. set (w1 := set_eventHandlers a _ _).
    assert (is_Some (wrappers w1 !! a')) as H1.
    { unfold w1. simpl. rewrite lookup_alter. case_decide as E; [subst a'|done].
      destruct Ha' as [I ->]. by eexists. }
    by destruct (handlers_of w1 a ty).
Qed.

Lemma splice_out_snoc h l :
  splice_out h (l ++ [h]) = if decide (h ∈ l) then splice_out h l ++ [h] else l.
Proof.
  induction l as [|x l IH]; simpl.
  - rewrite splice_out_cons. by rewrite decide_True.
  - rewrite !splice_out_cons. destruct (decide (x = h)) as [->|Hne].
    + rewrite decide_True; [done|]. by left.
    + rewrite IH. destruct (decide (h ∈ l)) as [Hin|Hin].
      * rewrite decide_True; [done|]. by right.
      * rewrite decide_False; [done|]. intros [?|?]%elem_of_cons; [by apply Hne|done].
Qed.

(** A dispatch whose handlers do not splice calls the registered handlers in
    order. *)
Lemma dispatchEvent_listeners B a ev w :
  store_wf w → forallb (no_splice B) (listeners w a (type ev)) = true →
  called (new_entries w (dispatchEvent B a ev w).2) = listeners w a (type ev)
  ∧ (dispatchEvent B a ev w).1.2 = bool_decide (listeners w a (type ev) ≠ []).
Proof.
  intros HW Hq. unfold listeners in *.
  destruct (handlers_of w a (type ev)) as [r|] eqn:Hr.
  - destruct (HW a (type ev) r Hr) as (Hlt & _).
    rewrite (dispatchEvent_snapshot B a ev w r Hr Hlt Hq). simpl.
    destruct (call_all_trace B (array_at w r) ev w) as (tr & Htr & Hc & _).
    by rewrite (new_entries_app _ _ _ Htr).
  - unfold dispatchEvent. rewrite Hr. simpl. unfold new_entries. by rewrite drop_all.
Qed.

(** X1.  [on(type, handler)] on a wrapper puts the handler at the end of the
    handlers of the type, after those registered before (a handler that is
    already there is there once more); the handlers of every other type and
    of every other wrapper stay as they are, and so does the coordinator.
    The next dispatch of the type calls the earlier handlers and then the
    new one, and reports that it found handlers. *)
Theorem on_appends a ty h w :
  store_wf w → is_Some (wrappers w !! a) →
  let w' := on a ty h w in
  (∀ a' ty', listeners w' a' ty' =
     if decide (a' = a ∧ ty' = ty) then listeners w a ty ++ [h] else listeners w a' ty')
  ∧ occurrences h (listeners w' a ty) = S (occurrences h (listeners w a ty))
  ∧ manager w' = manager w ∧ trace w' = trace w
  ∧ store_wf w' ∧ is_Some (wrappers w' !! a)
  ∧ (∀ B ev, type ev = ty →
       forallb (no_splice B) (listeners w a ty ++ [h]) = true →
       called (new_entries w' (dispatchEvent B a ev w').2) = listeners w a ty ++ [h]
       ∧ (dispatchEvent B a ev w').1.2 = true).
Proof.
  intros HW Ha w'.
  assert (listeners w' a ty = listeners w a ty ++ [h]) as Hl.
  { unfold w'. rewrite on_listeners by done. by rewrite decide_True. }
  split_and!.
  - intros a' ty'. by apply on_listeners.
  - rewrite Hl. unfold occurrences. rewrite filter_app, length_app.
    rewrite filter_cons, decide_True by done. simpl. lia.
  - apply on_manager.
  - apply on_trace.
  - by apply store_wf_on.
  - by apply on_wrapper.
  - intros B ev Hty Hq.
    assert (store_wf w') as HW' by by apply store_wf_on.
    rewrite <- Hty in Hl.
    destruct (dispatchEvent_listeners B a ev w' HW') as [Hc Hb]; [by rewrite Hl, Hty|].
    rewrite Hc, Hb, Hl, Hty. split; [done|].
    apply bool_decide_eq_true_2. by intros [? ?]%app_eq_nil.
Qed.

Lemma on_appends_witness :
  let w := on 0 click 1 one_object in
  listeners (on 0 click 1 w) 0 click = [1; 1]
  ∧ called (new_entries (on 0 click 2 w)
              (dispatchEvent plain 0 (newInteractEvent click 7 (hit 7) at_origin)
                 (on 0 click 2 w)).2) = [1; 2].
Proof.
  intros w.
  assert (store_wf w) as HW by apply store_wf_on, store_wf_add, store_wf_initial.
  assert (is_Some (wrappers w !! 0)) as Ha by (by eexists).
  split.
  - destruct (on_appends 0 click 1 w HW Ha) as (H & _). by rewrite H.
  - destruct (on_appends 0 click 2 w HW Ha) as (_ & _ & _ & _ & _ & _ & H).
    by destruct (H plain (newInteractEvent click 7 (hit 7) at_origin) eq_refl eq_refl).
Defined.

(** X2.  The shorthands of the wrapper register under the type they are
    named after: [onClick] under [click], [onDrag] under [drag],
    [onPointerEnter], [onPointerLeave] and [onPointerMove] under
    [pointerenter], [pointerleave] and [pointermove].  [onPointer] registers
    the fields that are present, each under its own type, and nothing for a
    field that is absent; the handlers of the other types and of the other
    wrappers stay as they are. *)
Theorem shorthands_register a h handlers w :
  store_wf w → is_Some (wrappers w !! a) →
  listeners (Interactable.onClick a h w) a click = listeners w a click ++ [h]
  ∧ listeners (Interactable.onDrag a h w) a drag = listeners w a drag ++ [h]
  ∧ listeners (Interactable.onPointerEnter a h w) a pointerenter
    = listeners w a pointerenter ++ [h]
  ∧ listeners (Interactable.onPointerLeave a h w) a pointerleave
    = listeners w a pointerleave ++ [h]
  ∧ listeners (Interactable.onPointerMove a h w) a pointermove
    = listeners w a pointermove ++ [h]
  ∧ (let w' := Interactable.onPointer a handlers w in
     listeners w' a pointerenter
     = listeners w a pointerenter ++ option_list (enter handlers)
     ∧ listeners w' a pointerleave
       = listeners w a pointerleave ++ option_list (leave handlers)
     ∧ listeners w' a pointermove
       = listeners w a pointermove ++ option_list (move handlers)
     ∧ (∀ a' ty', a' ≠ a ∨ ty' ∉ [pointerenter; pointerleave; pointermove] →
          listeners w' a' ty' = listeners w a' ty')
     ∧ manager w' = manager w).
Proof.
  intros HW Ha.
  unfold Interactable.onClick, Interactable.onDrag, Interactable.onPointerEnter,
    Interactable.onPointerLeave, Interactable.onPointerMove.
  rewrite !on_listeners by done. rewrite !decide_True by done.
  do 5 (split; [done|]).
  unfold Interactable.onPointer.
  set (w1 := match enter handlers with Some h0 => on a pointerenter h0 w | None => w end).
  set (w2 := match leave handlers with Some h0 => on a pointerleave h0 w1 | None => w1 end).
  set (w3 := match move handlers with Some h0 => on a pointermove h0 w2 | None => w2 end).
  assert (store_wf w1 ∧ is_Some (wrappers w1 !! a) ∧ manager w1 = manager w
          ∧ ∀ a' ty', listeners w1 a' ty' =
              if decide (a' = a ∧ ty' = pointerenter)
              then listeners w a pointerenter ++ option_list (enter handlers)
              else listeners w a' ty') as (HW1 & Ha1 & Hm1 & H1).
  { unfold w1. destruct (enter handlers) as [h0|]; simpl.
    - split_and!; [by apply store_wf_on|by apply on_wrapper|apply on_manager|].
      intros a' ty'. by apply on_listeners.
    - split_and!; try done. intros a' ty'. case_decide as Hd; [|done].
      destruct Hd as [-> ->]. by rewrite app_nil_r. }
  assert (store_wf w2 ∧ is_Some (wrappers w2 !! a) ∧ manager w2 = manager w1
          ∧ ∀ a' ty', listeners w2 a' ty' =
              if decide (a' = a ∧ ty' = pointerleave)
              then listeners w1 a pointerleave ++ option_list (leave handlers)
              else listeners w1 a' ty') as (HW2 & Ha2 & Hm2 & H2).
  { unfold w2. destruct (leave handlers) as [h0|]; simpl.
    - split_and!; [by apply store_wf_on|by apply on_wrapper|apply on_manager|].
      intros a' ty'. by apply on_listeners.
    - split_and!; try done. intros a' ty'. case_decide as Hd; [|done].
      destruct Hd as [-> ->]. by rewrite app_nil_r. }
  assert (manager w3 = manager w2
          ∧ ∀ a' ty', listeners w3 a' ty' =
              if decide (a' = a ∧ ty' = pointermove)
              then listeners w2 a pointermove ++ option_list (move handlers)
              else listeners w2 a' ty') as (Hm3 & H3).
  { unfold w3. destruct (move handlers) as [h0|]; simpl.
    - split; [apply on_manager|]. intros a' ty'. by apply on_listeners.
    - split; [done|]. intros a' ty'. case_decide as Hd; [|done].
      destruct Hd as [-> ->]. by rewrite app_nil_r. }
  split_and!.
  - rewrite H3, decide_False by (by intros [_ ?]).
    rewrite H2, decide_False by (by intros [_ ?]).
    by rewrite H1, decide_True.
  - rewrite H3, decide_False by (by intros [_ ?]).
    rewrite H2, decide_True by done.
    by rewrite H1, decide_False by (by intros [_ ?]).
  - rewrite H3, decide_True by done.
    rewrite H2, decide_False by (by intros [_ ?]).
    by rewrite H1, decide_False by (by intros [_ ?]).
  - intros a' ty' Hne.
    assert (∀ ty0, ty0 ∈ [pointerenter; pointerleave; pointermove] →
              ¬ (a' = a ∧ ty' = ty0)) as Hn.
    { intros ty0 Hin [-> ->]. destruct Hne as [?|?]; done. }
    rewrite H3, decide_False by (apply Hn; repeat constructor).
    rewrite H2, decide_False by (apply Hn; repeat constructor).
    by rewrite H1, decide_False by (apply Hn; repeat constructor).
  - by rewrite Hm3, Hm2, Hm1.
Qed.

Lemma shorthands_register_witness :
  let w := Interactable.onPointer 0 {| enter := Some 5; leave := None; move := Some 6 |}
             one_object in
  listeners w 0 pointerenter = [5] ∧ listeners w 0 pointerleave = []
  ∧ listeners w 0 pointermove = [6].
Proof.
  intros w.
  assert (store_wf one_object) as HW by apply store_wf_add, store_wf_initial.
  assert (is_Some (wrappers one_object !! 0)) as Ha by (by eexists).
  destruct (shorthands_register 0 0 {| enter := Some 5; leave := None; move := Some 6 |}
              one_object HW Ha) as (_ & _ & _ & _ & _ & H1 & H2 & H3 & _).
  subst w. by rewrite H1, H2, H3.
Defined.

(** X3.  [off(type, h)] right after [on(type, h)]: when [h] was not among
    the handlers of the type, every handler list is what it was before the
    two calls, and a type that had no entry has none again.  When [h] was
    already registered, it is the earlier registration that goes: [h] is
    now the last handler of the type.  The handlers of the other types and
    wrappers are not touched. *)
Theorem on_off_round_trip a ty h w :
  store_wf w → is_Some (wrappers w !! a) →
  let w' := off a ty (Some h) (on a ty h w) in
  (∀ a' ty', ¬ (a' = a ∧ ty' = ty) → listeners w' a' ty' = listeners w a' ty')
  ∧ (h ∉ listeners w a ty →
       listeners w' a ty = listeners w a ty
       ∧ (handlers_of w a ty = None → handlers_of w' a ty = None))
  ∧ (h ∈ listeners w a ty →
       listeners w' a ty = splice_out h (listeners w a ty) ++ [h])
  ∧ manager w' = manager w ∧ store_wf w'.
Proof.
  intros HW Ha w'.
  assert (store_wf (on a ty h w)) as HW1 by by apply store_wf_on.
  assert (store_wf w') as HW' by by apply store_wf_off.
  assert (listeners w' a ty =
            if decide (h ∈ listeners w a ty)
            then splice_out h (listeners w a ty) ++ [h] else listeners w a ty) as Hl.
  { unfold w'. rewrite off_one_listeners, decide_True by done.
    rewrite on_listeners, decide_True by done. apply splice_out_snoc. }
  split_and!.
  - intros a' ty' Hne. unfold w'.
    rewrite off_one_listeners, decide_False by done.
    by rewrite on_listeners, decide_False by done.
  - intros Hn. rewrite decide_False in Hl by done. split; [done|].
    intros Hnone. apply listeners_nil; [done|]. rewrite Hl. by apply listeners_nil.
  - intros Hin. by rewrite decide_True in Hl.
  - unfold w'. rewrite off_keeps_manager. apply on_manager.
  - done.
Qed.

Lemma on_off_round_trip_witness :
  let w := on 0 click 2 (on 0 click 1 one_object) in
  listeners (off 0 click (Some 1) (on 0 click 1 w)) 0 click = [2; 1]
  ∧ listeners (off 0 click (Some 3) (on 0 click 3 w)) 0 click = [1; 2].
Proof.
  intros w.
  assert (store_wf w) as HW
    by apply store_wf_on, store_wf_on, store_wf_add, store_wf_initial.
  assert (is_Some (wrappers w !! 0)) as Ha by (by eexists).
  split.
  - destruct (on_off_round_trip 0 click 1 w HW Ha) as (_ & _ & H & _).
    rewrite H; [done|]. vm_compute. apply list_elem_of_here.
  - destruct (on_off_round_trip 0 click 3 w HW Ha) as (_ & H & _).
    destruct H as [H _]; [|by rewrite H].
    vm_compute. intros Hin. apply list_elem_of_In in Hin. simpl in Hin. lia.
Defined.

(** X4.  After [removeAll()] the wrapper has no handler for any type: every
    dispatch on it returns [false], calls nothing and changes nothing.  The
    other wrappers keep their handlers and the coordinator is not touched
    (the object stays registered).  A handler registered afterwards is the
    only one of its type. *)
Theorem removeAll_contract B a w :
  let w' := removeAll a w in
  (∀ ty, handlers_of w' a ty = None ∧ listeners w' a ty = [])
  ∧ (∀ ev, dispatchEvent B a ev w' = (ev, false, w'))
  ∧ (∀ a' ty, a' ≠ a → listeners w' a' ty = listeners w a' ty)
  ∧ manager w' = manager w ∧ trace w' = trace w
  ∧ (store_wf w → is_Some (wrappers w !! a) →
       ∀ ty h, listeners (on a ty h w') a ty = [h]).
Proof.
  intros w'.
  assert (∀ ty, handlers_of w' a ty = None) as Hnone.
  { intros ty. unfold w'. by rewrite removeAll_handlers, decide_True. }
  split_and!.
  - intros ty. split; [done|]. unfold listeners. by rewrite Hnone.
  - intros ev. unfold dispatchEvent. by rewrite Hnone.
  - intros a' ty Hne. unfold listeners, w'.
    by rewrite removeAll_handlers, decide_False.
  - done.
  - done.
  - intros HW Ha ty h. rewrite on_listeners.
    + rewrite decide_True by done. unfold listeners. by rewrite Hnone.
    + by apply store_wf_removeAll.
    + unfold w', removeAll. simpl. rewrite lookup_alter_eq.
      destruct Ha as [I ->]. by eexists.
Qed.

(** * Facts about the registry of objects and the hover set *)

Lemma stable_and B (P Q : world → Prop) :
  stable B P → stable B Q → stable B (λ w, P w ∧ Q w).
Proof.
  intros [HP1 HP2] [HQ1 HQ2]. split.
  - intros h ev w [? ?]. split; auto.
  - intros h act ev w Hin [? ?]. split; eauto.
Qed.

Lemma registry_wf_set_eventHandlers a f w :
  registry_wf w → registry_wf (set_eventHandlers a f w).
Proof.
  intros HR o a' Ho. destruct (HR o a' Ho) as (I & HI & Hg).
  simpl. rewrite lookup_alter. case_decide as E; [subst a'|by exists I].
  rewrite HI. simpl. by eexists.
Qed.

Lemma registry_wf_on a ty h w : registry_wf w → registry_wf (on a ty h w).
Proof.
  intros HR. unfold on. destruct (handlers_of w a ty); simpl.
  - by destruct (handlers_of _ _ _).
  - set (w1 := set_eventHandlers a _ _).
    assert (registry_wf w1) by by apply registry_wf_set_eventHandlers.
    by destruct (handlers_of w1 a ty).
Qed.

Lemma registry_wf_off a ty h w : registry_wf w → registry_wf (off a ty h w).
Proof.
  intros HR. unfold off. destruct h as [h|].
  - destruct (handlers_of w a ty); [|done].
    case_decide; [|done]. by apply registry_wf_set_eventHandlers.
  - by apply registry_wf_set_eventHandlers.
Qed.

Lemma registry_wf_add o w : wrappers_wf w → registry_wf w → registry_wf (add o w).2.
Proof.
  intros [Hi Hw] HR. unfold add.
  destruct (interactables (manager w) !! o) as [a|] eqn:E; [done|].
  intros o' a'. simpl. rewrite lookup_insert. case_decide as Ho.
  - intros [= <-]. rewrite lookup_insert_eq. by eexists.
  - intros Ho'. pose proof (Hi o' a' Ho') as Hlt.
    rewrite lookup_insert_ne by lia. by apply HR.
Qed.

Lemma registry_wf_remove o w : registry_wf w → registry_wf (remove o w).
Proof.
  intros HR o' a'. simpl. rewrite lookup_delete. case_decide; [done|]. apply HR.
Qed.

Lemma registry_wf_stable B : stable B (λ w, wrappers_wf w ∧ registry_wf w).
Proof.
  split; [done|]. intros h act ev w _ [HW HR].
  destruct act as [| | a ty h0 | a ty h0 | a | o | o]; simpl; try done.
  - split; [by apply wrappers_wf_on|by apply registry_wf_on].
  - split; [by apply wrappers_wf_off|by apply registry_wf_off].
  - split; [by apply wrappers_wf_set_eventHandlers|by apply registry_wf_set_eventHandlers].
  - split; [by apply wrappers_wf_add|by apply registry_wf_add].
  - split; [by apply wrappers_wf_remove|by apply registry_wf_remove].
Qed.

Lemma hover_wf_add o w : hover_wf w → hover_wf (add o w).2.
Proof.
  intros [Hn Hr]. split.
  - by rewrite add_manager.
  - intros o' Ho'. apply add_keeps_registered. apply Hr. by rewrite add_manager in Ho'.
Qed.

Lemma hover_wf_remove o w : hover_wf w → hover_wf (remove o w).
Proof.
  intros [Hn Hr]. split; simpl.
  - by apply NoDup_filter.
  - intros o' [Hne Ho']%list_elem_of_filter. rewrite lookup_delete_ne by done. by apply Hr.
Qed.

Lemma hover_wf_stable B : stable B hover_wf.
Proof.
  split; [done|]. intros h act ev w _ HH.
  destruct (decide (manages act = true)) as [Hm|Hm].
  - destruct act; try done; simpl.
    + by apply hover_wf_add.
    + by apply hover_wf_remove.
  - unfold hover_wf. rewrite run_action_manager; [done|]. by destruct (manages act).
Qed.

Lemma hover_wf_insert o w :
  is_Some (interactables (manager w) !! o) → o ∉ hoveredObjects (manager w) →
  hover_wf w → hover_wf (set_hoveredObjects (λ l, l ++ [o]) w).
Proof.
  intros Ho Hn [Hd Hr]. split; simpl.
  - apply NoDup_app. split_and!; [done| |apply NoDup_singleton].
    intros x Hx ->%list_elem_of_singleton. done.
  - intros o' [?| ->%list_elem_of_singleton]%elem_of_app; [by apply Hr|done].
Qed.

Lemma hover_wf_delete o w :
  hover_wf w → hover_wf (set_hoveredObjects (filter (λ x, x ≠ o)) w).
Proof.
  intros [Hd Hr]. split; simpl.
  - by apply NoDup_filter.
  - intros o' [_ Ho']%list_elem_of_filter. by apply Hr.
Qed.

Section ReachableRegistry.

Context (B : InteractEventHandler → list action).

Lemma sound_stable :
  stable B (λ w, (wrappers_wf w ∧ registry_wf w) ∧ hover_wf w).
Proof. apply stable_and; [apply registry_wf_stable|apply hover_wf_stable]. Qed.

Lemma sound_run_listener k s w :
  (wrappers_wf w ∧ registry_wf w) ∧ hover_wf w →
  (wrappers_wf (run_listener B k s w) ∧ registry_wf (run_listener B k s w))
  ∧ hover_wf (run_listener B k s w).
Proof.
  intros HP.
  apply (run_listener_sites B (λ w, (wrappers_wf w ∧ registry_wf w) ∧ hover_wf w)).
  - intros w' a ev _ HP'. apply (fire_stable B); [apply sound_stable|done|done].
  - intros _ i w' _ Hr Hh [HW HH]. split; [done|]. by apply hover_wf_insert.
  - intros _ o w' _ _ [HW HH]. split; [done|]. by apply hover_wf_delete.
  - by intros _ i w' _ HP'.
  - by intros _ w' HP'.
  - by destruct k.
Qed.

Lemma reachable_sound w :
  reachable B w → (wrappers_wf w ∧ registry_wf w) ∧ hover_wf w.
Proof.
  induction 1 as [|o w _ [[IW IR] IH]|o w _ [[IW IR] IH]|a ty h w _ [[IW IR] IH]
                  |a ty h w _ [[IW IR] IH]|a w _ [[IW IR] IH]|a ev w _ IH
                  |s w _ IH|s w _ IH|s w _ IH|s w _ IH].
  - split; [split|split]; try done; [apply wrappers_wf_initial|apply NoDup_nil_2|].
    intros o Ho. simpl in Ho. by apply elem_of_nil in Ho.
  - split; [split|]; [by apply wrappers_wf_add|by apply registry_wf_add|by apply hover_wf_add].
  - split; [split|];
      [by apply wrappers_wf_remove|by apply registry_wf_remove|by apply hover_wf_remove].
  - split; [split|]; [by apply wrappers_wf_on|by apply registry_wf_on|].
    unfold hover_wf. by rewrite on_manager.
  - split; [split|]; [by apply wrappers_wf_off|by apply registry_wf_off|].
    unfold hover_wf. by rewrite off_keeps_manager.
  - split; [split|];
      [by apply wrappers_wf_set_eventHandlers|by apply registry_wf_set_eventHandlers|done].
  - apply (dispatchEvent_inv B); [apply sound_stable|done].
  - by apply (sound_run_listener OnClick).
  - by apply (sound_run_listener OnPointerMove).
  - by apply (sound_run_listener OnPointerDown).
  - by apply (sound_run_listener OnPointerUp).
Qed.

End ReachableRegistry.

(** X5.  In every state that the application can bring about, whatever the
    handlers do, each registered object has a wrapper in the store whose
    [getObject()] is that object, and no two objects share a wrapper. *)
Theorem registry_sound B w :
  reachable B w →
  registry_wf w
  ∧ ∀ o1 o2 a,
      interactables (manager w) !! o1 = Some a →
      interactables (manager w) !! o2 = Some a → o1 = o2.
Proof.
  intros Hr. destruct (reachable_sound B w Hr) as [[_ HR] _]. split; [done|].
  intros o1 o2 a H1 H2.
  destruct (HR o1 a H1) as (I1 & E1 & <-). destruct (HR o2 a H2) as (I2 & E2 & <-).
  congruence.
Qed.

Lemma registry_sound_witness :
  registry_wf near_far
  ∧ ∀ o1 o2 a,
      interactables (manager near_far) !! o1 = Some a →
      interactables (manager near_far) !! o2 = Some a → o1 = o2.
Proof.
  apply (registry_sound plain).
  unfold near_far. repeat constructor.
Defined.

(** X6.  In every state that the application can bring about, whatever the
    handlers do, the hover set holds each object at most once and holds only
    registered objects: [remove] takes the object out of both, and the hover
    loop only enters objects that have a wrapper. *)
Theorem hover_set_registered B w :
  reachable B w →
  NoDup (hoveredObjects (manager w))
  ∧ ∀ o, o ∈ hoveredObjects (manager w) → is_Some (interactables (manager w) !! o).
Proof. intros Hr. by destruct (reachable_sound B w Hr) as [_ HH]. Qed.

Lemma hover_set_registered_witness :
  let w := onPointerMove remover (sample at_origin [hit 7]) self_removing in
  NoDup (hoveredObjects (manager w))
  ∧ ∀ o, o ∈ hoveredObjects (manager w) → is_Some (interactables (manager w) !! o).
Proof.
  apply (hover_set_registered remover).
  unfold self_removing, one_object. repeat constructor.
Defined.

(** * Facts about what the listeners dispatch *)

Section Dispatched.

Context (B : InteractEventHandler → list action).

Lemma fire_dispatched (Q : InteractableRef * InteractEvent → Prop) w0 a ev w :
  Q (a, ev) →
  (∃ tr, trace w = trace w0 ++ tr ∧ Forall Q (dispatched tr)) →
  ∃ tr, trace (fire B a ev w).2 = trace w0 ++ tr ∧ Forall Q (dispatched tr).
Proof.
  intros HQ (tr & Htr & HF). destruct (fire_trace B a ev w) as (tr1 & Htr1 & Hd1).
  exists (tr ++ LDispatch a ev :: tr1). split.
  - by rewrite Htr1, Htr, <- app_assoc.
  - rewrite dispatched_app. apply Forall_app. split; [done|].
    change (dispatched (LDispatch a ev :: tr1)) with ((a, ev) :: dispatched tr1).
    rewrite Hd1. by apply Forall_singleton.
Qed.

(** A property [S] of the coordinator that the handlers keep holds after a
    listener has run, and every event that the listener dispatched satisfies
    what the sites guarantee while [S] holds. *)
Lemma run_listener_dispatched (S : world → Prop)
    (Q : InteractableRef * InteractEvent → Prop) k s w :
  loop_inv B (λ _, True) S →
  (∀ x w', S w' → S (set_dragObject x w')) →
  (∀ x w', S w' → S (set_activeObject x w')) →
  (∀ w' a ev, site s (pointer_delta s w) k w' a ev → S w' → Q (a, ev)) →
  S (updatePointer (event s) w).2 →
  S (run_listener B k s w)
  ∧ Forall Q (dispatched (new_entries w (run_listener B k s w))).
Proof.
  intros HL Hdrag Hact Hsite HS.
  assert (S (run_listener B k s w)
          ∧ ∃ tr, trace (run_listener B k s w) = trace w ++ tr
                  ∧ Forall Q (dispatched tr)) as (H1 & tr & Htr & HF).
  { apply (run_listener_sites B
             (λ w', S w' ∧ ∃ tr, trace w' = trace w ++ tr ∧ Forall Q (dispatched tr))).
    - intros w' a ev Hs [HS' HT]. split.
      + by apply (fire_inv B (λ _, True)).
      + apply fire_dispatched; [|done]. by apply (Hsite w').
    - intros _ i w' _ _ _ [HS' HT]. split; [|done]. by apply HL.
    - intros _ o w' _ _ [HS' HT]. split; [|done]. by apply HL.
    - intros _ i w' _ [HS' HT]. split; [|done]. simpl. by apply Hact, Hdrag.
    - intros _ w' [HS' HT]. split; [|done]. by apply Hact.
    - split; [destruct k; try done; by apply Hdrag|].
      exists []. split; [by destruct k; rewrite app_nil_r|]. by apply Forall_nil. }
  split; [done|]. by rewrite (new_entries_app _ _ _ Htr).
Qed.

(** Without a call to [add(o)], an object that has no wrapper gets none. *)
Lemma unregistered_stable o :
  (∀ h, AAdd o ∉ B h) →
  loop_inv B (λ _, True) (λ w, interactables (manager w) !! o = None).
Proof.
  intros HB. split; [split|split]; try done.
  intros h act ev w Hin Hn.
  destruct (decide (manages act = true)) as [Hm|Hm].
  - destruct act as [| | | | |o'|o']; try done; simpl.
    + rewrite add_manager. simpl.
      destruct (interactables (manager w) !! o') eqn:E; [done|].
      rewrite lookup_insert_ne; [done|]. intros ->. by apply (HB h).
    + rewrite lookup_delete. by case_decide.
  - rewrite run_action_manager; [done|]. by destruct (manages act).
Qed.

(** *** What reaches the handlers *)

Lemma forEach_entries r ks ev w :
  ∃ tr, trace (forEach B r ks ev w).2 = trace w ++ tr
        ∧ Forall (λ e, type (entry_event e) = type ev) tr.
Proof.
  revert ev w. induction ks as [|k ks IH]; intros ev w.
  - exists []. split; [by rewrite app_nil_r|]. by apply Forall_nil.
  - simpl. destruct (array_at w r !! k) as [h|]; [|apply IH].
    pose proof (call_trace B h ev w) as Hc.
    pose proof (run_body_event (B h) ev (record (LCall h ev) w)) as (Hty & _).
    fold (call B h ev w) in Hty.
    destruct (call B h ev w) as [ev' w']. simpl in *.
    destruct (IH ev' w') as (tr & Htr & HF).
    exists (LCall h ev :: tr). split.
    + rewrite Htr, Hc. by rewrite <- app_assoc.
    + apply Forall_cons. split; [done|]. by rewrite <- Hty.
Qed.

Lemma fire_entries a ev w :
  ∃ tr, trace (fire B a ev w).2 = trace w ++ tr
        ∧ Forall (λ e, type (entry_event e) = type ev) tr.
Proof.
  unfold fire, dispatchEvent.
  change (handlers_of (record (LDispatch a ev) w) a (type ev))
    with (handlers_of w a (type ev)).
  destruct (handlers_of w a (type ev)) as [r|].
  - destruct (forEach_entries r (seq 0 (length (array_at w r))) ev
                (record (LDispatch a ev) w)) as (tr & Htr & HF).
    change (array_at (record (LDispatch a ev) w) r) with (array_at w r).
    destruct (forEach B r _ ev _) as [ev' w']. simpl in *.
    exists (LDispatch a ev :: tr). split.
    + by rewrite Htr, <- app_assoc.
    + by apply Forall_cons.
  - exists [LDispatch a ev]. split; [done|]. by apply Forall_singleton.
Qed.

Lemma site_type s d k w a ev : site s d k w a ev → type ev ∈ listener_types k.
Proof. destruct 1; simpl; repeat constructor. Qed.

Lemma run_listener_entries k s w :
  Forall (λ e, type (entry_event e) ∈ listener_types k)
    (new_entries w (run_listener B k s w)).
Proof.
  assert (∃ tr, trace (run_listener B k s w) = trace w ++ tr
                ∧ Forall (λ e, type (entry_event e) ∈ listener_types k) tr)
    as (tr & Htr & HF).
  { apply (run_listener_sites B
             (λ w', ∃ tr, trace w' = trace w ++ tr
                          ∧ Forall (λ e, type (entry_event e) ∈ listener_types k) tr)).
    - intros w' a ev Hs (tr & Htr & HF).
      destruct (fire_entries a ev w') as (tr1 & Htr1 & HF1).
      exists (tr ++ tr1). split; [by rewrite Htr1, Htr, <- app_assoc|].
      apply Forall_app. split; [done|].
      eapply Forall_impl; [exact HF1|]. intros e ->. by eapply site_type.
    - by intros _ i w' _ _ _ HT.
    - by intros _ o w' _ _ HT.
    - by intros _ i w' _ HT.
    - by intros _ w' HT.
    - exists []. split; [by destruct k; rewrite app_nil_r|]. by apply Forall_nil. }
  by rewrite (new_entries_app _ _ _ Htr).
Qed.

(** *** The hover set after the hover loops *)

Lemma fire_hovered a ev w o :
  o ∈ hoveredObjects (manager (fire B a ev w).2) → o ∈ hoveredObjects (manager w).
Proof.
  intros Hin. destruct (decide (o ∈ hoveredObjects (manager w))) as [|Hn]; [done|].
  by destruct (fire_stable B _ a ev w (not_hovered_stable B o) (λ H, H) Hn).
Qed.

Lemma leave_loop_hovered s (X : gset Object3D) keys w o :
  o ∈ hoveredObjects (manager (leave_loop B s X keys w)) →
  o ∈ hoveredObjects (manager w) ∧ (o ∈ keys → o ∈ X).
Proof.
  revert w. induction keys as [|k rest IH]; intros w.
  - simpl. intros Ho. split; [done|]. by intros ?%elem_of_nil.
  - simpl. case_bool_decide as Hh.
    + case_bool_decide as HX.
      * intros Ho. destruct (IH w Ho) as [H1 H2]. split; [done|].
        intros [->|?]%elem_of_cons; auto.
      * set (w1 := set_hoveredObjects _ w).
        assert (∀ w2, o ∈ hoveredObjects (manager (leave_loop B s X rest w2)) →
                  (o ∈ hoveredObjects (manager w2) → o ∈ hoveredObjects (manager w1)) →
                  o ∈ hoveredObjects (manager w) ∧ (o ∈ k :: rest → o ∈ X)) as Hstep.
        { intros w2 Ho H21. destruct (IH w2 Ho) as [H1 H2].
          apply H21 in H1. simpl in H1. apply list_elem_of_filter in H1 as [Hne H1].
          split; [done|]. intros [->|?]%elem_of_cons; [done|auto]. }
        change (interactables (manager w1)) with (interactables (manager w)).
        destruct (interactables (manager w) !! k) as [a|]; [|intros Ho; by apply (Hstep w1)].
        pose proof (fire_hovered a
                      (newInteractEvent pointerleave k (getIntersection s k) (event s))
                      w1 o) as Hf.
        destruct (fire B a _ w1) as [[ev' b] w2]. simpl in Hf.
        intros Ho. by apply (Hstep w2).
    + intros Ho. destruct (IH w Ho) as [H1 H2]. split; [done|].
      intros [->|?]%elem_of_cons; [done|auto].
Qed.

(** *** Hits without a wrapper *)

Lemma ordered_loop_unregistered mk after hits w :
  Forall (λ i, interactables (manager w) !! object i = None) hits →
  ordered_loop B mk after hits w = w.
Proof.
  induction 1 as [|i rest Hi _ IH]; [done|]. simpl. by rewrite Hi.
Qed.

Lemma enter_loop_unregistered s hits w :
  Forall (λ i, interactables (manager w) !! object i = None) hits →
  enter_loop B s hits w = w.
Proof.
  induction 1 as [|i rest Hi _ IH]; [done|]. simpl. by rewrite Hi.
Qed.

(** *** How the events are built *)


End Dispatched.


(** X8.  An object that has no wrapper receives nothing: whatever the ray
    caster reports, no listener dispatches an event whose target is that
    object, and the object still has no wrapper afterwards, as long as no
    handler calls [add] for it.  In particular this holds from [remove(o)]
    on. *)
Theorem unregistered_receives_nothing B k s o w :
  interactables (manager w) !! o = None →
  (∀ h, AAdd o ∉ B h) →
  Forall (λ x, target x.2 ≠ o) (dispatched (new_entries w (run_listener B k s w)))
  ∧ interactables (manager (run_listener B k s w)) !! o = None.
Proof.
  intros Hn HB.
  destruct (run_listener_dispatched B
              (λ w', interactables (manager w') !! o = None)
              (λ x, target x.2 ≠ o) k s w) as [H1 H2]; try done.
  - by apply unregistered_stable.
  - intros w' a ev Hs Hn'. destruct Hs; simpl; intros E; congruence.
Qed.

Lemma unregistered_receives_nothing_witness :
  let w := remove 7 near_far in
  let s := sample at_origin [hit 7; hit 8] in
  Forall (λ x, target x.2 ≠ 7) (dispatched (new_entries w (run_listener plain OnClick s w)))
  ∧ interactables (manager (run_listener plain OnClick s w)) !! 7 = None.
Proof.
  apply (unregistered_receives_nothing plain OnClick _ 7 (remove 7 near_far)).
  - change (delete 7 (interactables (manager near_far)) !! 7 = None).
    apply lookup_delete_eq.
  - intros h Hin. unfold plain in Hin. by apply elem_of_nil in Hin.
Defined.

(** X9.  Whatever the handlers do, a listener hands out, and the handlers
    it reaches are called with, events of its own types only: [click] for
    [onClick], [pointerdown] for [onPointerDown], [pointerup] for
    [onPointerUp], and [drag], [pointermove], [pointerenter] and
    [pointerleave] for [onPointerMove]. *)
Theorem listener_event_types B k s w :
  Forall (λ e, type (entry_event e) ∈ listener_types k)
    (new_entries w (run_listener B k s w)).
Proof. apply run_listener_entries. Qed.

(** X10.  The constructor installs listeners for four names.  An event of
    the name [pointermove], [click], [pointerdown] or [pointerup] runs the
    method of that name once; an event of any other name changes nothing.
    So handlers registered for [dblclick], [dragstart], [dragend] or [wheel]
    are never called by the coordinator. *)
Theorem deliver_listeners B name s w :
  deliver B "pointermove" s w = onPointerMove B s w
  ∧ deliver B "click" s w = onClick B s w
  ∧ deliver B "pointerdown" s w = onPointerDown B s w
  ∧ deliver B "pointerup" s w = onPointerUp B s w
  ∧ (name ∉ ["pointermove"; "click"; "pointerdown"; "pointerup"]%string →
       deliver B name s w = w)
  ∧ Forall (λ e, type (entry_event e) ∉ [dblclick; dragstart; dragend; wheel])
      (new_entries w (deliver B name s w)).
Proof.
  assert (name ∉ ["pointermove"; "click"; "pointerdown"; "pointerup"]%string →
          deliver B name s w = w) as Hother.
  { intros Hn. unfold deliver. simpl.
    repeat (case_decide as E;
            [exfalso; apply Hn; rewrite <- E; repeat constructor|clear E]).
    done. }
  split_and!; try done.
  assert (∀ k, Forall (λ e, type (entry_event e) ∉ [dblclick; dragstart; dragend; wheel])
                 (new_entries w (run_listener B k s w))) as Hk.
  { intros k. eapply Forall_impl; [apply run_listener_entries|].
    intros e He Hin. destruct k; simpl in He;
      repeat (apply elem_of_cons in He as [He|He];
              [rewrite He in Hin;
               repeat (apply elem_of_cons in Hin as [Hin|Hin]; [done|]);
               by apply elem_of_nil in Hin|]);
      by apply elem_of_nil in He. }
  destruct (decide (name ∈ ["pointermove"; "click"; "pointerdown"; "pointerup"]%string))
    as [Hin|Hn].
  - repeat (apply elem_of_cons in Hin as [->|Hin]);
      [apply (Hk OnPointerMove)|apply (Hk OnClick)|apply (Hk OnPointerDown)
      |apply (Hk OnPointerUp)|by apply elem_of_nil in Hin].
  - rewrite Hother by done. unfold new_entries. rewrite drop_all. by apply Forall_nil.
Qed.

(** X11.  After [onPointerMove], whatever the handlers did, every object of
    the hover set is under the pointer: it is the object of a hit that the
    query of [processRaycast] returned, which is the list that the hover
    set is compared with (not the list of the [pointermove] loop, when a
    handler has changed the registry in between). *)
Theorem hovered_are_hit B s w o :
  o ∈ hoveredObjects (manager (onPointerMove B s w)) →
  o ∈ object <$> hoverRaycast s.
Proof.
  unfold onPointerMove. destruct (updatePointer (event s) w) as [[dx dy] w1].
  unfold processRaycast.
  set (w3 := enter_loop B s (hoverRaycast s) _).
  intros Ho. destruct (leave_loop_hovered B s _ _ w3 o Ho) as [H1 H2].
  apply H2 in H1. by apply elem_of_list_to_set in H1.
Qed.

Lemma hovered_are_hit_witness :
  let s := two_queries at_origin [hit 7] [hit 7; hit 9] in
  hoveredObjects (manager (onPointerMove adder s growing)) = [7; 9]
  ∧ 9 ∈ object <$> hoverRaycast s.
Proof.
  intros s. split; [reflexivity|].
  apply (hovered_are_hit adder s growing 9).
  change (hoveredObjects (manager (onPointerMove adder s growing))) with [7; 9].
  apply list_elem_of_further, list_elem_of_here.
Defined.

(** X12.  When no hit of the sample has a wrapper (in particular when
    nothing is under the pointer), no handler runs and nothing is
    dispatched: [onClick] and [onPointerDown] only store the pointer
    position, so a press on empty space leaves the drag target and the
    active target as they were; [onPointerUp] clears both targets; and
    [onPointerMove] only stores the pointer position when there is no drag
    target, nothing is hovered and the query of [processRaycast] finds no
    registered object either. *)
Theorem nothing_under_the_pointer B s w :
  Forall (λ i, interactables (manager w) !! object i = None) (raycast s) →
  let w1 := (updatePointer (event s) w).2 in
  onClick B s w = w1
  ∧ onPointerDown B s w = w1
  ∧ onPointerUp B s w = set_activeObject None (set_dragObject None w1)
  ∧ (dragObject (manager w) = None → hoveredObjects (manager w) = [] →
     Forall (λ i, interactables (manager w) !! object i = None) (hoverRaycast s) →
       onPointerMove B s w = w1).
Proof.
  intros Hu w1. unfold onClick, onPointerDown, onPointerUp, onPointerMove.
  change (click_loop B s) with (phase_loop B Click s).
  change (down_loop B s) with (phase_loop B Down s).
  change (up_loop B s) with (phase_loop B Up s).
  change (updatePointer (event s) w)
    with ((pointer_delta s w).1, (pointer_delta s w).2, w1).
  cbv iota beta. rewrite !phase_loop_ordered.
  split_and!.
  - by apply ordered_loop_unregistered.
  - by apply ordered_loop_unregistered.
  - by rewrite ordered_loop_unregistered.
  - intros Hd Hh Hu'.
    assert (drag_step B s ((pointer_delta s w).1, (pointer_delta s w).2) w1 = w1) as ->.
    { unfold drag_step, w1. simpl. by rewrite Hd. }
    change (move_loop B s ((pointer_delta s w).1, (pointer_delta s w).2))
      with (phase_loop B (Move ((pointer_delta s w).1, (pointer_delta s w).2)) s).
    rewrite phase_loop_ordered, ordered_loop_unregistered by done.
    unfold processRaycast. rewrite enter_loop_unregistered by done.
    unfold w1. simpl. by rewrite Hh.
Qed.

Lemma nothing_under_the_pointer_witness :
  let s := sample {| clientX := 3; clientY := 4 |} [] in
  let w1 := (updatePointer (event s) draggable).2 in
  onClick plain s draggable = w1
  ∧ onPointerDown plain s draggable = w1
  ∧ onPointerUp plain s draggable = set_activeObject None (set_dragObject None w1)
  ∧ (dragObject (manager draggable) = None → hoveredObjects (manager draggable) = [] →
     Forall (λ i, interactables (manager draggable) !! object i = None) (hoverRaycast s) →
       onPointerMove plain s draggable = w1).
Proof.
  apply (nothing_under_the_pointer plain (sample {| clientX := 3; clientY := 4 |} [])
           draggable).
  apply Forall_nil_2.
Defined.

(** * Facts about registration with the coordinator *)

Lemma add_lookup o w : interactables (manager (add o w).2) !! o = Some (add o w).1.
Proof.
  unfold add. destruct (interactables (manager w) !! o) as [a|] eqn:E; [done|].
  simpl. by rewrite lookup_insert_eq.
Qed.

Lemma add_lookup_ne o o' w :
  o' ≠ o → interactables (manager (add o w).2) !! o' = interactables (manager w) !! o'.
Proof.
  intros Hne. rewrite add_manager. simpl.
  destruct (interactables (manager w) !! o); [done|]. by rewrite lookup_insert_ne.
Qed.

Lemma add_registered o a w : interactables (manager w) !! o = Some a → add o w = (a, w).
Proof. intros Ha. unfold add. by rewrite Ha. Qed.

Lemma interactGroup_spec objects w :
  length (interactGroup objects w).1 = length objects
  ∧ (∀ k o, objects !! k = Some o →
       ∃ a, (interactGroup objects w).1 !! k = Some a
            ∧ interactables (manager (interactGroup objects w).2) !! o = Some a)
  ∧ (∀ o a, interactables (manager w) !! o = Some a →
       interactables (manager (interactGroup objects w).2) !! o = Some a)
  ∧ (∀ o, o ∉ objects →
       interactables (manager (interactGroup objects w).2) !! o
       = interactables (manager w) !! o)
  ∧ interactGroup objects (interactGroup objects w).2
    = interactGroup objects w.
Proof.
  revert w. induction objects as [|o rest IH]; intros w.
  - by split_and!.
  - simpl. pose proof (add_lookup o w) as Ho.
    pose proof (add_keeps_wrapper o) as Hkeep.
    pose proof (add_lookup_ne o) as Hother.
    destruct (add o w) as [a w1] eqn:Eadd. simpl in Ho.
    destruct (IH w1) as (Hlen & Hk & Hold & Hnot & Hidem).
    destruct (interactGroup rest w1) as [l w2] eqn:E. simpl in *.
    split_and!.
    + by rewrite Hlen.
    + intros [|k] o'; simpl.
      * intros [= <-]. exists a. split; [done|]. by apply Hold.
      * apply Hk.
    + intros o' a' Ha'. apply Hold. specialize (Hkeep o' a' w Ha').
      by rewrite Eadd in Hkeep.
    + intros o' [Hne Hn]%not_elem_of_cons. rewrite Hnot by done.
      specialize (Hother o' w Hne). by rewrite Eadd in Hother.
    + rewrite (add_registered o a w2) by by apply Hold. by rewrite Hidem.
Qed.

Lemma interactGroup_manager objects w :
  let m := manager w in
  let m' := manager (interactGroup objects w).2 in
  hoveredObjects m' = hoveredObjects m ∧ activeObject m' = activeObject m
  ∧ dragObject m' = dragObject m ∧ lastMousePosition m' = lastMousePosition m
  ∧ trace (interactGroup objects w).2 = trace w
  ∧ arrays (interactGroup objects w).2 = arrays w.
Proof.
  revert w. induction objects as [|o rest IH]; intros w; [done|].
  simpl. pose proof (add_manager o w) as Hm.
  assert (trace (add o w).2 = trace w ∧ arrays (add o w).2 = arrays w) as [Ht Ha].
  { unfold add. by destruct (interactables (manager w) !! o). }
  destruct (add o w) as [a w1]. simpl in *.
  destruct (IH w1) as (H1 & H2 & H3 & H4 & H5 & H6).
  destruct (interactGroup rest w1) as [l w2]. simpl in *.
  rewrite H1, H2, H3, H4, H5, H6, Hm, Ht, Ha. done.
Qed.

(** *** [remove] *)

Lemma filter_ne_comm (o1 o2 : nat) (l : list nat) :
  filter (λ x, x ≠ o1) (filter (λ x, x ≠ o2) l)
  = filter (λ x, x ≠ o2) (filter (λ x, x ≠ o1) l).
Proof.
  induction l as [|x l IH]; [done|].
  rewrite !filter_cons.
  destruct (decide (x ≠ o2)), (decide (x ≠ o1));
    rewrite ?filter_cons, ?decide_True, ?decide_False by (by auto); by rewrite ?IH.
Qed.

Lemma filter_ne_absent (o : nat) (l : list nat) : o ∉ l → filter (λ x, x ≠ o) l = l.
Proof.
  induction l as [|x l IH]; [done|].
  intros [Hne Hn]%not_elem_of_cons. rewrite filter_cons, decide_True by done.
  by rewrite IH.
Qed.

Lemma clear_if_comm o1 o2 x : clear_if o1 (clear_if o2 x) = clear_if o2 (clear_if o1 x).
Proof. unfold clear_if. repeat case_decide; congruence. Qed.

Lemma clear_if_idemp o x : clear_if o (clear_if o x) = clear_if o x.
Proof. unfold clear_if. repeat case_decide; congruence. Qed.

(** *** The targets *)

Section Targets.

Context (B : InteractEventHandler → list action).

Lemma target_or_none_stable (f : InteractManager → option Object3D) x :
  (f = dragObject ∨ f = activeObject) →
  stable B (λ w, f (manager w) = x ∨ f (manager w) = None).
Proof.
  intros Hf. split; [done|]. intros h act ev w _ Hx.
  destruct (decide (manages act = true)) as [Hm|Hm].
  - destruct act as [| | | | |o|o]; try done; simpl.
    + rewrite add_manager. by destruct Hf as [-> | ->].
    + destruct Hf as [-> | ->]; simpl; unfold clear_if; case_decide; auto.
  - rewrite run_action_manager; [done|]. by destruct (manages act).
Qed.

Lemma target_kept_stable (f : InteractManager → option Object3D) x :
  (f = dragObject ∨ f = activeObject) →
  (∀ h, no_remove B h = true) →
  stable B (λ w, f (manager w) = x).
Proof.
  intros Hf HB. split; [done|]. intros h act ev w Hin Hx.
  pose proof (no_remove_elem B h act (HB h) Hin) as Hact.
  destruct (decide (manages act = true)) as [Hm|Hm].
  - destruct act as [| | | | |o|o]; try done; simpl.
    rewrite add_manager. by destruct Hf as [-> | ->].
  - rewrite run_action_manager; [done|]. by destruct (manages act).
Qed.

(** A property of the targets that the handlers keep holds after [onClick]
    and after [onPointerMove]. *)
Lemma targets_run_listener (P : world → Prop) k s w :
  k = OnClick ∨ k = OnPointerMove →
  stable B P →
  (∀ w1 w2, dragObject (manager w1) = dragObject (manager w2) →
            activeObject (manager w1) = activeObject (manager w2) → P w1 → P w2) →
  P w → P (run_listener B k s w).
Proof.
  intros Hk HS Hext HP. apply (run_listener_sites B P).
  - intros w' a ev _ HP'. apply (fire_stable B); [done| |done].
    by apply Hext.
  - intros _ i w' _ _ _. by apply Hext.
  - intros _ o w' _ _. by apply Hext.
  - intros ->. by destruct Hk.
  - intros ->. by destruct Hk.
  - destruct Hk as [-> | ->]; revert HP; by apply Hext.
Qed.

Lemma targets_equal_stable :
  stable B (λ w, dragObject (manager w) = activeObject (manager w)).
Proof.
  split; [done|]. intros h act ev w _ Hx.
  destruct (decide (manages act = true)) as [Hm|Hm].
  - destruct act as [| | | | |o|o]; try done; simpl.
    + by rewrite add_manager.
    + by rewrite Hx.
  - rewrite run_action_manager; [done|]. by destruct (manages act).
Qed.

Lemma pointerup_targets s w :
  dragObject (manager (onPointerUp B s w)) = None
  ∧ activeObject (manager (onPointerUp B s w)) = None.
Proof.
  split.
  - apply (run_listener_sites B (λ w', dragObject (manager w') = None) OnPointerUp s w);
      try done.
    intros w' a ev _ Hd. apply (fire_inv B (λ _, True)); [apply no_drag_stable|done|done].
  - unfold onPointerUp. by destruct (updatePointer (event s) w) as [[dx dy] w1].
Qed.

Lemma pointerdown_targets_equal s w :
  dragObject (manager w) = activeObject (manager w) →
  dragObject (manager (onPointerDown B s w))
  = activeObject (manager (onPointerDown B s w)).
Proof.
  intros HP.
  apply (run_listener_sites B (λ w', dragObject (manager w') = activeObject (manager w'))
           OnPointerDown s w); try done.
  intros w' a ev _ Hd. apply (fire_stable B); [apply targets_equal_stable|done|done].
Qed.

Lemma reachable_targets_equal w :
  reachable B w → dragObject (manager w) = activeObject (manager w).
Proof.
  induction 1 as [|o w _ IH|o w _ IH|a ty h w _ IH|a ty h w _ IH|a w _ IH
                  |a ev w _ IH|s w _ IH|s w _ IH|s w _ IH|s w _ IH].
  - done.
  - by rewrite add_manager.
  - simpl. by rewrite IH.
  - by rewrite on_manager.
  - by rewrite off_keeps_manager.
  - done.
  - apply (dispatchEvent_inv B (λ w, dragObject (manager w) = activeObject (manager w)));
      [apply targets_equal_stable|done].
  - apply (targets_run_listener
             (λ w, dragObject (manager w) = activeObject (manager w)) OnClick);
      [by left|apply targets_equal_stable| |done].
    intros w1 w2 H1 H2. by rewrite H1, H2.
  - apply (targets_run_listener
             (λ w, dragObject (manager w) = activeObject (manager w)) OnPointerMove);
      [by right|apply targets_equal_stable| |done].
    intros w1 w2 H1 H2. by rewrite H1, H2.
  - by apply pointerdown_targets_equal.
  - destruct (pointerup_targets s w) as [H1 H2]. by rewrite H1, H2.
Qed.

End Targets.

(** * Facts about the wrapper that receives an event *)

Lemma wraps_target_set_eventHandlers a f w x :
  wraps_target w x → wraps_target (set_eventHandlers a f w) x.
Proof.
  intros (I & HI & Hg). unfold wraps_target. simpl. rewrite lookup_alter.
  case_decide as E; [|by exists I]. rewrite <- E in HI. rewrite HI. simpl. by eexists.
Qed.

Lemma wraps_target_on a ty h w x : wraps_target w x → wraps_target (on a ty h w) x.
Proof.
  intros HR. unfold on. destruct (handlers_of w a ty); simpl.
  - by destruct (handlers_of _ _ _).
  - set (w1 := set_eventHandlers a _ _).
    assert (wraps_target w1 x) by by apply wraps_target_set_eventHandlers.
    by destruct (handlers_of w1 a ty).
Qed.

Lemma wraps_target_off a ty h w x : wraps_target w x → wraps_target (off a ty h w) x.
Proof.
  intros HR. unfold off. destruct h as [h|].
  - destruct (handlers_of w a ty); [|done].
    case_decide; [|done]. by apply wraps_target_set_eventHandlers.
  - by apply wraps_target_set_eventHandlers.
Qed.

Lemma wraps_target_add o w x :
  wrappers_wf w → wraps_target w x → wraps_target (add o w).2 x.
Proof.
  intros [_ Hw] (I & HI & Hg). unfold add.
  destruct (interactables (manager w) !! o); [by exists I|].
  exists I. split; [|done]. simpl. rewrite lookup_insert_ne; [done|].
  assert (x.1 < next_wrapper w); [|lia]. apply Hw. by eexists.
Qed.

Lemma wraps_target_stable B w0 :
  stable B (λ w, (wrappers_wf w ∧ registry_wf w)
                 ∧ ∃ tr, trace w = trace w0 ++ tr
                         ∧ Forall (wraps_target w) (dispatched tr)).
Proof.
  split.
  - intros h ev w [HW (tr & Htr & HF)]. split; [done|].
    exists (tr ++ [LCall h ev]). split.
    + simpl. by rewrite Htr, app_assoc.
    + rewrite dispatched_app. simpl. by rewrite app_nil_r.
  - intros h act ev w Hin [[HW HR] (tr & Htr & HF)]. split.
    + by apply (registry_wf_stable B) with h.
    + exists tr. split; [by rewrite run_action_trace|].
      eapply Forall_impl; [exact HF|]. intros x Hx.
      destruct act as [| | a ty h0 | a ty h0 | a | o | o]; simpl; try done.
      * by apply wraps_target_on.
      * by apply wraps_target_off.
      * by apply wraps_target_set_eventHandlers.
      * by apply wraps_target_add.
Qed.

Lemma run_listener_wraps_target B k s w :
  wrappers_wf w → registry_wf w →
  Forall (wraps_target (run_listener B k s w))
    (dispatched (new_entries w (run_listener B k s w))).
Proof.
  intros HW HR.
  assert ((wrappers_wf (run_listener B k s w) ∧ registry_wf (run_listener B k s w))
          ∧ ∃ tr, trace (run_listener B k s w) = trace w ++ tr
                  ∧ Forall (wraps_target (run_listener B k s w)) (dispatched tr))
    as (_ & tr & Htr & HF).
  { apply (run_listener_sites B
             (λ w', (wrappers_wf w' ∧ registry_wf w')
                    ∧ ∃ tr, trace w' = trace w ++ tr
                            ∧ Forall (wraps_target w') (dispatched tr))).
    - intros w' a ev Hs HP.
      apply (fire_stable B); [apply wraps_target_stable| |done].
      intros [[HW' HR'] (tr & Htr & HF)]. split; [done|]. exists (tr ++ [LDispatch a ev]). split.
      + simpl. by rewrite Htr, app_assoc.
      + rewrite dispatched_app. apply Forall_app. split; [done|].
        apply Forall_singleton. apply HR'. by destruct Hs.
    - by intros _ i w' _ _ _ HP.
    - by intros _ o w' _ _ HP.
    - by intros _ i w' _ HP.
    - by intros _ w' HP.
    - split; [by destruct k|]. exists [].
      split; [by destruct k; rewrite app_nil_r|]. by apply Forall_nil. }
  by rewrite (new_entries_app _ _ _ Htr).
Qed.

(** X13.  [interactGroup(objects, manager)] returns one wrapper for each
    object, in the order of the list: the wrapper at a position is the one
    registered for the object at that position, so an object that occurs
    twice gets the same wrapper twice.  Objects that were registered keep
    their wrapper, objects that are not in the list are not registered by
    the call, the hover set, the targets, the pointer position and the
    handlers are not touched, nothing is dispatched, and calling it again
    with the same list returns the same wrappers and changes nothing.
    [interact] is the case of one object. *)
Theorem interactGroup_contract objects o w :
  let l := (interactGroup objects w).1 in
  let w' := (interactGroup objects w).2 in
  length l = length objects
  ∧ (∀ k o, objects !! k = Some o →
       ∃ a, l !! k = Some a ∧ interactables (manager w') !! o = Some a)
  ∧ (∀ j k, j < length objects → objects !! j = objects !! k → l !! j = l !! k)
  ∧ (∀ o a, interactables (manager w) !! o = Some a →
       interactables (manager w') !! o = Some a)
  ∧ (∀ o, o ∉ objects →
       interactables (manager w') !! o = interactables (manager w) !! o)
  ∧ (hoveredObjects (manager w') = hoveredObjects (manager w)
     ∧ activeObject (manager w') = activeObject (manager w)
     ∧ dragObject (manager w') = dragObject (manager w)
     ∧ lastMousePosition (manager w') = lastMousePosition (manager w)
     ∧ trace w' = trace w ∧ arrays w' = arrays w)
  ∧ interactGroup objects w' = (l, w')
  ∧ interactGroup [o] w = ([(interact o w).1], (interact o w).2).
Proof.
  intros l w'. destruct (interactGroup_spec objects w) as (Hlen & Hk & Hold & Hnot & Hidem).
  destruct (interactGroup_manager objects w) as (M1 & M2 & M3 & M4 & M5 & M6).
  split_and!; try done.
  - intros j k Hj E.
    destruct (lookup_lt_is_Some_2 objects j Hj) as [oj Hoj].
    destruct (Hk j oj Hoj) as (a & Ha & Hreg).
    rewrite Hoj in E. symmetry in E. destruct (Hk k oj E) as (a' & Ha' & Hreg').
    subst l. rewrite Ha, Ha'. congruence.
  - subst l w'. rewrite Hidem. by destruct (interactGroup objects w).
  - simpl. unfold interact. by destruct (add o w).
Qed.

(** X14.  [remove] is idempotent, two removals can be done in either order,
    and removing an object that is neither registered nor hovered nor a
    target changes nothing at all; for such an object, [add] followed by
    [remove] leaves the coordinator as it was. *)
Theorem remove_algebra o o' w :
  remove o (remove o w) = remove o w
  ∧ remove o (remove o' w) = remove o' (remove o w)
  ∧ (interactables (manager w) !! o = None → o ∉ hoveredObjects (manager w) →
     activeObject (manager w) ≠ Some o → dragObject (manager w) ≠ Some o →
     remove o w = w ∧ manager (remove o (add o w).2) = manager w).
Proof.
  assert (interactables (manager w) !! o = None → o ∉ hoveredObjects (manager w) →
          activeObject (manager w) ≠ Some o → dragObject (manager w) ≠ Some o →
          manager (remove o (add o w).2) = manager w) as Hround.
  { intros Hn Hh Ha Hd. unfold remove. simpl. rewrite add_manager, Hn. simpl.
    destruct (manager w) as [it ho ac dr lp]. simpl in *. f_equal.
    - rewrite delete_insert_eq. by apply delete_id.
    - by apply filter_ne_absent.
    - unfold clear_if. by rewrite decide_False.
    - unfold clear_if. by rewrite decide_False. }
  split_and!.
  - unfold remove, with_manager. simpl. f_equal. f_equal.
    + apply delete_delete_eq.
    + apply list_filter_filter_l. auto.
    + apply clear_if_idemp.
    + apply clear_if_idemp.
  - unfold remove, with_manager. simpl. f_equal. f_equal.
    + apply delete_delete.
    + apply filter_ne_comm.
    + apply clear_if_comm.
    + apply clear_if_comm.
  - intros Hn Hh Ha Hd. split; [|by apply Hround]. clear Hround.
    destruct w as [ar na wr nw m tr]. destruct m as [it ho ac dr lp].
    unfold remove, with_manager. simpl in *. f_equal. f_equal.
    + by apply delete_id.
    + by apply filter_ne_absent.
    + unfold clear_if. by rewrite decide_False.
    + unfold clear_if. by rewrite decide_False.
Qed.

(** X15.  Only [onPointerDown] sets the drag target and the active target.
    [onClick] and [onPointerMove] leave each of them as it is, unless a
    handler removes the object, which clears it; [onPointerUp] clears both,
    whatever the handlers do.  In every state that the application can
    bring about the two targets are equal. *)
Theorem targets_lifecycle B s w :
  (∀ k, k = OnClick ∨ k = OnPointerMove →
     let w' := run_listener B k s w in
     (dragObject (manager w') = dragObject (manager w) ∨ dragObject (manager w') = None)
     ∧ (activeObject (manager w') = activeObject (manager w)
        ∨ activeObject (manager w') = None)
     ∧ ((∀ h, no_remove B h = true) →
          dragObject (manager w') = dragObject (manager w)
          ∧ activeObject (manager w') = activeObject (manager w)))
  ∧ (dragObject (manager (onPointerUp B s w)) = None
     ∧ activeObject (manager (onPointerUp B s w)) = None)
  ∧ (reachable B w → dragObject (manager w) = activeObject (manager w)).
Proof.
  split_and!.
  - intros k Hk w'. split_and!.
    + apply (targets_run_listener B
               (λ w', dragObject (manager w') = dragObject (manager w)
                      ∨ dragObject (manager w') = None) k s w Hk).
      * apply target_or_none_stable. by left.
      * intros w1 w2 H1 _. by rewrite H1.
      * by left.
    + apply (targets_run_listener B
               (λ w', activeObject (manager w') = activeObject (manager w)
                      ∨ activeObject (manager w') = None) k s w Hk).
      * apply target_or_none_stable. by right.
      * intros w1 w2 _ H2. by rewrite H2.
      * by left.
    + intros HB. split.
      * apply (targets_run_listener B
                 (λ w', dragObject (manager w') = dragObject (manager w)) k s w Hk).
        -- apply target_kept_stable; [by left|done].
        -- intros w1 w2 H1 _. by rewrite H1.
        -- done.
      * apply (targets_run_listener B
                 (λ w', activeObject (manager w') = activeObject (manager w)) k s w Hk).
        -- apply target_kept_stable; [by right|done].
        -- intros w1 w2 _ H2. by rewrite H2.
        -- done.
  - apply pointerup_targets.
  - apply pointerup_targets.
  - apply reachable_targets_equal.
Qed.

(** X16.  In a state that the application can bring about, every event that
    a listener dispatches goes to the wrapper of its target: [getObject()]
    of the wrapper that is handed the event is [event.target], whatever
    the handlers do in the meantime. *)
Theorem target_is_wrapped_object B k s w :
  reachable B w →
  Forall (wraps_target (run_listener B k s w))
    (dispatched (new_entries w (run_listener B k s w))).
Proof.
  intros Hr. destruct (reachable_sound B w Hr) as [[HW HR] _].
  by apply run_listener_wraps_target.
Qed.

Lemma target_is_wrapped_object_witness :
  let s := sample at_origin [hit 7; hit 8] in
  Forall (wraps_target (run_listener plain OnClick s near_far))
    (dispatched (new_entries near_far (run_listener plain OnClick s near_far))).
Proof.
  apply (target_is_wrapped_object plain OnClick (sample at_origin [hit 7; hit 8]) near_far).
  unfold near_far. repeat constructor.
Defined.

(** X17.  The basic use of the library: [interact(o, manager).onClick(h)]
    and then a click whose nearest hit is [o].  The coordinator first
    dispatches a [click] event with target [o] to the wrapper of [o], and
    that dispatch calls the click handlers of the wrapper in the order of
    registration, [h] last, when none of them unregisters a handler. *)
Theorem click_reaches_handler B o h s i rest w :
  reachable B w → raycast s = i :: rest → object i = o →
  let a := (interact o w).1 in
  let w1 := Interactable.onClick a h (interact o w).2 in
  let ev := newInteractEvent click o i (event s) in
  forallb (no_splice B) (listeners w1 a click) = true →
  last (listeners w1 a click) = Some h
  ∧ ∃ tr1 tr2,
      new_entries w1 (onClick B s w1) = LDispatch a ev :: tr1 ++ tr2
      ∧ called tr1 = listeners w1 a click ∧ dispatched tr1 = [].
Proof.
  intros Hr Hs Ho a w1 ev Hq. unfold interact in *.
  assert (reachable B (add o w).2) as Hr1 by by constructor.
  assert (interactables (manager (add o w).2) !! o = Some a) as Ha by apply add_lookup.
  destruct (reachable_sound B _ Hr1) as [[HW1 HR1] _].
  destruct (reachable_wf B _ Hr1) as [HS1 _].
  assert (is_Some (wrappers (add o w).2 !! a)) as Hwa.
  { destruct (HR1 o a Ha) as (I & HI & _). by eexists. }
  assert (listeners w1 a click = listeners (add o w).2 a click ++ [h]) as Hl.
  { unfold w1, Interactable.onClick. rewrite on_listeners by done. by rewrite decide_True. }
  split; [rewrite Hl; apply last_snoc|].
  assert (store_wf w1) as HS by (by apply store_wf_on).
  assert (interactables (manager w1) !! object i = Some a) as Ha1.
  { unfold w1, Interactable.onClick. by rewrite on_manager, Ho. }
  unfold onClick. destruct (updatePointer (event s) w1) as [[dx dy] w2] eqn:E.
  assert (w2 = (updatePointer (event s) w1).2) as Hw2 by by rewrite E.
  rewrite Hs. simpl. rewrite Hw2. simpl. rewrite Ha1. rewrite Ho. fold ev.
  unfold fire.
  set (w3 := record (LDispatch a ev) _).
  assert (store_wf w3) as HS3 by exact HS.
  assert (listeners w3 a (type ev) = listeners w1 a click) as Hl3 by done.
  destruct (dispatchEvent_listeners B a ev w3 HS3) as [Hc _]; [by rewrite Hl3|].
  destruct (dispatchEvent_trace B a ev w3) as (tr1 & Htr1 & Hd1).
  rewrite (new_entries_app _ _ _ Htr1), Hl3 in Hc.
  destruct (dispatchEvent B a ev w3) as [[ev' b] w4]. simpl in Htr1.
  assert (∃ tr2, trace (if stopped ev' then w4 else click_loop B s rest w4)
                 = trace w4 ++ tr2) as [tr2 Htr2].
  { destruct (stopped ev'); [exists []; by rewrite app_nil_r|].
    destruct (phase_loop_only B Click s rest w4) as (tr2 & Htr2 & _). by exists tr2. }
  exists tr1, tr2. split; [|done].
  apply new_entries_app. rewrite Htr2, Htr1. unfold w3. simpl.
  by rewrite <- !app_assoc.
Qed.

Lemma click_reaches_handler_witness :
  let s := sample at_origin [hit 7] in
  let a := (interact 7 initial).1 in
  let w1 := Interactable.onClick a 1 (interact 7 initial).2 in
  let ev := newInteractEvent click 7 (hit 7) (event s) in
  last (listeners w1 a click) = Some 1
  ∧ ∃ tr1 tr2,
      new_entries w1 (onClick plain s w1) = LDispatch a ev :: tr1 ++ tr2
      ∧ called tr1 = listeners w1 a click ∧ dispatched tr1 = [].
Proof.
  apply (click_reaches_handler plain 7 1 (sample at_origin [hit 7]) (hit 7) [] initial).
  - constructor.
  - done.
  - done.
  - done.
Defined.

(** * Facts about stopping *)

Section Stopping.

Context (B : InteractEventHandler → list action).

Lemma call_event h ev w : same_event ev (call B h ev w).1.
Proof. apply run_body_event. Qed.

Lemma call_all_event hs ev w : same_event ev (call_all B hs (ev, w)).1.
Proof.
  revert ev w. induction hs as [|h hs IH]; intros ev w; [done|].
  simpl. destruct (call_event h ev w) as (H1 & H2 & H3).
  destruct (call B h ev w) as [ev' w']. simpl in *.
  destruct (IH ev' w') as (H1' & H2' & H3').
  split_and!; [congruence|congruence|auto].
Qed.

(** When one of the handlers stops propagation, the event is stopped after
    all of them have been called. *)
Lemma call_all_stops hs ev w :
  existsb (λ h, existsb stops (B h)) hs = true →
  stopped (call_all B hs (ev, w)).1 = true.
Proof.
  revert ev w. induction hs as [|h hs IH]; intros ev w Hs; [done|].
  simpl in *. pose proof (run_body_stops (B h) ev (record (LCall h ev) w)) as Hh.
  fold (call B h ev w) in Hh.
  destruct (call B h ev w) as [ev' w']. simpl in *.
  apply orb_true_iff in Hs as [Hs|Hs]; [|by apply IH].
  destruct (call_all_event hs ev' w') as (_ & _ & Hm). by apply Hm, Hh.
Qed.

End Stopping.

(** X18.  Stopping propagation acts between objects, not within one: when a
    handler of the nearest registered hit stops the event, in [onClick],
    [onPointerMove], [onPointerDown] or [onPointerUp], every handler that
    the object has for the type is still called, in order, and the loop
    ends after them, so that this one event is all the loop dispatches
    (for handlers that do not unregister handlers). *)
Theorem stop_halts_after_all_handlers B p s i rest a w :
  store_wf w →
  interactables (manager w) !! object i = Some a →
  forallb (no_splice B) (listeners w a (phase_type p)) = true →
  existsb (λ h, existsb stops (B h)) (listeners w a (phase_type p)) = true →
  let w' := phase_loop B p s (i :: rest) w in
  called (new_entries w w') = listeners w a (phase_type p)
  ∧ dispatched (new_entries w w') = [(a, phase_event p s i)].
Proof.
  intros HW Ha Hq Hs w'. unfold w'. rewrite phase_loop_ordered. simpl. rewrite Ha.
  assert (type (phase_event p s i) = phase_type p) as Hty by by destruct p.
  unfold listeners in Hq, Hs |- *.
  destruct (handlers_of w a (phase_type p)) as [r|] eqn:Hr; [|done].
  destruct (HW a _ r Hr) as (Hlt & _).
  unfold fire. set (ev := phase_event p s i) in *.
  set (w3 := record (LDispatch a ev) w).
  assert (handlers_of w3 a (type ev) = Some r) as Hr3 by by rewrite Hty.
  rewrite (dispatchEvent_snapshot B a ev w3 r Hr3 Hlt Hq).
  change (array_at w3 r) with (array_at w r).
  rewrite (call_all_stops B (array_at w r) ev w3 Hs).
  destruct (call_all_trace B (array_at w r) ev w3) as (tr & Htr & Hc & Hd).
  assert (trace (phase_after p i (call_all B (array_at w r) (ev, w3)).2)
          = trace w ++ LDispatch a ev :: tr) as Htr'.
  { assert (∀ u, trace (phase_after p i u) = trace u) as -> by by destruct p.
    rewrite Htr. unfold w3. simpl. by rewrite <- app_assoc. }
  rewrite (new_entries_app _ _ _ Htr'). split; [done|].
  change (dispatched (LDispatch a ev :: tr)) with ((a, ev) :: dispatched tr).
  by rewrite Hd.
Qed.

Lemma stop_halts_after_all_handlers_witness :
  let w := on 0 click 2 (on 0 click 1 (on 0 click 0 near_far)) in
  let s := sample at_origin [hit 7; hit 8] in
  let w' := phase_loop delta_then_stop Click s [hit 7; hit 8] w in
  called (new_entries w w') = listeners w 0 click
  ∧ dispatched (new_entries w w') = [(0, phase_event Click s (hit 7))].
Proof.
  apply (stop_halts_after_all_handlers delta_then_stop Click
           (sample at_origin [hit 7; hit 8]) (hit 7) [hit 8] 0).
  - unfold near_far.
    repeat first [apply store_wf_on | apply store_wf_add | apply store_wf_initial].
  - by vm_compute.
  - by vm_compute.
  - by vm_compute.
Defined.
